(** * react-testable-architecture: pricing utilities, cart hook, catalog hook

    A shallow embedding of

    - [utils/pricing.ts]   ([calculateDiscount], [calculateTax], [calculateTotal],
      [formatCurrency]),
    - [hooks/useCart.ts]   (the cart reducers and the derived totals),
    - [hooks/useProducts.ts] (the catalog loader and its effect),

    over IEEE 754 binary64, the arithmetic of a JavaScript [number].
    The arithmetic is the one of [SpecFloat] at precision 53 and maximal
    exponent 1024; [Math.round] follows the steps of ECMAScript. *)

From Stdlib Require Import ZArith List String Ascii Bool Lia Permutation.
From Stdlib Require Import SpecFloat Zpower.
From Stdlib Require Import QArith Qpower Qround Qabs Lqa.
Import ListNotations.
Local Open Scope Z_scope.

(** ** JavaScript numbers *)

Module Js.

Definition number : Type := spec_float.

Definition prec : Z := 53.
Definition emax : Z := 1024.

(** A number is a well-formed double when its mantissa and exponent are
    the canonical ones of binary64. *)
Definition valid (x : number) : bool := valid_binary prec emax x.

Definition add : number -> number -> number := SFadd prec emax.
Definition sub : number -> number -> number := SFsub prec emax.
Definition mul : number -> number -> number := SFmul prec emax.
Definition div : number -> number -> number := SFdiv prec emax.

(** [x < y], [x > y], [x <= y]: all false on NaN. *)
Definition lt (x y : number) : bool := SFltb x y.
Definition gt (x y : number) : bool := SFltb y x.
Definition le (x y : number) : bool := SFleb x y.
(** [x == y] on numbers: [-0 == +0], and NaN differs from itself. *)
Definition eq (x y : number) : bool := SFeqb x y.

(** The number denoted by an integer literal. *)
Definition of_Z (z : Z) : number := binary_normalize prec emax z 0 false.

(** The number [n * 2^e], when it is a double. *)
Definition dyadic (n e : Z) : number := binary_normalize prec emax n e false.

(** The number denoted by the decimal literal [n / 10^k]: the double
    nearest to it, which the correctly rounded quotient of the two
    (exact) integers is. *)
Definition decimal (n : Z) (k : nat) : number :=
  div (of_Z n) (of_Z (10 ^ Z.of_nat k)).

Definition zero : number := S754_zero false.
Definition NaN : number := S754_nan.

(** The signed mantissa of a finite non-zero number. *)
Definition signed (s : bool) (m : positive) : Z :=
  if s then Z.neg m else Z.pos m.

(** [Number.isFinite]. *)
Definition isFinite (x : number) : bool :=
  match x with
  | S754_zero _ | S754_finite _ _ _ => true
  | _ => false
  end.

(** The numbers below zero: the negative finite ones and -Infinity. *)
Definition negative (x : number) : bool :=
  match x with
  | S754_finite s _ _ | S754_infinity s => s
  | _ => false
  end.

(** [Number.isInteger]. *)
Definition isInteger (x : number) : bool :=
  match x with
  | S754_zero _ => true
  | S754_finite _ m e => (0 <=? e) || (Z.pos m mod 2 ^ (- e) =? 0)
  | _ => false
  end.

(** [Math.round]: a number that is not finite or is integral is returned
    as it is; otherwise the nearest integer, the one closer to +infinity
    on a tie; a result of zero keeps the sign of the argument. *)
Definition Math_round (x : number) : number :=
  match x with
  | S754_finite s m e =>
      if isInteger x then x
      else
        let n := (2 * signed s m + 2 ^ (- e)) / 2 ^ (1 - e) in
        if n =? 0 then S754_zero s else of_Z n
  | _ => x
  end.

(** *** The value of a double, and rounding to nearest *)

(** [2^e] as a rational. *)
Definition bpow (e : Z) : Q := (2 ^ e)%Q.

(** The rational a finite number stands for (0 for the others). *)
Definition val (x : number) : Q :=
  match x with
  | S754_finite s m e => (inject_Z (signed s m) * bpow e)%Q
  | _ => 0%Q
  end.

(** The position of [x] between [M] and [M + 1], as [binary_round_aux]
    records it: on [M], below the middle, on it, or above it. *)
Definition loc_ok (x : Q) (M : Z) (l : location) : Prop :=
  match l with
  | loc_Exact => (x == inject_Z M)%Q
  | loc_Inexact Lt => (inject_Z M < x /\ x < inject_Z M + (1 # 2))%Q
  | loc_Inexact Eq => (x == inject_Z M + (1 # 2))%Q
  | loc_Inexact Gt => (inject_Z M + (1 # 2) < x /\ x < inject_Z M + 1)%Q
  end.

(** [N] is the integer nearest to [x], an even one on a tie. *)
Definition nearest (x : Q) (N : Z) : Prop :=
  (inject_Z N - (1 # 2) <= x /\ x <= inject_Z N + (1 # 2))%Q /\
  ((x == inject_Z N - (1 # 2) \/ x == inject_Z N + (1 # 2))%Q -> Z.even N = true).

(** [2^F] is the spacing of the doubles around [v]: [v] has 53 digits
    on that grid, or fewer on the grid of the subnormals. *)
Definition grid (v : Q) (F : Z) : Prop :=
  (F = -1074 /\ (v < bpow (-1021))%Q) \/
  (-1074 < F /\ (bpow (F + 52) <= v /\ v < bpow (F + 53))%Q).

(** The double of mantissa [N] and exponent [F] after rounding: zero,
    the mantissa renormalised when it reached [2^53], infinity past
    the largest exponent. *)
Definition pack (s : bool) (N F : Z) : number :=
  match N with
  | Z0 => S754_zero s
  | Zpos n =>
      if N <? 2 ^ 53 then
        if F <=? 971 then S754_finite s n F else S754_infinity s
      else
        if F + 1 <=? 971 then S754_finite s 4503599627370496 (F + 1)
        else S754_infinity s
  | Zneg _ => S754_nan
  end.

(** [r] is the positive value [v] rounded to nearest, ties to even. *)
Definition rounds (v : Q) (r : number) : Prop :=
  exists N F, r = pack false N F /\ grid v F /\ nearest (v / bpow F) N /\ 0 <= N.

(** The valid numbers that are not negative: zeros, positive doubles
    and +Infinity. *)
Definition nonneg (x : number) : bool :=
  match x with
  | S754_zero _ => true
  | S754_finite s m e => negb s && bounded prec emax m e
  | S754_infinity s => negb s
  | S754_nan => false
  end.

(** The number with the sign bit [s] in place of its own. *)
Definition with_sign (s : bool) (x : number) : number :=
  match x with
  | S754_zero _ => S754_zero s
  | S754_infinity _ => S754_infinity s
  | S754_nan => S754_nan
  | S754_finite _ m e => S754_finite s m e
  end.

(** [+0] or a positive double. *)
Definition clean (x : number) : bool :=
  match x with
  | S754_zero s => negb s
  | S754_finite s m e => negb s && bounded prec emax m e
  | _ => false
  end.

(** Zero, or a positive normal double. *)
Definition regular (x : number) : Prop :=
  x = S754_zero false \/
  exists m e, x = S754_finite false m e /\ bounded prec emax m e = true /\
              (bpow (-1022) <= val x)%Q.

(** *** Number.prototype.toFixed *)

(** The decimal digit [d], for [0 <= d <= 9]. *)
Definition digit (d : Z) : ascii := ascii_of_nat (48 + Z.to_nat d).

(** The decimal representation of [n >= 0], the most significant digit
    first; [fuel] digits at most. *)
Fixpoint digits_fuel (fuel : nat) (n : Z) : list ascii :=
  match fuel with
  | O => []
  | S fuel =>
      if n <? 10 then [digit n]
      else digits_fuel fuel (n / 10) ++ [digit (n mod 10)]
  end.

Definition digits (n : Z) : list ascii :=
  digits_fuel (S (Z.to_nat (Z.log2 n))) n.

(** The digits of [n / 10^f] with [f] digits after the point: [n] in
    decimal, padded with zeros to [f + 1] digits, the point before the
    last [f]. *)
Definition fixed_digits (n : Z) (f : nat) : list ascii :=
  let m := if n =? 0 then ["0"%char] else digits n in
  if Nat.eqb f 0 then m
  else
    let m :=
      if Nat.leb (List.length m) f
      then repeat "0"%char (f + 1 - List.length m) ++ m else m in
    let k := List.length m in
    firstn (k - f) m ++ "."%char :: skipn (k - f) m.

Section ToFixed.

(** [Number::toString], which [toFixed] hands a number to when it is
    not finite or is [10^21] or more. *)
Variable Number_toString : number -> string.

(** [x.toFixed(f)] for [0 <= f <= 100], by the steps of ECMAScript.  A
    number that is not finite goes to [Number::toString].  Otherwise
    the sign is taken off ([-0] has none) and [|x| = num / den]: at
    [10^21] or more it goes to [Number::toString]; below, [n] is the
    integer for which [n / 10^f] is nearest to [|x|], the larger one on
    a tie, printed with [f] digits after the point. *)
Definition toFixed (x : number) (f : nat) : string :=
  match x with
  | S754_zero _ => string_of_list_ascii (fixed_digits 0 f)
  | S754_finite s m e =>
      let num := Z.pos m * 2 ^ Z.max e 0 in
      let den := 2 ^ Z.max (- e) 0 in
      let sign := if s then "-"%string else ""%string in
      if 10 ^ 21 * den <=? num then
        sign ++ Number_toString (S754_finite false m e)
      else
        let n := (2 * num * 10 ^ Z.of_nat f + den) / (2 * den) in
        sign ++ string_of_list_ascii (fixed_digits n f)
  | _ => Number_toString x
  end.

End ToFixed.

End Js.

Import Js.

(** ** Exceptions *)

Inductive exn : Type :=
| Error (message : string).

Inductive result (A : Type) : Type :=
| Return (a : A)
| Throw (e : exn).

Arguments Return {A} a.
Arguments Throw {A} e.

Definition bind {A B : Type} (r : result A) (k : A -> result B) : result B :=
  match r with
  | Return a => k a
  | Throw e => Throw e
  end.

Notation "x <- r ;; k" := (bind r (fun x => k))
  (at level 61, r at next level, right associativity).

(** ** utils/pricing.ts *)

Module Pricing.

Record PricedLine : Type := mkLine { price : number; quantity : number }.

Definition calculateDiscount (price discountPercent : number) : result number :=
  if lt discountPercent (of_Z 0) || gt discountPercent (of_Z 100) then
    Throw (Error "Discount must be between 0 and 100")
  else
    Return
      (div (Math_round
              (mul (mul price (sub (of_Z 1) (div discountPercent (of_Z 100))))
                   (of_Z 100)))
           (of_Z 100)).

(** [taxRate] is an optional parameter, 0.1 when left out. *)
Definition calculateTax (price : number) (taxRate : option number) : number :=
  let taxRate := match taxRate with Some r => r | None => decimal 1 1 end in
  div (Math_round (mul (mul price taxRate) (of_Z 100))) (of_Z 100).

Definition calculateTotal (items : list PricedLine) : number :=
  div (Math_round
         (mul (fold_left (fun sum item => add sum (mul (price item) (quantity item)))
                         items (of_Z 0))
              (of_Z 100)))
      (of_Z 100).

(** The rounding that each of the three functions ends with. *)
Definition round2 (x : number) : number :=
  div (Math_round (mul x (of_Z 100))) (of_Z 100).

(** Rounding a rational to the nearest integer, a half away from
    zero. *)
Definition round_half_away (q : Q) : Z :=
  if Qle_bool 0 q then Qfloor (q + (1 # 2)) else - Qfloor (- q + (1 # 2)).


(** The sum of [unitPrice * quantity] over the lines, in exact
    arithmetic on the values of the doubles. *)
Definition exact_total (items : list PricedLine) : Q :=
  fold_right (fun item acc => val (price item) * val (quantity item) + acc)%Q 0%Q items.

(** The total as the specification words it, in whole cents: the exact
    sum, rounded to 2 decimal places once, is this number of cents
    over 100. *)
Definition sumLineTotals_spec (lines : list PricedLine) : Z :=
  round_half_away (100 * exact_total lines)%Q.

(** A line whose price is the whole number [n] of cents, the double
    nearest to [n / 100], and whose quantity is the integer [z]. *)
Definition cent_line (nz : Z * Z) : PricedLine :=
  mkLine (decimal (fst nz) 2) (of_Z (snd nz)).

(** Its price is at most [10^15] cents and its quantity is below
    [2^53], neither negative. *)
Definition cent_ok (nz : Z * Z) : Prop :=
  0 <= fst nz <= 10 ^ 15 /\ 0 <= snd nz < 2 ^ 53.

(** The exact total of such lines, in cents. *)
Definition cent_total (l : list (Z * Z)) : Z :=
  fold_right (fun nz acc => fst nz * snd nz + acc) 0 l.

(** [`$${amount.toFixed(2)}`]; [Number_toString] is the conversion
    [toFixed] falls back on. *)
Definition formatCurrency (Number_toString : number -> string) (amount : number)
  : string :=
  "$" ++ toFixed Number_toString amount 2.

End Pricing.

(** ** hooks/useCart.ts *)

Module Cart.

Record Product : Type := mkProduct {
  id : string;
  name : string;
  price : number;
  image : string
}.

Record CartItem : Type := mkItem {
  product : Product;
  quantity : number
}.

(** The updater each callback hands to [setItems]. *)

Definition addItem (p : Product) (prev : list CartItem) : list CartItem :=
  match find (fun i => String.eqb (id (product i)) (id p)) prev with
  | Some _ =>
      map (fun i =>
             if String.eqb (id (product i)) (id p)
             then mkItem (product i) (add (quantity i) (of_Z 1))
             else i) prev
  | None => prev ++ [mkItem p (of_Z 1)]
  end.

Definition removeItem (productId : string) (prev : list CartItem) : list CartItem :=
  filter (fun i => negb (String.eqb (id (product i)) productId)) prev.

Definition updateQuantity (productId : string) (quantity : number)
  (prev : list CartItem) : list CartItem :=
  if le quantity (of_Z 0) then
    filter (fun i => negb (String.eqb (id (product i)) productId)) prev
  else
    map (fun i =>
           if String.eqb (id (product i)) productId
           then mkItem (product i) quantity
           else i) prev.

Definition clearCart (prev : list CartItem) : list CartItem := [].

(** What one render of the hook returns beside the callbacks. *)
Record View : Type := mkView {
  items : list CartItem;
  subtotal : number;
  discountedTotal : number;
  tax : number;
  total : number;
  itemCount : number
}.

(** [discountPercent] is an optional parameter, 0 when left out.  The
    render throws when [calculateDiscount] does. *)
Definition useCart (discountPercent : option number) (items : list CartItem)
  : result View :=
  let discountPercent :=
    match discountPercent with Some d => d | None => of_Z 0 end in
  let subtotal :=
    Pricing.calculateTotal
      (map (fun i => Pricing.mkLine (price (product i)) (quantity i)) items) in
  discountedTotal <- Pricing.calculateDiscount subtotal discountPercent ;;
  let tax := Pricing.calculateTax discountedTotal None in
  let total :=
    div (Math_round (mul (add discountedTotal tax) (of_Z 100))) (of_Z 100) in
  Return (mkView items subtotal discountedTotal tax total
            (fold_left (fun sum i => add sum (quantity i)) items (of_Z 0))).

(** The calls a consumer can make, and the cart they lead to from the
    empty one ([useState([])]). *)
Inductive call : Type :=
| AddItem (p : Product)
| RemoveItem (productId : string)
| UpdateQuantity (productId : string) (quantity : number)
| ClearCart.

Definition apply (prev : list CartItem) (c : call) : list CartItem :=
  match c with
  | AddItem p => addItem p prev
  | RemoveItem productId => removeItem productId prev
  | UpdateQuantity productId quantity => updateQuantity productId quantity prev
  | ClearCart => clearCart prev
  end.

Definition run (calls : list call) : list CartItem := fold_left apply calls [].

(** The product identifiers of a cart, in order. *)
Definition ids (l : list CartItem) : list string := map (fun i => id (product i)) l.

(** The line items of the products other than [productId], in order. *)
Definition others (productId : string) (l : list CartItem) : list CartItem :=
  filter (fun i => negb (String.eqb (id (product i)) productId)) l.

(** An integer quantity of at least 1. *)
Definition whole_quantity (q : number) : bool := isInteger q && le (of_Z 1) q.

(** The calls whose quantities are integers. *)
Definition integer_calls (calls : list call) : Prop :=
  forall productId q, In (UpdateQuantity productId q) calls ->
    valid q = true /\ isInteger q = true.

(** At most one line per product, each with a quantity that is a
    positive double, an integer, and at least 1. *)
Definition whole_cart (l : list CartItem) : Prop :=
  NoDup (ids l) /\
  forall i, In i l ->
    exists m e, quantity i = S754_finite false m e /\
                bounded prec emax m e = true /\
                whole_quantity (quantity i) = true.

(** The product of the cart tests. *)
Definition headphones : Product := mkProduct "1" "Headphones" (of_Z 80) "headphones".

End Cart.

(** ** hooks/useProducts.ts *)

Module Loader.

Import Cart.

(** The three [useState] cells. *)
Record State : Type := mkState {
  products : list Product;
  loading : bool;
  error : option string
}.

(** One run of the effect: its own [cancelled] flag, and the promise of
    [api.fetchProducts()], which settles at most once. *)
Record Effect : Type := mkEffect {
  cancelled : bool;
  settled : bool
}.

(** A mounted hook: the state cells and the effect runs so far, oldest
    first.  The cleanup of a run is the one React calls before the next
    run and at unmount. *)
Record Hook : Type := mkHook {
  state : State;
  effects : list Effect
}.

Inductive outcome : Type :=
| Resolve (data : list Product)
| Reject (message : string).

Inductive event : Type :=
| Rerun                          (* the [api] dependency changed *)
| Settle (k : nat) (o : outcome) (* the promise of run [k] settles *)
| Unmount.

Definition setProducts (data : list Product) (s : State) : State :=
  mkState data (loading s) (error s).
Definition setLoading (b : bool) (s : State) : State :=
  mkState (products s) b (error s).
Definition setError (message : string) (s : State) : State :=
  mkState (products s) (loading s) (Some message).

(** [return () => { cancelled = true; }] of the latest run. *)
Definition cleanup (l : list Effect) : list Effect :=
  match rev l with
  | [] => []
  | e :: older => rev (mkEffect true (settled e) :: older)
  end.

(** The body of the effect: [let cancelled = false; setLoading(true);
    api.fetchProducts()...]. *)
Definition runEffect (h : Hook) : Hook :=
  mkHook (setLoading true (state h)) (effects h ++ [mkEffect false false]).

(** The [then] and [catch] handlers of a run. *)
Definition handler (e : Effect) (o : outcome) (s : State) : State :=
  match o with
  | Resolve data =>
      if negb (cancelled e) then setLoading false (setProducts data s) else s
  | Reject message =>
      if negb (cancelled e) then setLoading false (setError message s) else s
  end.

Fixpoint settle (k : nat) (l : list Effect) : list Effect :=
  match l, k with
  | [], _ => []
  | e :: l, O => mkEffect (cancelled e) true :: l
  | e :: l, S k => e :: settle k l
  end.

(** The first render: the initial values of the cells, then the effect. *)
Definition initial : State := mkState [] true None.
Definition mount : Hook := runEffect (mkHook initial []).

Definition step (h : Hook) (ev : event) : Hook :=
  match ev with
  | Rerun => runEffect (mkHook (state h) (cleanup (effects h)))
  | Settle k o =>
      match nth_error (effects h) k with
      | Some e =>
          if settled e then h
          else mkHook (handler e o (state h)) (settle k (effects h))
      | None => h
      end
  | Unmount => mkHook (state h) (cleanup (effects h))
  end.

Definition steps (evs : list event) : Hook := fold_left step evs mount.

(** The three states of the catalog loader. *)
Definition is_loading (s : State) : Prop := loading s = true.
Definition is_ready (s : State) : Prop := loading s = false /\ error s = None.
Definition is_failed (s : State) : Prop :=
  loading s = false /\ error s <> None /\ products s = [].

(** No [Rerun] among the events: a single run of the effect. *)
Definition single_run (evs : list event) : Prop := ~ In Rerun evs.

(** The hook of a single run: one effect, and the initial state as long
    as its promise has not settled. *)
Definition one_run (h : Hook) : Prop :=
  exists e, effects h = [e] /\
    (settled e = false -> state h = initial) /\
    (is_loading (state h) \/ is_ready (state h) \/ is_failed (state h)).

(** The latest run of the effect. *)
Definition latest (h : Hook) : option Effect :=
  nth_error (effects h) (pred (List.length (effects h))).

(** A run is stale once its cleanup has been called. *)
Definition stale (e : Effect) : Prop := cancelled e = true.

(** How many times the effect ran again. *)
Definition reruns (evs : list event) : nat :=
  List.length (filter (fun ev => match ev with Rerun => true | _ => false end) evs).

End Loader.

(** * Binary64: exact operations

    The number of binary digits of a mantissa, shifts, and the cases in
    which rounding is the identity. *)

Lemma digits2_bounds (p : positive) :
  2 ^ (Z.pos (digits2_pos p) - 1) <= Z.pos p < 2 ^ Z.pos (digits2_pos p).
Proof.
  induction p as [p IH | p IH |]; simpl digits2_pos.
  - rewrite Pos2Z.inj_succ.
    replace (Z.succ (Z.pos (digits2_pos p)) - 1) with (Z.succ (Z.pos (digits2_pos p) - 1)) by lia.
    rewrite !Z.pow_succ_r by lia. lia.
  - rewrite Pos2Z.inj_succ.
    replace (Z.succ (Z.pos (digits2_pos p)) - 1) with (Z.succ (Z.pos (digits2_pos p) - 1)) by lia.
    rewrite !Z.pow_succ_r by lia. lia.
  - simpl. lia.
Qed.

(** The number of digits is determined by the bounds. *)
Lemma digits2_unique (p : positive) (d : Z) :
  2 ^ (d - 1) <= Z.pos p < 2 ^ d -> Z.pos (digits2_pos p) = d.
Proof.
  intros [Hl Hu]. pose proof (digits2_bounds p) as [Hl' Hu'].
  assert (0 < d).
  { destruct (Z.ltb_spec 0 d); auto.
    assert (2 ^ d <= 1); [| lia].
    destruct (Z.eqb_spec d 0); [subst; simpl; lia |].
    rewrite Z.pow_neg_r by lia. lia. }
  destruct (Z.lt_trichotomy (Z.pos (digits2_pos p)) d) as [Hlt | [Heq | Hgt]]; auto.
  - assert (2 ^ Z.pos (digits2_pos p) <= 2 ^ (d - 1)) by (apply Z.pow_le_mono_r; lia). lia.
  - assert (2 ^ d <= 2 ^ (Z.pos (digits2_pos p) - 1)) by (apply Z.pow_le_mono_r; lia). lia.
Qed.

Lemma digits2_shift (p : positive) (k : Z) (q : positive) :
  0 <= k -> Z.pos q = Z.pos p * 2 ^ k ->
  Z.pos (digits2_pos q) = Z.pos (digits2_pos p) + k.
Proof.
  intros Hk Hq. apply digits2_unique. rewrite Hq.
  pose proof (digits2_bounds p) as [Hl Hu].
  replace (Z.pos (digits2_pos p) + k - 1) with ((Z.pos (digits2_pos p) - 1) + k) by lia.
  rewrite !Z.pow_add_r by lia.
  assert (0 < 2 ^ k) by (apply Z.pow_pos_nonneg; lia).
  split; nia.
Qed.

Lemma iter_xO_val (m d : positive) : Z.pos (Pos.iter xO m d) = Z.pos m * 2 ^ Z.pos d.
Proof.
  change (Pos.iter xO m d) with (shift_pos d m).
  rewrite shift_pos_correct, Z.pow_pos_fold. lia.
Qed.

Lemma iter_pos_iter {A : Type} (f : A -> A) (n : positive) (x : A) :
  SpecFloat.iter_pos f n x = Pos.iter f x n.
Proof.
  revert x; induction n as [n IH | n IH |]; intro x; simpl; auto.
  - rewrite !IH, !Pos.iter_swap. reflexivity.
  - rewrite !IH. reflexivity.
Qed.

Lemma shr_iter_xO (m p : positive) :
  Pos.iter shr_1 (Build_shr_record (Z.pos (Pos.iter xO m p)) false false) p
  = Build_shr_record (Z.pos m) false false.
Proof.
  induction p as [| p IH] using Pos.peano_ind.
  - reflexivity.
  - rewrite Pos.iter_succ_r, (Pos.iter_succ p _ xO). simpl. exact IH.
Qed.

Lemma bounded_canonical (m : positive) (e : Z) :
  bounded prec emax m e = true ->
  fexp prec emax (Z.pos (digits2_pos m) + e) = e /\ e <= emax - prec.
Proof.
  unfold bounded, canonical_mantissa. intros H.
  apply andb_prop in H as [H1 H2].
  apply Z.eqb_eq in H1. apply Z.leb_le in H2. auto.
Qed.

(** A mantissa that is a canonical one shifted left rounds to it. *)
Lemma round_aux_exact (s : bool) (m : positive) (e : Z) (M : positive) (E : Z) :
  bounded prec emax m e = true -> E <= e -> Z.pos M = Z.pos m * 2 ^ (e - E) ->
  binary_round_aux prec emax s (Z.pos M) E loc_Exact = S754_finite s m e.
Proof.
  intros Hb HE HM. destruct (bounded_canonical _ _ Hb) as [Hc He].
  assert (Hd : Z.pos (digits2_pos M) + E = Z.pos (digits2_pos m) + e).
  { rewrite (digits2_shift m (e - E) M) by (auto; lia). lia. }
  unfold binary_round_aux, shr_fexp. cbn [Zdigits2].
  rewrite Hd, Hc.
  assert (Hfst : shr (shr_record_of_loc (Z.pos M) loc_Exact) E (e - E)
                 = (Build_shr_record (Z.pos m) false false, e)).
  { unfold shr. destruct (e - E) as [| p | p] eqn:Hp; try lia.
    - simpl. rewrite Z.mul_1_r in HM. injection HM as ->. f_equal. lia.
    - rewrite iter_pos_iter. simpl shr_record_of_loc.
      assert (M = Pos.iter xO m p) as ->.
      { apply Pos2Z.inj. rewrite iter_xO_val. exact HM. }
      rewrite shr_iter_xO. f_equal. lia. }
  rewrite Hfst. cbn [shr_m loc_of_shr_record round_nearest_even Zdigits2].
  rewrite Hc, Z.sub_diag. cbn [shr shr_record_of_loc shr_m].
  apply Z.leb_le in He. rewrite He. reflexivity.
Qed.

(** Rounding depends on the value only, when the value is a double. *)
Lemma round_exact (s : bool) (m : positive) (e : Z) (M : positive) (E : Z) :
  bounded prec emax m e = true ->
  Z.pos M * 2 ^ (E - Z.min e E) = Z.pos m * 2 ^ (e - Z.min e E) ->
  binary_round prec emax s M E = S754_finite s m e.
Proof.
  intros Hb HM. destruct (bounded_canonical _ _ Hb) as [Hc He].
  unfold binary_round.
  assert (Hd : Z.pos (digits2_pos M) + E = Z.pos (digits2_pos m) + e).
  { destruct (Z.le_ge_cases e E) as [H | H].
    - rewrite Z.min_l, Z.sub_diag, Z.mul_1_r in HM by lia.
      symmetry in HM. rewrite (digits2_shift M (E - e) m) by (auto; lia). lia.
    - rewrite Z.min_r, Z.sub_diag, Z.mul_1_r in HM by lia.
      rewrite (digits2_shift m (e - E) M) by (auto; lia). lia. }
  rewrite Hd, Hc. unfold shl_align.
  destruct (e - E) as [| p | p] eqn:Hp.
  - apply round_aux_exact; auto; try lia.
    rewrite Z.min_l, Z.sub_diag in HM by lia.
    replace (E - e) with 0 in HM by lia. replace (e - E) with 0 by lia. lia.
  - apply round_aux_exact; auto; try lia.
    rewrite Z.min_r, Z.sub_diag, Z.mul_1_r in HM by lia. rewrite HM. f_equal. 
  - assert (Pos.iter xO M p = m) as ->.
    { apply Pos2Z.inj. rewrite iter_xO_val.
      rewrite Z.min_l, Z.sub_diag, Z.mul_1_r in HM by lia.
      rewrite <- HM. f_equal. f_equal. lia. }
    apply round_aux_exact; auto; try lia.
    rewrite Z.sub_diag. lia.
Qed.

Lemma fexp_eq (x : Z) : fexp prec emax x = Z.max (x - 53) (-1074).
Proof. reflexivity. Qed.

(** A mantissa of at most 53 digits with an exponent in range is a
    double: rounding finds its canonical form. *)
Lemma round_small (s : bool) (M : positive) (E : Z) :
  Z.pos M < 2 ^ 53 -> -1074 <= E <= 971 ->
  exists m e,
    binary_round prec emax s M E = S754_finite s m e /\
    bounded prec emax m e = true /\ e <= E /\
    Z.pos m = Z.pos M * 2 ^ (E - e).
Proof.
  intros HM HE.
  assert (Hdig : Z.pos (digits2_pos M) <= 53).
  { pose proof (digits2_bounds M) as [Hl _].
    destruct (Z.leb_spec (Z.pos (digits2_pos M)) 53); auto.
    assert (2 ^ 53 <= 2 ^ (Z.pos (digits2_pos M) - 1)) by (apply Z.pow_le_mono_r; lia).
    lia. }
  set (e := fexp prec emax (Z.pos (digits2_pos M) + E)).
  assert (He : e <= E /\ -1074 <= e) by (unfold e; rewrite fexp_eq; lia).
  assert (Hpos : 0 < Z.pos M * 2 ^ (E - e)).
  { apply Z.mul_pos_pos; [lia | apply Z.pow_pos_nonneg; lia]. }
  destruct (Z.pos M * 2 ^ (E - e)) as [| m | m] eqn:Hm; try lia.
  assert (Hb : bounded prec emax m e = true).
  { unfold bounded, canonical_mantissa.
    rewrite (digits2_shift M (E - e) m) by (auto; lia).
    replace (Z.pos (digits2_pos M) + (E - e) + e) with (Z.pos (digits2_pos M) + E) by lia.
    fold e. rewrite Z.eqb_refl. simpl. apply Z.leb_le. unfold emax, prec. lia. }
  exists m, e. repeat split; auto; try lia.
  apply round_exact; auto.
  rewrite Z.min_l, Z.sub_diag by lia. lia.
Qed.

Lemma shl_align_val (m : positive) (e ez : Z) :
  ez <= e -> Z.pos (fst (shl_align m e ez)) = Z.pos m * 2 ^ (e - ez).
Proof.
  intros H. unfold shl_align. destruct (ez - e) as [| p | p] eqn:Hp; try lia; simpl fst.
  - replace (e - ez) with 0 by lia. lia.
  - rewrite iter_xO_val. f_equal. f_equal. lia.
Qed.

Lemma dyadic_0 (g : Z) : dyadic 0 g = S754_zero false.
Proof. reflexivity. Qed.

Lemma dyadic_finite (a g : Z) :
  a <> 0 -> Z.abs a < 2 ^ 53 -> -1074 <= g <= 971 ->
  exists m e,
    dyadic a g = S754_finite (a <? 0) m e /\
    bounded prec emax m e = true /\ e <= g /\
    signed (a <? 0) m = a * 2 ^ (g - e).
Proof.
  intros Ha Hlt Hg. unfold dyadic, binary_normalize.
  destruct a as [| p | p]; try congruence.
  - destruct (round_small false p g) as (m & e & H1 & H2 & H3 & H4); auto; try lia.
    exists m, e. repeat split; auto.
  - destruct (round_small true p g) as (m & e & H1 & H2 & H3 & H4); auto; try lia.
    exists m, e. repeat split; auto. simpl signed.
    rewrite <- Pos2Z.opp_pos, H4. lia.
Qed.

Lemma normalize_exact (a g : Z) (N E : Z) :
  Z.abs a < 2 ^ 53 -> -1074 <= g <= 971 -> E <= g ->
  N = a * 2 ^ (g - E) ->
  binary_normalize prec emax N E false = dyadic a g.
Proof.
  intros Hlt Hg HE HN.
  destruct (Z.eq_dec a 0) as [-> | Ha].
  { subst N. reflexivity. }
  destruct (dyadic_finite a g Ha Hlt Hg) as (m & e & H1 & H2 & H3 & H4).
  rewrite H1.
  assert (Hp : 0 < 2 ^ (g - E)) by (apply Z.pow_pos_nonneg; lia).
  assert (Hval : forall P : positive, Z.pos P = Z.abs a * 2 ^ (g - E) ->
                 Z.pos P * 2 ^ (E - Z.min e E) = Z.pos m * 2 ^ (e - Z.min e E)).
  { intros P HP. rewrite HP.
    assert (Z.pos m = Z.abs a * 2 ^ (g - e)) as ->.
    { assert (0 < 2 ^ (g - e)) by (apply Z.pow_pos_nonneg; lia).
      replace (Z.pos m) with (Z.abs (signed (a <? 0) m)) by (destruct (a <? 0); reflexivity).
      rewrite H4, Z.abs_mul. f_equal. lia. }
    rewrite <- !Z.mul_assoc, <- !Z.pow_add_r by lia.
    f_equal. f_equal. lia. }
  unfold binary_normalize.
  destruct N as [| P | P].
  - exfalso. symmetry in HN. apply Z.mul_eq_0 in HN. lia.
  - assert (0 < a) by nia. replace (a <? 0) with false by (symmetry; apply Z.ltb_ge; lia).
    apply round_exact; auto. apply Hval. rewrite Z.abs_eq by lia. exact HN.
  - assert (a < 0) by nia. replace (a <? 0) with true by (symmetry; apply Z.ltb_lt; lia).
    apply round_exact; auto. apply Hval. rewrite Z.abs_neq by lia. lia.
Qed.

Lemma cond_Zopp_signed (s : bool) (m : positive) :
  cond_Zopp s (Z.pos m) = signed s m.
Proof. destruct s; reflexivity. Qed.

Lemma signed_scale (s : bool) (m q : positive) (k : Z) :
  Z.pos q = Z.pos m * 2 ^ k -> signed s q = signed s m * 2 ^ k.
Proof.
  unfold signed. destruct s; intros H; [| exact H].
  rewrite <- !Pos2Z.opp_pos, H. ring.
Qed.

(** Sums of doubles on a common binary grid are exact while they fit
    in 53 bits. *)
Lemma dyadic_add (a b g : Z) :
  Z.abs a < 2 ^ 53 -> Z.abs b < 2 ^ 53 -> Z.abs (a + b) < 2 ^ 53 ->
  -1074 <= g <= 971 ->
  add (dyadic a g) (dyadic b g) = dyadic (a + b) g.
Proof.
  intros Ha Hb Hab Hg.
  destruct (Z.eq_dec a 0) as [-> | Ha0].
  { rewrite dyadic_0, Z.add_0_l.
    destruct (Z.eq_dec b 0) as [-> | Hb0]; [reflexivity |].
    destruct (dyadic_finite b g Hb0 Hb Hg) as (m & e & -> & _). reflexivity. }
  destruct (Z.eq_dec b 0) as [-> | Hb0].
  { rewrite dyadic_0, Z.add_0_r.
    destruct (dyadic_finite a g Ha0 Ha Hg) as (m & e & -> & _). reflexivity. }
  destruct (dyadic_finite a g Ha0 Ha Hg) as (ma & ea & -> & _ & Hea & Hma).
  destruct (dyadic_finite b g Hb0 Hb Hg) as (mb & eb & -> & _ & Heb & Hmb).
  unfold add, SFadd. rewrite !cond_Zopp_signed.
  set (ez := Z.min ea eb).
  apply normalize_exact; auto; try lia.
  rewrite (signed_scale _ ma (fst (shl_align ma ea ez)) (ea - ez))
    by (apply shl_align_val; lia).
  rewrite (signed_scale _ mb (fst (shl_align mb eb ez)) (eb - ez))
    by (apply shl_align_val; lia).
  rewrite Hma, Hmb, <- !Z.mul_assoc, <- !Z.pow_add_r by lia.
  replace (g - ea + (ea - ez)) with (g - ez) by lia.
  replace (g - eb + (eb - ez)) with (g - ez) by lia. lia.
Qed.

Lemma Zdigits2_pos_mul (p q : positive) :
  Z.pos (digits2_pos p) + Z.pos (digits2_pos q) - 1 <= Z.pos (digits2_pos (p * q)).
Proof.
  pose proof (digits2_bounds p) as [Hp _].
  pose proof (digits2_bounds q) as [Hq _].
  pose proof (digits2_bounds (p * q)) as [_ Hpq].
  destruct (Z.leb_spec (Z.pos (digits2_pos p) + Z.pos (digits2_pos q) - 1)
              (Z.pos (digits2_pos (p * q)))) as [H | H]; auto.
  exfalso.
  assert (2 ^ Z.pos (digits2_pos (p * q))
          <= 2 ^ ((Z.pos (digits2_pos p) - 1) + (Z.pos (digits2_pos q) - 1)))
    by (apply Z.pow_le_mono_r; lia).
  rewrite Z.pow_add_r in H0 by lia.
  rewrite Pos2Z.inj_mul in Hpq.
  assert (0 < 2 ^ (Z.pos (digits2_pos p) - 1)) by (apply Z.pow_pos_nonneg; lia).
  assert (0 < 2 ^ (Z.pos (digits2_pos q) - 1)) by (apply Z.pow_pos_nonneg; lia).
  nia.
Qed.

Lemma mul_one (x : number) : valid x = true -> mul x (of_Z 1) = x.
Proof.
  destruct x as [s | s | | s m e]; intros Hv; try reflexivity.
  - simpl. now rewrite xorb_false_r.
  - simpl. now rewrite xorb_false_r.
  - change (of_Z 1) with (S754_finite false 4503599627370496 (-52)).
    unfold mul, SFmul. rewrite xorb_false_r.
    apply round_aux_exact; auto; try lia.
    rewrite Pos2Z.inj_mul. f_equal. replace (e - (e + -52)) with 52 by lia. reflexivity.
Qed.

(** * Binary64: rounding to nearest

    What [binary_round_aux] computes, as a function of the exact value,
    and its monotonicity. *)

Ltac q_arith :=
  repeat match goal with H : (_ /\ _) |- _ => destruct H end;
  unfold Qdiv in *; change (/ 2)%Q with (1 # 2)%Q in *;
  repeat split; try lia; lra.

Section Rounding.
Local Open Scope Q_scope.

Lemma bpow_pos (e : Z) : 0 < bpow e.
Proof. apply Qpower_0_lt. reflexivity. Qed.

Lemma bpow_add (a b : Z) : bpow (a + b) == bpow a * bpow b.
Proof. apply Qpower_plus. discriminate. Qed.

Lemma bpow_succ (e : Z) : bpow (e + 1) == 2 * bpow e.
Proof. rewrite bpow_add. change (bpow 1) with 2. ring. Qed.

Lemma bpow_le (a b : Z) : (a <= b)%Z -> bpow a <= bpow b.
Proof. intros H. apply Qpower_le_compat_l; auto. discriminate. Qed.

Lemma bpow_lt (a b : Z) : (a < b)%Z -> bpow a < bpow b.
Proof. intros H. apply Qpower_lt_compat_l; auto. reflexivity. Qed.

Lemma bpow_Z (e : Z) : (0 <= e)%Z -> bpow e == inject_Z (2 ^ e).
Proof. intros H. unfold bpow. rewrite Zpower_Qpower by auto. reflexivity. Qed.

Lemma div_bpow (v : Q) (a b : Z) : v / bpow (a + b) == v / bpow a / bpow b.
Proof.
  rewrite bpow_add. pose proof (bpow_pos a). pose proof (bpow_pos b).
  field. split; lra.
Qed.

Lemma div_bpow_le (v : Q) (F k : Z) : bpow (F + k) <= v -> bpow k <= v / bpow F.
Proof.
  intros H. pose proof (bpow_pos F). rewrite bpow_add in H.
  apply Qle_shift_div_l; auto. lra.
Qed.

Lemma div_bpow_lt (v : Q) (F k : Z) : v < bpow (F + k) -> v / bpow F < bpow k.
Proof.
  intros H. pose proof (bpow_pos F). rewrite bpow_add in H.
  apply Qlt_shift_div_r; auto. lra.
Qed.

Lemma inject_pos_bounds (p : positive) :
  bpow (Z.pos (digits2_pos p) - 1) <= inject_Z (Z.pos p) /\
  inject_Z (Z.pos p) < bpow (Z.pos (digits2_pos p)).
Proof.
  pose proof (digits2_bounds p) as [Hl Hu].
  rewrite !bpow_Z by lia. rewrite <- Zle_Qle, <- Zlt_Qlt. auto.
Qed.

Lemma inject_xO (p : positive) : inject_Z (Z.pos p~0) == 2 * inject_Z (Z.pos p).
Proof. rewrite Pos2Z.inj_xO, inject_Z_mult. reflexivity. Qed.

Lemma inject_xI (p : positive) : inject_Z (Z.pos p~1) == 2 * inject_Z (Z.pos p) + 1.
Proof. rewrite Pos2Z.inj_xI, inject_Z_plus, inject_Z_mult. reflexivity. Qed.

Lemma loc_of_record (M : Z) (l : location) :
  shr_m (shr_record_of_loc M l) = M /\
  loc_of_shr_record (shr_record_of_loc M l) = l.
Proof. destruct l as [| []]; split; reflexivity. Qed.

(** One shift to the right keeps the position of the value, on the
    grid twice as coarse. *)
Lemma shr_1_ok (x : Q) (mrs : shr_record) :
  (0 <= shr_m mrs)%Z ->
  loc_ok x (shr_m mrs) (loc_of_shr_record mrs) ->
  loc_ok (x / 2) (shr_m (shr_1 mrs)) (loc_of_shr_record (shr_1 mrs)) /\
  (0 <= shr_m (shr_1 mrs))%Z.
Proof.
  destruct mrs as [m r s]. cbn [shr_m]. intros Hm H.
  destruct m as [| p | p]; [| | lia].
  - destruct r, s; cbn [loc_ok loc_of_shr_record shr_1 shr_m orb] in *;
      change (inject_Z 0) with 0 in *; q_arith.
  - destruct p as [p | p |].
    + pose proof (inject_xI p) as E.
      destruct r, s; cbn [loc_ok loc_of_shr_record shr_1 shr_m orb] in *; q_arith.
    + pose proof (inject_xO p) as E.
      destruct r, s; cbn [loc_ok loc_of_shr_record shr_1 shr_m orb] in *; q_arith.
    + destruct r, s; cbn [loc_ok loc_of_shr_record shr_1 shr_m orb] in *;
        change (inject_Z 0) with 0 in *; change (inject_Z 1) with 1 in *; q_arith.
Qed.

Lemma shr_iter_ok (p : positive) (x : Q) (mrs : shr_record) :
  (0 <= shr_m mrs)%Z ->
  loc_ok x (shr_m mrs) (loc_of_shr_record mrs) ->
  loc_ok (x / bpow (Z.pos p)) (shr_m (SpecFloat.iter_pos shr_1 p mrs))
         (loc_of_shr_record (SpecFloat.iter_pos shr_1 p mrs)) /\
  (0 <= shr_m (SpecFloat.iter_pos shr_1 p mrs))%Z.
Proof.
  intros Hm H. rewrite iter_pos_iter.
  induction p as [| p IH] using Pos.peano_ind.
  - cbn [Pos.iter]. change (bpow 1) with 2. now apply shr_1_ok.
  - rewrite Pos.iter_succ. destruct IH as [IH1 IH2].
    destruct (shr_1_ok _ _ IH2 IH1) as [H1 H2]. split; auto.
    assert (E : x / bpow (Z.pos (Pos.succ p)) == x / bpow (Z.pos p) / 2).
    { rewrite Pos2Z.inj_succ. unfold Z.succ. rewrite div_bpow. reflexivity. }
    destruct (loc_of_shr_record (shr_1 (Pos.iter shr_1 mrs p))) as [| []];
      cbn [loc_ok] in *; rewrite E; exact H1.
Qed.

Lemma rne_nearest (x : Q) (M : Z) (l : location) :
  loc_ok x M l -> nearest x (round_nearest_even M l) /\ (M <= round_nearest_even M l)%Z.
Proof.
  unfold nearest. destruct l as [| []]; cbn [loc_ok round_nearest_even]; intros H.
  - split; [split; [q_arith |] | lia]. intros [E | E]; lra.
  - destruct (Z.even M) eqn:Ev.
    + split; [split; [q_arith | auto] | lia].
    + rewrite inject_Z_plus. change (inject_Z 1) with 1.
      split; [split; [q_arith |] | lia].
      intros _. rewrite Z.even_add, Ev. reflexivity.
  - split; [split; [q_arith |] | lia]. intros [E | E]; destruct H; lra.
  - rewrite inject_Z_plus. change (inject_Z 1) with 1.
    split; [split; [q_arith |] | lia]. intros [E | E]; destruct H; lra.
Qed.

Lemma mul_bpow_le (v : Q) (E k : Z) : bpow k <= v / bpow E -> bpow (k + E) <= v.
Proof.
  intros H. pose proof (bpow_pos E). rewrite bpow_add.
  apply (Qmult_le_r _ _ (bpow E)) in H; auto.
  assert (v / bpow E * bpow E == v) as E1 by (field; lra). lra.
Qed.

Lemma mul_bpow_lt (v : Q) (E k : Z) : v / bpow E < bpow k -> v < bpow (k + E).
Proof.
  intros H. pose proof (bpow_pos E). rewrite bpow_add.
  apply (Qmult_lt_r _ _ (bpow E)) in H; auto.
  assert (v / bpow E * bpow E == v) as E1 by (field; lra). lra.
Qed.

Lemma loc_bounds (x : Q) (M : Z) (l : location) :
  loc_ok x M l -> inject_Z M <= x /\ x < inject_Z M + 1.
Proof. destruct l as [| []]; cbn [loc_ok]; intros H; q_arith. Qed.

Lemma loc_ok_ext (x y : Q) (M : Z) (l : location) :
  x == y -> loc_ok x M l -> loc_ok y M l.
Proof. intros E. destruct l as [| []]; cbn [loc_ok]; rewrite E; auto. Qed.

Lemma grid_of_loc (v : Q) (M E : Z) (l : location) :
  (0 <= M)%Z -> loc_ok (v / bpow E) M l ->
  (E <= fexp prec emax (Zdigits2 M + E))%Z ->
  grid v (fexp prec emax (Zdigits2 M + E)).
Proof.
  intros HM Hl HE. apply loc_bounds in Hl as [Hlo Hhi].
  rewrite fexp_eq in *. unfold grid.
  destruct M as [| p | p]; [| | lia].
  - cbn [Zdigits2] in *. left. split; [lia |].
    change (inject_Z 0) with 0 in Hhi.
    assert (v / bpow E < bpow 0) as H1 by (change (bpow 0) with 1; lra).
    apply mul_bpow_lt in H1.
    assert (bpow (0 + E) < bpow (-1021)) by (apply bpow_lt; lia). lra.
  - cbn [Zdigits2] in *. set (d := Z.pos (digits2_pos p)) in *.
    pose proof (inject_pos_bounds p) as [B1 B2]. fold d in B1, B2.
    assert (Hup : inject_Z (Z.pos p) + 1 <= bpow d).
    { pose proof (digits2_bounds p) as [_ Hu]. fold d in Hu.
      rewrite bpow_Z by (unfold d; lia).
      change 1 with (inject_Z 1). rewrite <- inject_Z_plus, <- Zle_Qle. lia. }
    assert (H1 : bpow (d - 1 + E) <= v) by (apply mul_bpow_le; lra).
    assert (H2 : v < bpow (d + E)) by (apply mul_bpow_lt; lra).
    destruct (Z.le_gt_cases (d + E - 53) (-1074)) as [C | C].
    + left. split; [lia |].
      assert (bpow (d + E) <= bpow (-1021)) by (apply bpow_le; lia). lra.
    + right. rewrite Z.max_l by lia. split; [lia |].
      replace (d + E - 53 + 52)%Z with (d - 1 + E)%Z by lia.
      replace (d + E - 53 + 53)%Z with (d + E)%Z by lia. auto.
Qed.

Lemma grid_range (v : Q) (F N : Z) :
  grid v F -> nearest (v / bpow F) N ->
  (-1074 <= F)%Z /\ (N <= 2 ^ 53)%Z /\ (F = -1074 \/ 2 ^ 52 <= N)%Z.
Proof.
  intros Hg [[Hn1 Hn2] _].
  assert (Hx : v / bpow F < bpow 53).
  { apply div_bpow_lt. destruct Hg as [[-> H] | [_ [_ H]]]; auto. }
  rewrite (bpow_Z 53) in Hx by lia.
  assert (HN : (N <= 2 ^ 53)%Z).
  { assert (inject_Z N < inject_Z (2 ^ 53) + inject_Z 1)
      by (change (inject_Z 1) with 1; lra).
    rewrite <- inject_Z_plus, <- Zlt_Qlt in H. lia. }
  destruct Hg as [[-> H] | [HF [H _]]].
  - repeat split; auto; lia.
  - repeat split; auto; try lia. right.
    apply div_bpow_le in H. rewrite (bpow_Z 52) in H by lia.
    assert (inject_Z (2 ^ 52) < inject_Z N + inject_Z 1)
      by (change (inject_Z 1) with 1; lra).
    rewrite <- inject_Z_plus, <- Zlt_Qlt in H0. lia.
Qed.

Lemma digits2_le (p : positive) (k : Z) :
  (Z.pos p < 2 ^ k)%Z -> (Z.pos (digits2_pos p) <= k)%Z.
Proof.
  intros H. pose proof (digits2_bounds p) as [Hl _].
  destruct (Z.leb_spec (Z.pos (digits2_pos p)) k); auto.
  assert (2 ^ k <= 2 ^ (Z.pos (digits2_pos p) - 1))%Z
    by (apply Z.pow_le_mono_r; lia).
  lia.
Qed.

(** The second shift of [binary_round_aux], after rounding. *)
Lemma round_pack (s : bool) (N F : Z) :
  (-1074 <= F)%Z -> (0 <= N <= 2 ^ 53)%Z ->
  (let '(mrs, e) := shr_fexp prec emax N F loc_Exact in
   match shr_m mrs with
   | Z0 => S754_zero s
   | Z.pos m => if (e <=? emax - prec)%Z then S754_finite s m e else S754_infinity s
   | Z.neg _ => S754_nan
   end) = pack s N F.
Proof.
  intros HF HN. unfold shr_fexp. rewrite fexp_eq.
  destruct N as [| n | n]; [| | lia].
  - cbn [Zdigits2]. replace (Z.max (0 + F - 53) (-1074) - F)%Z with (- (F - Z.max (F - 53) (-1074)))%Z by lia.
    destruct (F - Z.max (F - 53) (-1074))%Z eqn:E; try lia; reflexivity.
  - cbn [Zdigits2]. unfold pack.
    destruct (Z.ltb_spec (Z.pos n) (2 ^ 53)) as [Hlt | Hge].
    + pose proof (digits2_le n 53 Hlt) as Hd.
      pose proof (Pos2Z.is_pos (digits2_pos n)).
      destruct (Z.max (Z.pos (digits2_pos n) + F - 53) (-1074) - F)%Z eqn:E; try lia; reflexivity.
    + assert (n = 9007199254740992%positive) as -> by lia.
      change (Z.pos (digits2_pos 9007199254740992)) with 54%Z.
      replace (Z.max (54 + F - 53) (-1074) - F)%Z with 1%Z by lia.
      reflexivity.
Qed.

(** [binary_round_aux] rounds to nearest, ties to even, on the grid of
    the value. *)
Theorem round_aux_spec (s : bool) (M E : Z) (l : location) (v : Q) :
  (0 <= M)%Z -> loc_ok (v / bpow E) M l ->
  (E <= fexp prec emax (Zdigits2 M + E))%Z ->
  exists N F,
    binary_round_aux prec emax s M E l = pack s N F /\
    grid v F /\ nearest (v / bpow F) N /\ (0 <= N)%Z.
Proof.
  intros HM Hl HE.
  pose proof (grid_of_loc v M E l HM Hl HE) as Hg.
  set (F := fexp prec emax (Zdigits2 M + E)) in *.
  assert (H1 : exists mrs, shr_fexp prec emax M E l = (mrs, F) /\
             loc_ok (v / bpow F) (shr_m mrs) (loc_of_shr_record mrs) /\
             (0 <= shr_m mrs)%Z).
  { unfold shr_fexp. fold F. unfold shr.
    destruct (loc_of_record M l) as [Em El].
    destruct (F - E)%Z as [| p | p] eqn:Ep; [| | lia].
    - exists (shr_record_of_loc M l). rewrite Em, El.
      replace F with E by lia. auto.
    - exists (SpecFloat.iter_pos shr_1 p (shr_record_of_loc M l)).
      destruct (shr_iter_ok p (v / bpow E) (shr_record_of_loc M l)) as [A B].
      + now rewrite Em.
      + now rewrite Em, El.
      + split; [f_equal; lia |]. split; auto.
        eapply loc_ok_ext; [| exact A].
        replace F with (E + Z.pos p)%Z by lia. now rewrite div_bpow. }
  destruct H1 as (mrs & E1 & Hloc & Hpos).
  destruct (rne_nearest _ _ _ Hloc) as [Hn HMN].
  set (N := round_nearest_even (shr_m mrs) (loc_of_shr_record mrs)) in *.
  destruct (grid_range v F N Hg Hn) as (HF & HN & _).
  exists N, F. repeat split; auto; try lia.
  - unfold binary_round_aux. rewrite E1. fold N.
    apply round_pack; lia.
  - apply Hn.
  - apply Hn.
  - apply Hn.
Qed.

(** Rounding is monotone. *)
Lemma round_mono (v1 v2 : Q) (N1 F1 N2 F2 : Z) :
  v1 <= v2 ->
  grid v1 F1 -> nearest (v1 / bpow F1) N1 ->
  grid v2 F2 -> nearest (v2 / bpow F2) N2 ->
  inject_Z N1 * bpow F1 <= inject_Z N2 * bpow F2.
Proof.
  intros Hv Hg1 Hn1 Hg2 Hn2.
  destruct (grid_range _ _ _ Hg1 Hn1) as (HF1 & HN1 & HC1).
  destruct (grid_range _ _ _ Hg2 Hn2) as (HF2 & HN2 & HC2).
  pose proof (bpow_pos F1) as P1. pose proof (bpow_pos F2) as P2.
  assert (Hu1 : v1 < bpow (F1 + 53)) by (destruct Hg1 as [[-> H] | [_ [_ H]]]; auto).
  assert (Hu2 : v2 < bpow (F2 + 53)) by (destruct Hg2 as [[-> H] | [_ [_ H]]]; auto).
  assert (HF : (F1 <= F2)%Z).
  { destruct (Z.le_gt_cases F1 F2) as [C | C]; auto. exfalso.
    destruct Hg1 as [[-> _] | [_ [Hl _]]]; [lia |].
    assert (bpow (F2 + 53) <= bpow (F1 + 52)) by (apply bpow_le; lia). lra. }
  destruct (Z.eq_dec F1 F2) as [<- | Hne].
  - apply Qmult_le_compat_r; [| lra]. rewrite <- Zle_Qle.
    destruct (Z.le_gt_cases N1 N2) as [C | C]; auto. exfalso.
    assert (Hx : v1 / bpow F1 <= v2 / bpow F1).
    { apply Qmult_le_compat_r; auto. apply Qlt_le_weak, Qinv_lt_0_compat, P1. }
    assert (Hi : inject_Z N2 + 1 <= inject_Z N1).
    { change 1 with (inject_Z 1). rewrite <- inject_Z_plus, <- Zle_Qle. lia. }
    destruct Hn1 as [[A1 B1] T1], Hn2 as [[A2 B2] T2].
    assert (E1 : Z.even N1 = true) by (apply T1; left; lra).
    assert (E2 : Z.even N2 = true) by (apply T2; right; lra).
    assert (N1 = N2 + 1)%Z.
    { assert (inject_Z N1 <= inject_Z N2 + inject_Z 1)
        by (change (inject_Z 1) with 1; lra).
      rewrite <- inject_Z_plus, <- Zle_Qle in H. lia. }
    subst N1. rewrite Z.even_add, E2 in E1. discriminate.
  - assert (HN2' : (2 ^ 52 <= N2)%Z) by lia.
    assert (A : inject_Z N1 * bpow F1 <= bpow (F1 + 53)).
    { rewrite bpow_add, (bpow_Z 53) by lia.
      rewrite (Qmult_comm (bpow F1)). apply Qmult_le_compat_r; [| lra].
      now rewrite <- Zle_Qle. }
    assert (B : bpow (F2 + 52) <= inject_Z N2 * bpow F2).
    { rewrite bpow_add, (bpow_Z 52) by lia.
      rewrite (Qmult_comm (bpow F2)). apply Qmult_le_compat_r; [| lra].
      now rewrite <- Zle_Qle. }
    assert (bpow (F1 + 53) <= bpow (F2 + 52)) by (apply bpow_le; lia). lra.
Qed.

(** Canonical mantissas and exponents. *)
Lemma bounded_digits (m : positive) (e : Z) :
  bounded prec emax m e = true ->
  (-1074 <= e <= 971)%Z /\ (Z.pos (digits2_pos m) <= 53)%Z /\
  (e = -1074 \/ Z.pos (digits2_pos m) = 53)%Z.
Proof.
  intros Hb. destruct (bounded_canonical _ _ Hb) as [Hc He].
  rewrite fexp_eq in Hc. unfold emax, prec in He. lia.
Qed.

Lemma bounded_lt_exp (m1 m2 : positive) (e1 e2 : Z) :
  bounded prec emax m1 e1 = true -> bounded prec emax m2 e2 = true ->
  (e1 < e2)%Z ->
  inject_Z (Z.pos m1) * bpow e1 < inject_Z (Z.pos m2) * bpow e2.
Proof.
  intros H1 H2 He.
  destruct (bounded_digits _ _ H1) as (R1 & D1 & _).
  destruct (bounded_digits _ _ H2) as (R2 & _ & C2).
  pose proof (inject_pos_bounds m1) as [_ U1].
  pose proof (inject_pos_bounds m2) as [L2 _].
  assert (Z.pos (digits2_pos m2) = 53)%Z as E2 by lia. rewrite E2 in L2.
  pose proof (bpow_pos e1). pose proof (bpow_pos e2).
  assert (bpow (Z.pos (digits2_pos m1)) <= bpow 53) by (apply bpow_le; lia).
  assert (A : inject_Z (Z.pos m1) * bpow e1 < bpow 53 * bpow e1)
    by (apply Qmult_lt_compat_r; lra).
  assert (B : bpow (53 - 1) * bpow e2 <= inject_Z (Z.pos m2) * bpow e2)
    by (apply Qmult_le_compat_r; lra).
  rewrite <- bpow_add in A, B.
  assert (bpow (53 + e1) <= bpow (53 - 1 + e2)) by (apply bpow_le; lia). lra.
Qed.

(** On positive doubles, [<=] is the order of the values. *)
Lemma le_pos_val (m1 m2 : positive) (e1 e2 : Z) :
  bounded prec emax m1 e1 = true -> bounded prec emax m2 e2 = true ->
  (le (S754_finite false m1 e1) (S754_finite false m2 e2) = true <->
   inject_Z (Z.pos m1) * bpow e1 <= inject_Z (Z.pos m2) * bpow e2).
Proof.
  intros H1 H2. unfold le, SFleb, SFcompare.
  destruct (Z.compare_spec e1 e2) as [E | E | E].
  - subst e2. pose proof (bpow_pos e1) as P.
    change (Pos.compare_cont Eq m1 m2) with (Pos.compare m1 m2).
    destruct (Pos.compare_spec m1 m2) as [C | C | C].
    + subst. split; auto. intros _. lra.
    + split; auto. intros _. apply Qmult_le_compat_r; [| lra].
      rewrite <- Zle_Qle. lia.
    + split; [discriminate |]. intros H. exfalso.
      assert (inject_Z (Z.pos m2) * bpow e1 < inject_Z (Z.pos m1) * bpow e1).
      { apply Qmult_lt_compat_r; auto. rewrite <- Zlt_Qlt. lia. }
      lra.
  - split; auto. intros _. apply Qlt_le_weak. now apply bounded_lt_exp.
  - split; [discriminate |]. intros H. exfalso.
    pose proof (bounded_lt_exp _ _ _ _ H2 H1 E). lra.
Qed.

Lemma bounded_below_max (m : positive) (e : Z) :
  bounded prec emax m e = true -> inject_Z (Z.pos m) * bpow e < bpow 1024.
Proof.
  intros Hb. destruct (bounded_digits _ _ Hb) as (R & D & _).
  pose proof (inject_pos_bounds m) as [_ U]. pose proof (bpow_pos e).
  assert (A : inject_Z (Z.pos m) * bpow e < bpow (Z.pos (digits2_pos m)) * bpow e)
    by (apply Qmult_lt_compat_r; lra).
  rewrite <- bpow_add in A.
  assert (bpow (Z.pos (digits2_pos m) + e) <= bpow 1024) by (apply bpow_le; lia).
  lra.
Qed.

(** What a rounded value is packed into: a zero, a double of the same
    value, or an infinity when the value is [2^1024] or more. *)
Lemma pack_cases (s : bool) (N F : Z) :
  (-1074 <= F)%Z -> (0 <= N <= 2 ^ 53)%Z -> (F = -1074 \/ 2 ^ 52 <= N)%Z ->
  (N = 0%Z /\ pack s N F = S754_zero s) \/
  (exists m e, pack s N F = S754_finite s m e /\ bounded prec emax m e = true /\
               inject_Z (Z.pos m) * bpow e == inject_Z N * bpow F) \/
  (pack s N F = S754_infinity s /\ bpow 1024 <= inject_Z N * bpow F).
Proof.
  intros HF HN HC. destruct N as [| n | n]; [left; auto | right | lia].
  pose proof (bpow_pos F) as P. unfold pack.
  destruct (Z.ltb_spec (Z.pos n) (2 ^ 53)) as [Hlt | Hge].
  - destruct (Z.leb_spec F 971) as [HF' | HF'].
    + left. exists n, F. repeat split; try reflexivity.
      unfold bounded, canonical_mantissa. rewrite fexp_eq.
      pose proof (digits2_le n 53 Hlt) as Hd.
      apply andb_true_intro. split; [apply Z.eqb_eq | apply Z.leb_le; unfold emax, prec; lia].
      destruct HC as [-> | HC]; [lia |].
      rewrite (digits2_unique n 53) by lia. lia.
    + right. split; [reflexivity |].
      assert (A : bpow 52 * bpow F <= inject_Z (Z.pos n) * bpow F).
      { apply Qmult_le_compat_r; [| lra]. rewrite (bpow_Z 52) by lia.
        rewrite <- Zle_Qle. lia. }
      rewrite <- bpow_add in A.
      assert (bpow 1024 <= bpow (52 + F)) by (apply bpow_le; lia). lra.
  - assert (n = 9007199254740992%positive) as -> by lia.
    assert (V : inject_Z 9007199254740992 * bpow F == bpow (53 + F)).
    { rewrite bpow_add, (bpow_Z 53) by lia. reflexivity. }
    destruct (Z.leb_spec (F + 1) 971) as [HF' | HF'].
    + left. exists 4503599627370496%positive, (F + 1)%Z. repeat split.
      * unfold bounded, canonical_mantissa. rewrite fexp_eq.
        change (Z.pos (digits2_pos 4503599627370496)) with 53%Z.
        apply andb_true_intro. split; [apply Z.eqb_eq | apply Z.leb_le; unfold emax, prec]; lia.
      * rewrite V. change (inject_Z 4503599627370496) with (inject_Z (2 ^ 52)).
        rewrite <- (bpow_Z 52), <- bpow_add by lia.
        replace (52 + (F + 1))%Z with (53 + F)%Z by lia. reflexivity.
    + right. split; [reflexivity |]. rewrite V. apply bpow_le. lia.
Qed.

Lemma rounds_cases (v : Q) (r : number) :
  rounds v r ->
  exists N F, grid v F /\ nearest (v / bpow F) N /\
    ((N = 0%Z /\ r = S754_zero false) \/
     (exists m e, r = S754_finite false m e /\ bounded prec emax m e = true /\
                  inject_Z (Z.pos m) * bpow e == inject_Z N * bpow F) \/
     (r = S754_infinity false /\ bpow 1024 <= inject_Z N * bpow F)).
Proof.
  intros (N & F & -> & Hg & Hn & HN). exists N, F. repeat split; try apply Hn; auto.
  destruct (grid_range _ _ _ Hg Hn) as (HF & HN' & HC).
  apply pack_cases; auto.
Qed.

Lemma rounds_mono (v1 v2 : Q) (r1 r2 : number) :
  rounds v1 r1 -> rounds v2 r2 -> v1 <= v2 -> le r1 r2 = true.
Proof.
  intros H1 H2 Hv.
  assert (HN1 : exists N F, r1 = pack false N F /\ (0 <= N)%Z)
    by (destruct H1 as (N & F & ? & _ & _ & ?); eauto).
  destruct (rounds_cases _ _ H1) as (N1 & F1 & Hg1 & Hn1 & C1).
  destruct (rounds_cases _ _ H2) as (N2 & F2 & Hg2 & Hn2 & C2).
  pose proof (round_mono _ _ _ _ _ _ Hv Hg1 Hn1 Hg2 Hn2) as Hm.
  destruct C2 as [[-> ->] | [(m2 & e2 & -> & B2 & V2) | [-> V2]]].
  - change (inject_Z 0) with 0 in Hm.
    destruct C1 as [[_ ->] | [(m1 & e1 & -> & B1 & V1) | [-> V1]]]; auto; exfalso.
    + pose proof (bpow_pos e1).
      assert (0 < inject_Z (Z.pos m1) * bpow e1)
        by (apply Qmult_lt_0_compat; auto; reflexivity).
      lra.
    + pose proof (bpow_pos 1024). lra.
  - destruct C1 as [[_ ->] | [(m1 & e1 & -> & B1 & V1) | [-> V1]]]; auto.
    + apply le_pos_val; auto. lra.
    + exfalso. pose proof (bounded_below_max _ _ B2). lra.
  - destruct C1 as [[_ ->] | [(m1 & e1 & -> & B1 & V1) | [-> V1]]]; auto.
Qed.

Lemma rounds_exact (m : positive) (e : Z) :
  bounded prec emax m e = true ->
  rounds (inject_Z (Z.pos m) * bpow e) (S754_finite false m e).
Proof.
  intros Hb. destruct (bounded_digits _ _ Hb) as (R & D & C).
  pose proof (inject_pos_bounds m) as [L U]. pose proof (bpow_pos e) as P.
  assert (Hlt : (Z.pos m < 2 ^ 53)%Z).
  { pose proof (digits2_bounds m) as [_ Hu].
    assert (2 ^ Z.pos (digits2_pos m) <= 2 ^ 53)%Z by (apply Z.pow_le_mono_r; lia). lia. }
  assert (X : inject_Z (Z.pos m) * bpow e / bpow e == inject_Z (Z.pos m))
    by (field; lra).
  exists (Z.pos m), e. repeat split; try lia.
  - unfold pack. apply Z.ltb_lt in Hlt. rewrite Hlt.
    replace (e <=? 971)%Z with true by (symmetry; apply Z.leb_le; lia). reflexivity.
  - unfold grid.
    assert (A : inject_Z (Z.pos m) * bpow e < bpow (Z.pos (digits2_pos m)) * bpow e)
      by (apply Qmult_lt_compat_r; lra).
    assert (B : bpow (Z.pos (digits2_pos m) - 1) * bpow e <= inject_Z (Z.pos m) * bpow e)
      by (apply Qmult_le_compat_r; lra).
    rewrite <- bpow_add in A, B.
    destruct (Z.eq_dec e (-1074)) as [-> | Hne].
    + left. split; auto.
      assert (bpow (Z.pos (digits2_pos m) + -1074) <= bpow (-1021)) by (apply bpow_le; lia).
      lra.
    + right. split; [lia |].
      replace (e + 52)%Z with (Z.pos (digits2_pos m) - 1 + e)%Z by lia.
      replace (e + 53)%Z with (Z.pos (digits2_pos m) + e)%Z by lia. split; lra.
  - rewrite X. lra.
  - rewrite X. lra.
  - rewrite X. intros [H | H]; lra.
Qed.

End Rounding.

Section Operations.
Local Open Scope Q_scope.

(** ** The operations round their exact result *)

Lemma binary_round_rounds (z : positive) (e : Z) :
  rounds (inject_Z (Z.pos z) * bpow e) (binary_round prec emax false z e).
Proof.
  unfold binary_round.
  set (t := fexp prec emax (Z.pos (digits2_pos z) + e)).
  assert (H : exists m' e', shl_align z e t = (m', e') /\
            inject_Z (Z.pos m') * bpow e' == inject_Z (Z.pos z) * bpow e /\
            (e' <= fexp prec emax (Zdigits2 (Z.pos m') + e'))%Z).
  { unfold shl_align. destruct (t - e)%Z as [| p | p] eqn:Ep.
    - exists z, e. repeat split; try reflexivity. cbn [Zdigits2]. fold t. lia.
    - exists z, e. repeat split; try reflexivity. cbn [Zdigits2]. fold t. lia.
    - exists (Pos.iter xO z p), t. split; [reflexivity |].
      assert (Hv : Z.pos (Pos.iter xO z p) = (Z.pos z * 2 ^ Z.pos p)%Z)
        by apply iter_xO_val.
      split.
      + assert (Eb : bpow e == bpow (Z.pos p) * bpow t).
        { rewrite <- bpow_add. replace (Z.pos p + t)%Z with e by lia. reflexivity. }
        rewrite Hv, inject_Z_mult, <- (bpow_Z (Z.pos p)), Eb by lia. ring.
      + cbn [Zdigits2]. rewrite (digits2_shift z (Z.pos p)) by (auto; lia).
        replace (Z.pos (digits2_pos z) + Z.pos p + t)%Z
          with (Z.pos (digits2_pos z) + e)%Z by lia.
        fold t. lia. }
  destruct H as (m' & e' & -> & Hv & He).
  destruct (round_aux_spec false (Z.pos m') e' loc_Exact
              (inject_Z (Z.pos z) * bpow e)) as (N & F & Hr & Hg & Hn & HN);
    auto; try lia.
  - cbn [loc_ok]. rewrite <- Hv. pose proof (bpow_pos e'). field. lra.
  - exists N, F. auto.
Qed.

Lemma mul_rounds (mx my : positive) (ex ey : Z) :
  bounded prec emax mx ex = true -> bounded prec emax my ey = true ->
  rounds (inject_Z (Z.pos mx) * bpow ex * (inject_Z (Z.pos my) * bpow ey))
         (mul (S754_finite false mx ex) (S754_finite false my ey)).
Proof.
  intros Hx Hy. unfold mul, SFmul. cbn [xorb].
  destruct (bounded_digits _ _ Hx) as (Rx & Dx & Cx).
  destruct (bounded_digits _ _ Hy) as (Ry & Dy & Cy).
  pose proof (Zdigits2_pos_mul mx my) as Hd.
  pose proof (Pos2Z.is_pos (digits2_pos mx)). pose proof (Pos2Z.is_pos (digits2_pos my)).
  destruct (round_aux_spec false (Z.pos (mx * my)) (ex + ey) loc_Exact
              (inject_Z (Z.pos mx) * bpow ex * (inject_Z (Z.pos my) * bpow ey)))
    as (N & F & Hr & Hg & Hn & HN); try lia.
  - cbn [loc_ok]. rewrite Pos2Z.inj_mul, inject_Z_mult, bpow_add.
    pose proof (bpow_pos ex). pose proof (bpow_pos ey). field. split; lra.
  - cbn [Zdigits2]. rewrite fexp_eq. lia.
  - exists N, F. auto.
Qed.

Lemma new_location_eq (m r : Z) :
  new_location m r =
  if (r =? 0)%Z then loc_Exact
  else if Z.even m then loc_Inexact (2 * r ?= m)%Z
       else loc_Inexact (match (2 * r + 1 ?= m)%Z with Gt => Gt | _ => Lt end).
Proof.
  unfold new_location, new_location_even, new_location_odd.
  change (IntDef.Z.even m) with (Z.even m).
  destruct (Z.even m); cbv beta;
    change (IntDef.Z.eqb r 0) with (Z.eqb r 0); destruct (r =? 0)%Z; reflexivity.
Qed.

Lemma new_location_ok (q r m : Z) :
  (0 <= r < m)%Z ->
  loc_ok (inject_Z q + inject_Z r / inject_Z m) q (new_location m r).
Proof.
  intros Hr.
  assert (Hm : 0 < inject_Z m) by (change 0 with (inject_Z 0); rewrite <- Zlt_Qlt; lia).
  assert (Hr0 : 0 <= inject_Z r) by (change 0 with (inject_Z 0); rewrite <- Zle_Qle; lia).
  set (y := inject_Z r / inject_Z m).
  assert (Hy : inject_Z r == y * inject_Z m) by (unfold y; field; lra).
  assert (Hlt : forall c, (2 * r ?= m)%Z = c ->
            match c with
            | Lt => y < 1 # 2 | Eq => y == 1 # 2 | Gt => (1 # 2) < y end).
  { intros c <-.
    assert (E2 : inject_Z (2 * r) == 2 * y * inject_Z m)
      by (rewrite inject_Z_mult, Hy; change (inject_Z 2) with 2; ring).
    destruct (Z.compare_spec (2 * r) m) as [C | C | C].
    - rewrite C in E2.
      apply (Qmult_inj_r _ _ (inject_Z m)); lra.
    - rewrite Zlt_Qlt, E2 in C.
      apply (Qmult_lt_r _ _ (inject_Z m)); auto. lra.
    - rewrite Zlt_Qlt, E2 in C.
      apply (Qmult_lt_r _ _ (inject_Z m)); auto. lra. }
  assert (Hy1 : y < 1).
  { apply (Qmult_lt_r _ _ (inject_Z m)); auto. rewrite <- Hy, Qmult_1_l.
    rewrite <- Zlt_Qlt. lia. }
  assert (Hy0 : r <> 0%Z -> 0 < y).
  { intros Hne. unfold y. apply Qlt_shift_div_l; auto. rewrite Qmult_0_l.
    change 0 with (inject_Z 0). rewrite <- Zlt_Qlt. lia. }
  assert (Hy00 : r = 0%Z -> y == 0).
  { intros ->. unfold y. change (inject_Z 0) with 0. field. lra. }
  clearbody y.
  rewrite new_location_eq.
  destruct (Z.eqb_spec r 0) as [E0 | Hne].
  - specialize (Hy00 E0). cbn [loc_ok]. lra.
  - specialize (Hy0 Hne).
    destruct (Z.even m) eqn:Ev.
    + specialize (Hlt _ eq_refl).
      destruct (2 * r ?= m)%Z; cbn [loc_ok]; try split; lra.
    + assert (Hodd : (2 * r <> m)%Z).
      { intros <-. rewrite Z.even_mul in Ev. discriminate. }
      specialize (Hlt _ eq_refl).
      destruct (Z.compare_spec (2 * r + 1) m) as [C | C | C];
        destruct (Z.compare_spec (2 * r) m) as [C' | C' | C']; try lia;
        cbn [loc_ok]; try split; lra.
Qed.

Lemma div_core_eq (m1 m2 : positive) (e1 e2 : Z) :
  SFdiv_core_binary prec emax (Z.pos m1) e1 (Z.pos m2) e2 =
  let e' := Z.min (fexp prec emax (Z.pos (digits2_pos m1) + e1
                                   - (Z.pos (digits2_pos m2) + e2))) (e1 - e2) in
  let m' := (Z.pos m1 * 2 ^ (e1 - e2 - e'))%Z in
  ((m' / Z.pos m2)%Z, e', new_location (Z.pos m2) (m' mod Z.pos m2)%Z).
Proof.
  cbv zeta.
  set (e' := Z.min (fexp prec emax (Z.pos (digits2_pos m1) + e1
                                    - (Z.pos (digits2_pos m2) + e2))) (e1 - e2)).
  change (SFdiv_core_binary prec emax (Z.pos m1) e1 (Z.pos m2) e2)
    with (let '(q, r) :=
            Z.div_eucl (match (e1 - e2 - e')%Z with
                        | Z.pos _ => Z.shiftl (Z.pos m1) (e1 - e2 - e')
                        | Z0 => Z.pos m1
                        | Z.neg _ => 0%Z
                        end) (Z.pos m2) in
          (q, e', new_location (Z.pos m2) r)).
  assert (Hs : (0 <= e1 - e2 - e')%Z) by (unfold e'; lia).
  assert (Hm : match (e1 - e2 - e')%Z with
               | Z.pos _ => Z.shiftl (Z.pos m1) (e1 - e2 - e')
               | Z0 => Z.pos m1
               | Z.neg _ => 0%Z
               end = (Z.pos m1 * 2 ^ (e1 - e2 - e'))%Z).
  { destruct (e1 - e2 - e')%Z as [| p | p] eqn:Es; try lia.
    rewrite Z.shiftl_mul_pow2 by lia. reflexivity. }
  rewrite Hm. unfold Z.div, Z.modulo.
  destruct (Z.div_eucl (Z.pos m1 * 2 ^ (e1 - e2 - e')) (Z.pos m2)). reflexivity.
Qed.

Lemma Zdigits2_div (m1 m2 : positive) (s : Z) :
  (0 <= s)%Z ->
  (Z.pos (digits2_pos m1) + s - Z.pos (digits2_pos m2)
   <= Zdigits2 (Z.pos m1 * 2 ^ s / Z.pos m2))%Z.
Proof.
  intros Hs.
  set (k := (Z.pos (digits2_pos m1) + s - Z.pos (digits2_pos m2))%Z).
  assert (Hq0 : (0 <= Z.pos m1 * 2 ^ s / Z.pos m2)%Z).
  { apply Z.div_pos; [| lia]. apply Z.mul_nonneg_nonneg; [lia |].
    apply Z.pow_nonneg. lia. }
  destruct (Z.le_gt_cases k 0) as [Hk | Hk].
  - destruct (Z.pos m1 * 2 ^ s / Z.pos m2)%Z as [| q | q]; cbn [Zdigits2]; lia.
  - pose proof (digits2_bounds m1) as [L1 _].
    pose proof (digits2_bounds m2) as [_ U2].
    assert (Hlow : (2 ^ (k - 1) <= Z.pos m1 * 2 ^ s / Z.pos m2)%Z).
    { apply Z.div_le_lower_bound; [lia |].
      assert (E : (2 ^ (Z.pos (digits2_pos m1) - 1) * 2 ^ s
                   = 2 ^ (k - 1) * 2 ^ Z.pos (digits2_pos m2))%Z).
      { rewrite <- !Z.pow_add_r by lia. f_equal. unfold k. lia. }
      assert (0 < 2 ^ s)%Z by (apply Z.pow_pos_nonneg; lia).
      assert (0 < 2 ^ (k - 1))%Z by (apply Z.pow_pos_nonneg; lia).
      nia. }
    assert (0 < 2 ^ (k - 1))%Z by (apply Z.pow_pos_nonneg; lia).
    destruct (Z.pos m1 * 2 ^ s / Z.pos m2)%Z as [| q | q]; try lia.
    cbn [Zdigits2]. pose proof (digits2_bounds q) as [_ Uq].
    destruct (Z.le_gt_cases k (Z.pos (digits2_pos q))) as [C | C]; auto.
    assert (2 ^ Z.pos (digits2_pos q) <= 2 ^ (k - 1))%Z by (apply Z.pow_le_mono_r; lia).
    lia.
Qed.

Lemma div_rounds (mx my : positive) (ex ey : Z) :
  bounded prec emax mx ex = true -> bounded prec emax my ey = true ->
  rounds (inject_Z (Z.pos mx) * bpow ex / (inject_Z (Z.pos my) * bpow ey))
         (div (S754_finite false mx ex) (S754_finite false my ey)).
Proof.
  intros Hx Hy. unfold div, SFdiv. rewrite div_core_eq. cbv zeta. cbn [xorb].
  set (e' := Z.min (fexp prec emax (Z.pos (digits2_pos mx) + ex
                                    - (Z.pos (digits2_pos my) + ey))) (ex - ey)).
  set (s := (ex - ey - e')%Z).
  assert (Hs : (0 <= s)%Z) by (unfold s, e'; lia).
  set (m' := (Z.pos mx * 2 ^ s)%Z).
  pose proof (Z.div_mod m' (Z.pos my)) as Hdm.
  pose proof (Z.mod_pos_bound m' (Z.pos my)) as Hr.
  assert (Hq0 : (0 <= m' / Z.pos my)%Z).
  { apply Z.div_pos; [| lia]. apply Z.mul_nonneg_nonneg; [lia |].
    apply Z.pow_nonneg. lia. }
  pose proof (bpow_pos ex) as Px. pose proof (bpow_pos ey) as Py.
  pose proof (bpow_pos e') as Pe. pose proof (bpow_pos s) as Ps.
  assert (Hmy : 0 < inject_Z (Z.pos my)) by reflexivity.
  destruct (round_aux_spec false (m' / Z.pos my) e'
              (new_location (Z.pos my) (m' mod Z.pos my))
              (inject_Z (Z.pos mx) * bpow ex / (inject_Z (Z.pos my) * bpow ey)))
    as (N & F & Hr' & Hg & Hn & HN); auto.
  - eapply loc_ok_ext; [| apply new_location_ok; lia].
    assert (Em : inject_Z m' == inject_Z (Z.pos my) * inject_Z (m' / Z.pos my)
                                + inject_Z (m' mod Z.pos my)).
    { rewrite <- inject_Z_mult, <- inject_Z_plus, <- Hdm by lia. reflexivity. }
    assert (Em' : inject_Z m' == inject_Z (Z.pos mx) * bpow s).
    { unfold m'. rewrite inject_Z_mult, (bpow_Z s) by lia. reflexivity. }
    assert (Eb : bpow ex == bpow s * bpow ey * bpow e').
    { rewrite <- !bpow_add. replace (s + ey + e')%Z with ex by (unfold s; lia).
      reflexivity. }
    rewrite Eb.
    transitivity (inject_Z m' / inject_Z (Z.pos my)).
    + rewrite Em. field. lra.
    + rewrite Em'. field. repeat split; lra.
  - pose proof (Zdigits2_div mx my s Hs) as Hd. fold m' in Hd.
    rewrite fexp_eq. unfold e' at 1. rewrite fexp_eq.
    unfold s in Hd. lia.
  - exists N, F. auto.
Qed.

End Operations.

Section NonNegative.
Local Open Scope Q_scope.

Lemma rounds_ext (v v' : Q) (r : number) : v == v' -> rounds v r -> rounds v' r.
Proof.
  intros E (N & F & Hr & Hg & Hn & HN). exists N, F. repeat split; auto.
  - unfold grid in *. rewrite <- E. exact Hg.
  - rewrite <- E. apply Hn.
  - rewrite <- E. apply Hn.
  - rewrite <- E. apply Hn.
Qed.

Lemma rounds_nonneg (v : Q) (r : number) : rounds v r -> nonneg r = true.
Proof.
  intros H. destruct (rounds_cases _ _ H) as (N & F & _ & _ & C).
  destruct C as [[_ ->] | [(m & e & -> & B & _) | [-> _]]]; auto.
Qed.

Lemma nonneg_cases (x : number) :
  nonneg x = true ->
  (exists s, x = S754_zero s) \/
  (exists m e, x = S754_finite false m e /\ bounded prec emax m e = true) \/
  x = S754_infinity false.
Proof.
  destruct x as [s | s | | s m e]; simpl; intros H; try discriminate.
  - left. eauto.
  - destruct s; try discriminate. auto.
  - destruct s; try discriminate. right. left. eauto.
Qed.

Lemma nonneg_of_le (x : number) :
  valid x = true -> le (of_Z 0) x = true -> nonneg x = true.
Proof.
  destruct x as [s | s | | s m e]; try destruct s; cbn; auto; discriminate.
Qed.

Lemma le_zero_l (s : bool) (y : number) : nonneg y = true -> le (S754_zero s) y = true.
Proof.
  intros H. destruct (nonneg_cases _ H) as [[s' ->] | [(m & e & -> & _) | ->]]; reflexivity.
Qed.

Lemma le_inf_r (x : number) : nonneg x = true -> le x (S754_infinity false) = true.
Proof.
  intros H. destruct (nonneg_cases _ H) as [[s' ->] | [(m & e & -> & _) | ->]]; reflexivity.
Qed.

Lemma val_pos (m : positive) (e : Z) : 0 < val (S754_finite false m e).
Proof.
  cbn [val signed]. apply Qmult_lt_0_compat; [reflexivity | apply bpow_pos].
Qed.

(** [<=] on non-negative finite numbers is the order of the values. *)
Lemma le_val (x y : number) :
  nonneg x = true -> nonneg y = true -> isFinite x = true -> isFinite y = true ->
  (le x y = true <-> val x <= val y).
Proof.
  intros Hx Hy Fx Fy.
  destruct (nonneg_cases _ Hx) as [[sx ->] | [(mx & ex & -> & Bx) | ->]];
    destruct (nonneg_cases _ Hy) as [[sy ->] | [(my & ey & -> & By) | ->]];
    try discriminate.
  - split; [intros _; cbn [val]; lra | reflexivity].
  - pose proof (val_pos my ey). split; [intros _; cbn [val] in *; lra | reflexivity].
  - pose proof (val_pos mx ex). split; [discriminate | cbn [val] in *; lra].
  - apply le_pos_val; auto.
Qed.

(** An operation that keeps zero and infinity and rounds a monotone
    function of the value is monotone. *)
Section Monotone.
Variable op : number -> number.
Variable phi : Q -> Q.
Hypothesis op_zero : forall s, exists s', op (S754_zero s) = S754_zero s'.
Hypothesis op_inf : op (S754_infinity false) = S754_infinity false.
Hypothesis op_rounds : forall m e, bounded prec emax m e = true ->
  rounds (phi (val (S754_finite false m e))) (op (S754_finite false m e)).
Hypothesis phi_mono : forall a b, a <= b -> phi a <= phi b.

Lemma op_nonneg (x : number) : nonneg x = true -> nonneg (op x) = true.
Proof.
  intros Hx. destruct (nonneg_cases _ Hx) as [[sx ->] | [(mx & ex & -> & Bx) | ->]].
  - destruct (op_zero sx) as [s' ->]. reflexivity.
  - eapply rounds_nonneg. now apply op_rounds.
  - now rewrite op_inf.
Qed.

Lemma op_mono (x y : number) :
  nonneg x = true -> nonneg y = true -> le x y = true -> le (op x) (op y) = true.
Proof.
  intros Hx Hy Hle.
  pose proof (op_nonneg _ Hx) as Nx. pose proof (op_nonneg _ Hy) as Ny.
  destruct (nonneg_cases _ Hx) as [[sx ->] | [(mx & ex & -> & Bx) | ->]].
  - destruct (op_zero sx) as [s' ->]. now apply le_zero_l.
  - destruct (nonneg_cases _ Hy) as [[sy ->] | [(my & ey & -> & By) | ->]].
    + discriminate.
    + eapply rounds_mono; try apply op_rounds; auto.
      apply phi_mono. apply le_val; auto.
    + rewrite op_inf. now apply le_inf_r.
  - destruct (nonneg_cases _ Hy) as [[sy ->] | [(my & ey & -> & By) | ->]];
      try discriminate.
    rewrite op_inf. reflexivity.
Qed.

End Monotone.

End NonNegative.

Section Chain.
Local Open Scope Q_scope.

(** ** Multiplying and dividing by 100 *)

Lemma mul_100_mono (x y : number) :
  nonneg x = true -> nonneg y = true -> le x y = true ->
  le (mul x (of_Z 100)) (mul y (of_Z 100)) = true /\
  nonneg (mul x (of_Z 100)) = true /\ nonneg (mul y (of_Z 100)) = true.
Proof.
  intros Hx Hy Hle.
  assert (Hz : forall s, exists s', mul (S754_zero s) (of_Z 100) = S754_zero s')
    by (intros s; eexists; reflexivity).
  assert (Hi : mul (S754_infinity false) (of_Z 100) = S754_infinity false)
    by reflexivity.
  assert (Hr : forall m e, bounded prec emax m e = true ->
            rounds ((fun v => v * 100) (val (S754_finite false m e)))
                   (mul (S754_finite false m e) (of_Z 100))).
  { intros m e Hb. change (of_Z 100) with (S754_finite false 7036874417766400 (-46)).
    eapply rounds_ext; [| apply mul_rounds; auto].
    cbn [val signed].
    assert (inject_Z 7036874417766400 * bpow (-46) == 100) as -> by reflexivity.
    reflexivity. }
  assert (Hp : forall a b : Q, a <= b -> (fun v => v * 100) a <= (fun v => v * 100) b)
    by (intros a b H; cbv beta; lra).
  repeat split.
  - exact (op_mono (fun x => mul x (of_Z 100)) _ Hz Hi Hr Hp x y Hx Hy Hle).
  - exact (op_nonneg (fun x => mul x (of_Z 100)) _ Hz Hi Hr x Hx).
  - exact (op_nonneg (fun x => mul x (of_Z 100)) _ Hz Hi Hr y Hy).
Qed.

Lemma div_100_mono (x y : number) :
  nonneg x = true -> nonneg y = true -> le x y = true ->
  le (div x (of_Z 100)) (div y (of_Z 100)) = true /\
  nonneg (div x (of_Z 100)) = true /\ nonneg (div y (of_Z 100)) = true.
Proof.
  intros Hx Hy Hle.
  assert (Hz : forall s, exists s', div (S754_zero s) (of_Z 100) = S754_zero s')
    by (intros s; eexists; reflexivity).
  assert (Hi : div (S754_infinity false) (of_Z 100) = S754_infinity false)
    by reflexivity.
  assert (Hr : forall m e, bounded prec emax m e = true ->
            rounds ((fun v => v * (1 # 100)) (val (S754_finite false m e)))
                   (div (S754_finite false m e) (of_Z 100))).
  { intros m e Hb. change (of_Z 100) with (S754_finite false 7036874417766400 (-46)).
    eapply rounds_ext; [| apply div_rounds; auto].
    cbn [val signed].
    assert (inject_Z 7036874417766400 * bpow (-46) == 100) as -> by reflexivity.
    field. }
  assert (Hp : forall a b : Q, a <= b ->
            (fun v => v * (1 # 100)) a <= (fun v => v * (1 # 100)) b)
    by (intros a b H; cbv beta; lra).
  repeat split.
  - exact (op_mono (fun x => div x (of_Z 100)) _ Hz Hi Hr Hp x y Hx Hy Hle).
  - exact (op_nonneg (fun x => div x (of_Z 100)) _ Hz Hi Hr x Hx).
  - exact (op_nonneg (fun x => div x (of_Z 100)) _ Hz Hi Hr y Hy).
Qed.

(** ** Math.round on non-negative numbers *)

Lemma Qfloor_unique (q : Q) (z : Z) :
  inject_Z z <= q -> q < inject_Z z + 1 -> Qfloor q = z.
Proof.
  intros H1 H2. pose proof (Qfloor_le q) as A. pose proof (Qlt_floor q) as B.
  rewrite inject_Z_plus in B. change (inject_Z 1) with 1 in B.
  assert (inject_Z (Qfloor q) < inject_Z z + inject_Z 1)
    by (change (inject_Z 1) with 1; lra).
  assert (inject_Z z < inject_Z (Qfloor q) + inject_Z 1)
    by (change (inject_Z 1) with 1; lra).
  rewrite <- inject_Z_plus, <- Zlt_Qlt in H, H0. lia.
Qed.

Lemma of_Z_val (n : Z) :
  (0 < n < 2 ^ 53)%Z ->
  exists m e, of_Z n = S754_finite false m e /\ bounded prec emax m e = true /\
              val (of_Z n) == inject_Z n.
Proof.
  intros Hn. destruct (dyadic_finite n 0) as (m & e & Hm & Hb & He & Hv); try lia.
  replace (n <? 0)%Z with false in * by (symmetry; apply Z.ltb_ge; lia).
  change (of_Z n) with (dyadic n 0). rewrite Hm. exists m, e. repeat split; auto.
  cbn [val]. rewrite Hv, inject_Z_mult, <- (bpow_Z (0 - e)), <- Qmult_assoc, <- bpow_add by lia.
  replace (0 - e + e)%Z with 0%Z by lia. change (bpow 0) with 1. ring.
Qed.

Lemma Math_round_val (x : number) :
  nonneg x = true -> isFinite x = true ->
  nonneg (Math_round x) = true /\ isFinite (Math_round x) = true /\
  val (Math_round x) == inject_Z (Qfloor (val x + (1 # 2))).
Proof.
  intros Hx Fx.
  destruct (nonneg_cases _ Hx) as [[sx ->] | [(m & e & -> & Hb) | ->]];
    try discriminate.
  - repeat split.
  - destruct (bounded_digits _ _ Hb) as (R & D & _).
    pose proof (digits2_bounds m) as [_ Um].
    assert (Hm53 : (Z.pos m < 2 ^ 53)%Z).
    { assert (2 ^ Z.pos (digits2_pos m) <= 2 ^ 53)%Z by (apply Z.pow_le_mono_r; lia). lia. }
    unfold Math_round. destruct (isInteger (S754_finite false m e)) eqn:Hi.
    + split; [exact Hx | split; [reflexivity |]].
      assert (Hz : exists z, val (S754_finite false m e) == inject_Z z).
      { unfold isInteger in Hi. apply orb_true_iff in Hi as [Hi | Hi].
        - apply Z.leb_le in Hi. exists (Z.pos m * 2 ^ e)%Z.
          cbn [val signed]. rewrite inject_Z_mult, (bpow_Z e) by auto. reflexivity.
        - apply Z.eqb_eq in Hi.
          destruct (Z.le_gt_cases 0 e) as [He | He].
          + exists (Z.pos m * 2 ^ e)%Z.
            cbn [val signed]. rewrite inject_Z_mult, (bpow_Z e) by auto. reflexivity.
          + exists (Z.pos m / 2 ^ (- e))%Z. cbn [val signed].
            assert (Hp : (0 < 2 ^ (- e))%Z) by (apply Z.pow_pos_nonneg; lia).
            pose proof (Z.div_mod (Z.pos m) (2 ^ (- e))) as Hdm.
            rewrite Hi, Z.add_0_r in Hdm. rewrite Hdm at 1 by lia.
            rewrite inject_Z_mult, <- (bpow_Z (- e)) by lia.
            assert (bpow (- e) * bpow e == 1) as Hone.
            { rewrite <- bpow_add. replace (- e + e)%Z with 0%Z by lia. reflexivity. }
            rewrite (Qmult_comm (bpow (- e))), <- Qmult_assoc, Hone. ring. }
      destruct Hz as [z Hz]. rewrite Hz.
      rewrite (Qfloor_unique (inject_Z z + (1 # 2)) z) by lra. reflexivity.
    + unfold isInteger in Hi. apply orb_false_iff in Hi as [He _].
      apply Z.leb_gt in He. cbn [signed].
      set (k := (- e)%Z). assert (Hk : (0 < k)%Z) by (unfold k; lia).
      replace (1 - e)%Z with (k + 1)%Z by (unfold k; lia).
      assert (Hp : (0 < 2 ^ k)%Z) by (apply Z.pow_pos_nonneg; lia).
      assert (Hp2 : (2 <= 2 ^ k)%Z).
      { change 2%Z with (2 ^ 1)%Z at 1. apply Z.pow_le_mono_r; lia. }
      assert (E2 : (2 ^ (k + 1) = 2 * 2 ^ k)%Z) by (rewrite Z.pow_add_r by lia; lia).
      set (n := ((2 * Z.pos m + 2 ^ k) / 2 ^ (k + 1))%Z).
      assert (Hn0 : (0 <= n)%Z).
      { apply Z.div_pos; lia. }
      assert (Hnm : (n <= Z.pos m)%Z).
      { pose proof (Z.mul_div_le (2 * Z.pos m + 2 ^ k) (2 ^ (k + 1))) as H1.
        fold n in H1. rewrite E2 in H1. nia. }
      assert (Hfl : Qfloor (val (S754_finite false m e) + (1 # 2)) = n).
      { unfold n. rewrite Zdiv_Qdiv. apply Qfloor_comp.
        cbn [val signed]. rewrite inject_Z_plus, inject_Z_mult, E2, inject_Z_mult.
        rewrite <- (bpow_Z k) by lia. change (inject_Z 2) with 2.
        assert (bpow e == / bpow k) as ->.
        { unfold k. unfold bpow. rewrite Qpower_opp, Qinv_involutive. reflexivity. }
        pose proof (bpow_pos k). field. lra. }
      rewrite Hfl.
      destruct (Z.eqb_spec n 0) as [E0 | Hne].
      * rewrite E0. repeat split.
      * destruct (of_Z_val n) as (mm & ee & Hm & Hbb & Hv); [lia |].
        rewrite Hv. rewrite Hm. repeat split. cbn. now rewrite Hbb.
Qed.

Lemma Math_round_mono (x y : number) :
  nonneg x = true -> nonneg y = true -> le x y = true ->
  le (Math_round x) (Math_round y) = true /\
  nonneg (Math_round x) = true /\ nonneg (Math_round y) = true.
Proof.
  intros Hx Hy Hle.
  assert (Hinf : Math_round (S754_infinity false) = S754_infinity false) by reflexivity.
  destruct (isFinite y) eqn:Fy.
  - assert (Fx : isFinite x = true).
    { destruct (nonneg_cases _ Hx) as [[sx ->] | [(m & e & -> & Hb) | ->]]; auto.
      destruct (nonneg_cases _ Hy) as [[sy ->] | [(m & e & -> & Hb) | ->]];
        discriminate. }
    destruct (Math_round_val x Hx Fx) as (Nx & Fx' & Vx).
    destruct (Math_round_val y Hy Fy) as (Ny & Fy' & Vy).
    repeat split; auto. apply le_val; auto.
    rewrite Vx, Vy, <- Zle_Qle. apply Qfloor_resp_le.
    apply le_val in Hle; auto. lra.
  - assert (y = S754_infinity false) as ->.
    { destruct (nonneg_cases _ Hy) as [[sy ->] | [(m & e & -> & Hb) | ->]];
        auto; discriminate. }
    rewrite Hinf.
    assert (Nx : nonneg (Math_round x) = true).
    { destruct (isFinite x) eqn:Fx.
      - apply Math_round_val; auto.
      - destruct (nonneg_cases _ Hx) as [[sx ->] | [(m & e & -> & Hb) | ->]];
          auto; discriminate. }
    repeat split; auto. now apply le_inf_r.
Qed.

End Chain.

Section Discount.
Local Open Scope Q_scope.

(** ** The discount factor *)

Lemma one_val : val (of_Z 1) == 1.
Proof. reflexivity. Qed.

Lemma nonneg_finite_le (x y : number) :
  nonneg x = true -> nonneg y = true -> le x y = true -> isFinite y = true ->
  isFinite x = true.
Proof.
  intros Hx Hy Hle Fy.
  destruct (nonneg_cases _ Hx) as [[sx ->] | [(m & e & -> & Hb) | ->]]; auto.
  destruct (nonneg_cases _ Hy) as [[sy ->] | [(m & e & -> & Hb) | ->]]; discriminate.
Qed.

(** [1 - g] for [0 <= g <= 1]. *)
Lemma sub_one (g : number) :
  nonneg g = true -> le g (of_Z 1) = true ->
  nonneg (sub (of_Z 1) g) = true /\ le (sub (of_Z 1) g) (of_Z 1) = true.
Proof.
  intros Hg Hle.
  destruct (nonneg_cases _ Hg) as [[sg ->] | [(mg & eg & -> & Hb) | ->]];
    [split; reflexivity | | discriminate].
  assert (Hv : val (S754_finite false mg eg) <= 1).
  { rewrite <- one_val. apply le_val; auto. }
  pose proof (val_pos mg eg) as Hv0. cbn [val signed] in Hv, Hv0.
  change (of_Z 1) with (S754_finite false 4503599627370496 (-52)).
  unfold sub, SFsub. cbn [cond_Zopp].
  set (ez := Z.min (-52) eg).
  rewrite !shl_align_val by (unfold ez; lia).
  set (D := (4503599627370496 * 2 ^ (-52 - ez) - Z.pos mg * 2 ^ (eg - ez))%Z).
  assert (HD : inject_Z D * bpow ez == 1 - inject_Z (Z.pos mg) * bpow eg).
  { unfold D. unfold Z.sub at 1. rewrite inject_Z_plus, inject_Z_opp, !inject_Z_mult.
    rewrite <- (bpow_Z (-52 - ez)), <- (bpow_Z (eg - ez)) by (unfold ez; lia).
    assert (E1 : bpow (-52 - ez) * bpow ez == bpow (-52)).
    { rewrite <- bpow_add. replace (-52 - ez + ez)%Z with (-52)%Z by lia. reflexivity. }
    assert (E2 : bpow (eg - ez) * bpow ez == bpow eg).
    { rewrite <- bpow_add. replace (eg - ez + ez)%Z with eg by lia. reflexivity. }
    assert (E3 : inject_Z 4503599627370496 * bpow (-52) == 1) by reflexivity.
    transitivity (inject_Z 4503599627370496 * (bpow (-52 - ez) * bpow ez)
                  - inject_Z (Z.pos mg) * (bpow (eg - ez) * bpow ez)); [ring |].
    rewrite E1, E2, E3. reflexivity. }
  pose proof (bpow_pos ez) as Pz.
  change (IntDef.Z.sub (4503599627370496 * 2 ^ (-52 - ez)) (Z.pos mg * 2 ^ (eg - ez))) with D.
  destruct D as [| z | z] eqn:ED.
  - split; reflexivity.
  - cbn [binary_normalize].
    assert (Hr : rounds (1 - inject_Z (Z.pos mg) * bpow eg)
                        (binary_round prec emax false z ez)).
    { eapply rounds_ext; [exact HD | apply binary_round_rounds]. }
    split; [eapply rounds_nonneg; eauto |].
    change (S754_finite false 4503599627370496 (-52)) with (of_Z 1).
    eapply rounds_mono; [exact Hr | |].
    + change (of_Z 1) with (S754_finite false 4503599627370496 (-52)).
      apply rounds_exact. reflexivity.
    + assert (inject_Z 4503599627370496 * bpow (-52) == 1) as -> by reflexivity. lra.
  - exfalso.
    assert (inject_Z (Z.neg z) * bpow ez < 0).
    { rewrite <- (Qmult_0_l (bpow ez)). apply Qmult_lt_compat_r; auto. reflexivity. }
    lra.
Qed.

(** Multiplying by a factor of at most 1 does not increase. *)
Lemma mul_fraction (a f : number) :
  nonneg a = true -> isFinite a = true -> nonneg f = true -> le f (of_Z 1) = true ->
  nonneg (mul a f) = true /\ le (mul a f) a = true.
Proof.
  intros Ha Fa Hf Hle.
  assert (Ff : isFinite f = true)
    by (apply (nonneg_finite_le f (of_Z 1)); auto; reflexivity).
  destruct (nonneg_cases _ Ha) as [[sa ->] | [(ma & ea & -> & Ba) | ->]];
    destruct (nonneg_cases _ Hf) as [[sf ->] | [(mf & ef & -> & Bf) | ->]];
    try discriminate; try (split; reflexivity).
  pose proof (mul_rounds ma mf ea ef Ba Bf) as Hr.
  split; [eapply rounds_nonneg; eauto |].
  eapply rounds_mono; [exact Hr | apply rounds_exact; auto |].
  assert (Hv : val (S754_finite false mf ef) <= 1).
  { rewrite <- one_val. apply le_val; auto. }
  pose proof (val_pos ma ea) as Pa. cbn [val signed] in Hv, Pa.
  set (A := inject_Z (Z.pos ma) * bpow ea) in *.
  set (B := inject_Z (Z.pos mf) * bpow ef) in *.
  assert (A * B <= A * 1) by (apply Qmult_le_l; auto). lra.
Qed.

(** The discounted and scaled amount is at most the scaled amount, and
    neither is negative. *)
Lemma discount_chain (price d : number) :
  valid price = true -> isFinite price = true -> le (of_Z 0) price = true ->
  valid d = true -> le (of_Z 0) d = true -> le d (of_Z 100) = true ->
  let y := mul (mul price (sub (of_Z 1) (div d (of_Z 100)))) (of_Z 100) in
  nonneg y = true /\
  le (div (Math_round y) (of_Z 100)) (Pricing.round2 price) = true.
Proof.
  intros Vp Fp Hp Vd Hd0 Hd100 y.
  pose proof (nonneg_of_le _ Vp Hp) as Np.
  pose proof (nonneg_of_le _ Vd Hd0) as Nd.
  assert (N100 : nonneg (of_Z 100) = true) by reflexivity.
  destruct (div_100_mono d (of_Z 100) Nd N100 Hd100) as (Hg & Ng & _).
  change (div (of_Z 100) (of_Z 100)) with (of_Z 1) in Hg.
  destruct (sub_one _ Ng Hg) as (Nf & Hf).
  destruct (mul_fraction price _ Np Fp Nf Hf) as (Nx & Hx).
  destruct (mul_100_mono _ _ Nx Np Hx) as (Hy & Ny & Nya).
  destruct (Math_round_mono _ _ Ny Nya Hy) as (Hr & Nr & Nra).
  destruct (div_100_mono _ _ Nr Nra Hr) as (Hres & _ & _).
  split; [exact Ny | exact Hres].
Qed.

End Discount.


Section Whole.
Local Open Scope Q_scope.

(** ** Integer-valued doubles *)

Lemma add_rounds (mx my : positive) (ex ey : Z) :
  rounds (val (S754_finite false mx ex) + val (S754_finite false my ey))
         (add (S754_finite false mx ex) (S754_finite false my ey)).
Proof.
  unfold add, SFadd. cbn [cond_Zopp val signed].
  set (ez := Z.min ex ey).
  rewrite !shl_align_val by (unfold ez; lia).
  set (S := (Z.pos mx * 2 ^ (ex - ez) + Z.pos my * 2 ^ (ey - ez))%Z).
  change (IntDef.Z.add (Z.pos mx * 2 ^ (ex - ez)) (Z.pos my * 2 ^ (ey - ez))) with S.
  assert (HS : inject_Z S * bpow ez
               == inject_Z (Z.pos mx) * bpow ex + inject_Z (Z.pos my) * bpow ey).
  { unfold S. rewrite inject_Z_plus, !inject_Z_mult.
    rewrite <- (bpow_Z (ex - ez)), <- (bpow_Z (ey - ez)) by (unfold ez; lia).
    assert (E1 : bpow (ex - ez) * bpow ez == bpow ex).
    { rewrite <- bpow_add. replace (ex - ez + ez)%Z with ex by lia. reflexivity. }
    assert (E2 : bpow (ey - ez) * bpow ez == bpow ey).
    { rewrite <- bpow_add. replace (ey - ez + ez)%Z with ey by lia. reflexivity. }
    rewrite <- E1, <- E2. ring. }
  assert (0 < 2 ^ (ex - ez))%Z by (apply Z.pow_pos_nonneg; unfold ez; lia).
  assert (0 < 2 ^ (ey - ez))%Z by (apply Z.pow_pos_nonneg; unfold ez; lia).
  destruct S as [| z | z] eqn:ES; try (unfold S in ES; lia).
  cbn [binary_normalize]. eapply rounds_ext; [exact HS | apply binary_round_rounds].
Qed.

Lemma isInteger_val (s : bool) (m : positive) (e : Z) :
  isInteger (S754_finite s m e) = true <->
  exists z, val (S754_finite s m e) == inject_Z z.
Proof.
  assert (Hsm : inject_Z (signed s m) == (if s then -1 else 1) * inject_Z (Z.pos m)).
  { destruct s; cbn [signed]; [| ring].
    rewrite <- Pos2Z.opp_pos, inject_Z_opp. ring. }
  unfold isInteger. cbn [val]. split.
  - intros Hi. apply orb_true_iff in Hi.
    destruct (Z.le_gt_cases 0 e) as [He | He].
    + exists (signed s m * 2 ^ e)%Z.
      rewrite inject_Z_mult, (bpow_Z e) by auto. reflexivity.
    + destruct Hi as [Hi | Hi]; [apply Z.leb_le in Hi; lia |].
      apply Z.eqb_eq in Hi.
      exists ((if s then -1 else 1) * (Z.pos m / 2 ^ (- e)))%Z.
      assert (Hp : (0 < 2 ^ (- e))%Z) by (apply Z.pow_pos_nonneg; lia).
      pose proof (Z.div_mod (Z.pos m) (2 ^ (- e))) as Hdm.
      rewrite Hi, Z.add_0_r in Hdm.
      rewrite Hsm, Hdm at 1 by lia.
      rewrite !inject_Z_mult, <- (bpow_Z (- e)) by lia.
      assert (bpow (- e) * bpow e == 1) as Hone.
      { rewrite <- bpow_add. replace (- e + e)%Z with 0%Z by lia. reflexivity. }
      transitivity ((if s then -1 else 1) * inject_Z (Z.pos m / 2 ^ (- e))
                    * (bpow (- e) * bpow e)); [ring |].
      rewrite Hone. destruct s; ring.
  - intros [z Hz]. apply orb_true_iff.
    destruct (Z.le_gt_cases 0 e) as [He | He]; [left; now apply Z.leb_le | right].
    apply Z.eqb_eq.
    assert (Hone : bpow e * bpow (- e) == 1).
    { rewrite <- bpow_add. replace (e + - e)%Z with 0%Z by lia. reflexivity. }
    assert (Hm : inject_Z (Z.pos m)
                 == inject_Z ((if s then -1 else 1) * z * 2 ^ (- e))).
    { rewrite !inject_Z_mult, <- (bpow_Z (- e)) by lia.
      rewrite <- Hz, Hsm.
      transitivity ((if s then -1 else 1) * (if s then -1 else 1)
                    * inject_Z (Z.pos m) * (bpow e * bpow (- e)));
        [rewrite Hone; destruct s; ring | destruct s; ring]. }
    apply (proj1 (inject_Z_injective _ _)) in Hm. rewrite Hm. apply Z.mod_mul.
    apply Z.pow_nonzero; lia.
Qed.

Lemma bounded_le_max (m : positive) (e : Z) :
  bounded prec emax m e = true ->
  inject_Z (Z.pos m) * bpow e <= bpow 1024 - bpow 971.
Proof.
  intros Hb. destruct (bounded_digits _ _ Hb) as (R & D & _).
  pose proof (digits2_bounds m) as [_ Um].
  assert (Hm53 : (Z.pos m <= 2 ^ 53 - 1)%Z).
  { assert (2 ^ Z.pos (digits2_pos m) <= 2 ^ 53)%Z by (apply Z.pow_le_mono_r; lia). lia. }
  pose proof (bpow_pos e) as P.
  assert (A : inject_Z (Z.pos m) * bpow e <= inject_Z (2 ^ 53 - 1) * bpow e).
  { apply Qmult_le_compat_r; [| lra]. now rewrite <- Zle_Qle. }
  assert (B : bpow e <= bpow 971) by (apply bpow_le; lia).
  assert (C : inject_Z (2 ^ 53 - 1) * bpow e <= inject_Z (2 ^ 53 - 1) * bpow 971).
  { apply Qmult_le_l; auto. reflexivity. }
  assert (E : inject_Z (2 ^ 53 - 1) * bpow 971 == bpow 1024 - bpow 971).
  { change 1024%Z with (53 + 971)%Z. rewrite bpow_add, (bpow_Z 53) by lia.
    unfold Z.sub. rewrite inject_Z_plus. change (inject_Z (- (1))) with (- (1)). ring. }
  lra.
Qed.

(** Adding 1 to an integer of at least 1 gives an integer of at least
    1: the sum is exact, or it is rounded on a grid of integers. *)
Lemma add_one_whole (m : positive) (e : Z) :
  bounded prec emax m e = true ->
  isInteger (S754_finite false m e) = true ->
  exists m' e',
    add (S754_finite false m e) (of_Z 1) = S754_finite false m' e' /\
    bounded prec emax m' e' = true /\
    isInteger (S754_finite false m' e') = true /\
    le (of_Z 1) (S754_finite false m' e') = true.
Proof.
  intros Hb Hi.
  apply isInteger_val in Hi as [z Hz].
  pose proof (val_pos m e) as Hq0.
  pose proof (bounded_le_max m e Hb) as Hmax.
  change (of_Z 1) with (S754_finite false 4503599627370496 (-52)).
  pose proof (add_rounds m 4503599627370496 e (-52)) as Hr.
  assert (E1 : val (S754_finite false 4503599627370496 (-52)) == 1) by reflexivity.
  set (r := add (S754_finite false m e) (S754_finite false 4503599627370496 (-52))) in *.
  set (v := val (S754_finite false m e) + val (S754_finite false 4503599627370496 (-52))) in *.
  assert (Hv : v == inject_Z (z + 1)).
  { unfold v. rewrite E1, Hz, inject_Z_plus. reflexivity. }
  assert (Hle1 : le (S754_finite false 4503599627370496 (-52)) r = true).
  { eapply rounds_mono; [apply rounds_exact; reflexivity | exact Hr |].
    unfold v. rewrite E1. cbn [val signed] in *.
    assert (inject_Z 4503599627370496 * bpow (-52) == 1) as -> by reflexivity. lra. }
  destruct (rounds_cases _ _ Hr) as (N & F & Hg & Hn & C).
  pose proof (bpow_pos F) as PF.
  destruct C as [[_ Hr0] | [(m' & e' & Hr' & Hb' & Hv') | [Hinf Hbig]]].
  - rewrite Hr0 in Hle1. discriminate.
  - exists m', e'. rewrite Hr' in Hle1. repeat split; auto.
    apply isInteger_val. cbn [val signed].
    destruct (Z.le_gt_cases 0 F) as [HF | HF].
    + exists (N * 2 ^ F)%Z. rewrite Hv', inject_Z_mult, (bpow_Z F) by auto. reflexivity.
    + exists (z + 1)%Z. rewrite Hv'.
      assert (Hx : v / bpow F == inject_Z ((z + 1) * 2 ^ (- F))).
      { rewrite Hv, inject_Z_mult, <- (bpow_Z (- F)) by lia.
        unfold bpow at 2. rewrite Qpower_opp. fold (bpow F). field. lra. }
      destruct Hn as [[A B] _]. rewrite Hx in A, B.
      assert (HN : N = ((z + 1) * 2 ^ (- F))%Z).
      { assert (inject_Z N < inject_Z ((z + 1) * 2 ^ (- F)) + inject_Z 1)
          by (change (inject_Z 1) with 1; lra).
        assert (inject_Z ((z + 1) * 2 ^ (- F)) < inject_Z N + inject_Z 1)
          by (change (inject_Z 1) with 1; lra).
        rewrite <- inject_Z_plus, <- Zlt_Qlt in H, H0. lia. }
      rewrite HN, inject_Z_mult, <- (bpow_Z (- F)) by lia.
      assert (bpow (- F) * bpow F == 1) as Hone.
      { rewrite <- bpow_add. replace (- F + F)%Z with 0%Z by lia. reflexivity. }
      rewrite <- Qmult_assoc, Hone. ring.
  - exfalso.
    assert (Hvmax : v <= bpow 1024 - bpow 971 + 1).
    { unfold v. rewrite E1. cbn [val signed]. lra. }
    assert (Hb971 : 4 <= bpow 971).
    { change 4 with (bpow 2). apply bpow_le. lia. }
    destruct (grid_range _ _ _ Hg Hn) as (HF1 & HN1 & _).
    assert (HF971 : (F <= 971)%Z).
    { destruct (Z.le_gt_cases F 971) as [C | C]; auto. exfalso.
      destruct Hg as [[-> _] | [_ [Hl _]]]; [lia |].
      assert (bpow 1024 <= bpow (F + 52)) by (apply bpow_le; lia). lra. }
    destruct (Z.eq_dec F 971) as [-> | Hne].
    + destruct Hn as [[A _] _].
      assert (Hx : v / bpow 971 <= inject_Z (2 ^ 53 - 1) + (1 # 4)).
      { apply Qle_shift_div_r; auto.
        assert (E : inject_Z (2 ^ 53 - 1) * bpow 971 == bpow 1024 - bpow 971).
        { change 1024%Z with (53 + 971)%Z. rewrite bpow_add, (bpow_Z 53) by lia.
          unfold Z.sub. rewrite inject_Z_plus. change (inject_Z (- (1))) with (- (1)). ring. }
        rewrite Qmult_plus_distr_l, E. lra. }
      assert (HN : (N <= 2 ^ 53 - 1)%Z).
      { assert (inject_Z N < inject_Z (2 ^ 53 - 1) + inject_Z 1)
          by (change (inject_Z 1) with 1; lra).
        rewrite <- inject_Z_plus, <- Zlt_Qlt in H. lia. }
      assert (inject_Z N * bpow 971 <= inject_Z (2 ^ 53 - 1) * bpow 971).
      { apply Qmult_le_compat_r; [| lra]. now rewrite <- Zle_Qle. }
      assert (E : inject_Z (2 ^ 53 - 1) * bpow 971 == bpow 1024 - bpow 971).
      { change 1024%Z with (53 + 971)%Z. rewrite bpow_add, (bpow_Z 53) by lia.
        unfold Z.sub. rewrite inject_Z_plus. change (inject_Z (- (1))) with (- (1)). ring. }
      lra.
    + assert (inject_Z N * bpow F <= inject_Z (2 ^ 53) * bpow F).
      { apply Qmult_le_compat_r; [| lra]. now rewrite <- Zle_Qle. }
      rewrite <- (bpow_Z 53), <- bpow_add in H by lia.
      assert (bpow (53 + F) < bpow 1024) by (apply bpow_lt; lia). lra.
Qed.

(** An integer that is not [<= 0] is at least 1. *)
Lemma whole_of_positive (q : number) :
  valid q = true -> isInteger q = true -> le q (of_Z 0) = false ->
  exists m e, q = S754_finite false m e /\ bounded prec emax m e = true /\
              le (of_Z 1) q = true.
Proof.
  intros Hv Hi Hle.
  destruct q as [s | s | | s m e]; try discriminate.
  destruct s; [discriminate |].
  exists m, e. repeat split; auto.
  apply isInteger_val in Hi as [z Hz].
  pose proof (val_pos m e) as Hp. rewrite Hz in Hp.
  assert (Hz1 : (1 <= z)%Z).
  { change 0 with (inject_Z 0) in Hp. rewrite <- Zlt_Qlt in Hp. lia. }
  change (of_Z 1) with (S754_finite false 4503599627370496 (-52)).
  apply le_pos_val; auto.
  assert (inject_Z 4503599627370496 * bpow (-52) == 1) as -> by reflexivity.
  cbn [val signed] in Hz. rewrite Hz.
  change 1 with (inject_Z 1). now rewrite <- Zle_Qle.
Qed.

End Whole.

Section Order.
Local Open Scope Q_scope.

(** ** Order and the arithmetic operations *)

Lemma mul_comm (x y : number) : mul x y = mul y x.
Proof.
  unfold mul, SFmul.
  destruct x as [sx | sx | | sx mx ex], y as [sy | sy | | sy my ey];
    try reflexivity; rewrite (xorb_comm sx sy); try reflexivity.
  now rewrite (Pos.mul_comm mx my), (Z.add_comm ex ey).
Qed.

Lemma add_comm (x y : number) : add x y = add y x.
Proof.
  unfold add, SFadd.
  destruct x as [sx | sx | | sx mx ex], y as [sy | sy | | sy my ey];
    try reflexivity; try (destruct sx, sy; reflexivity).
  rewrite (Z.min_comm ex ey).
  set (a := cond_Zopp sx (Z.pos (fst (shl_align mx ex (Z.min ey ex))))).
  set (b := cond_Zopp sy (Z.pos (fst (shl_align my ey (Z.min ey ex))))).
  change (IntDef.Z.add a b) with (a + b)%Z. change (IntDef.Z.add b a) with (b + a)%Z.
  now rewrite (Z.add_comm a b).
Qed.

(** Multiplying by a non-negative finite factor keeps the order. *)
Lemma mul_mono_l (a b f : number) :
  nonneg a = true -> nonneg b = true -> nonneg f = true ->
  isFinite b = true -> isFinite f = true -> le a b = true ->
  le (mul a f) (mul b f) = true /\
  nonneg (mul a f) = true /\ nonneg (mul b f) = true.
Proof.
  intros Ha Hb Hf Fb Ff Hle.
  pose proof (nonneg_finite_le a b Ha Hb Hle Fb) as Fa.
  destruct (nonneg_cases _ Hf) as [[sf ->] | [(mf & ef & -> & Bf) | ->]];
    [| | discriminate].
  - destruct (nonneg_cases _ Ha) as [[sa ->] | [(ma & ea & -> & Ba) | ->]];
      destruct (nonneg_cases _ Hb) as [[sb ->] | [(mb & eb & -> & Bb) | ->]];
      try discriminate; repeat split.
  - assert (Hz : forall s, exists s', mul (S754_zero s) (S754_finite false mf ef)
                                      = S754_zero s')
      by (intros s; eexists; reflexivity).
    assert (Hi : mul (S754_infinity false) (S754_finite false mf ef)
                 = S754_infinity false) by reflexivity.
    assert (Hr : forall m e, bounded prec emax m e = true ->
              rounds ((fun v => v * val (S754_finite false mf ef))
                        (val (S754_finite false m e)))
                     (mul (S754_finite false m e) (S754_finite false mf ef))).
    { intros m e Hbd. apply mul_rounds; auto. }
    assert (Hp : forall u v : Q, u <= v ->
              (fun v => v * val (S754_finite false mf ef)) u
              <= (fun v => v * val (S754_finite false mf ef)) v).
    { intros u v H. cbv beta. pose proof (val_pos mf ef).
      apply Qmult_le_compat_r; lra. }
    repeat split.
    + exact (op_mono (fun x => mul x (S754_finite false mf ef)) _ Hz Hi Hr Hp a b Ha Hb Hle).
    + exact (op_nonneg (fun x => mul x (S754_finite false mf ef)) _ Hz Hi Hr a Ha).
    + exact (op_nonneg (fun x => mul x (S754_finite false mf ef)) _ Hz Hi Hr b Hb).
Qed.

(** The product of non-negative finite numbers grows with both. *)
Lemma mul_mono (a a' b b' : number) :
  nonneg a = true -> nonneg a' = true -> nonneg b = true -> nonneg b' = true ->
  isFinite a' = true -> isFinite b' = true ->
  le a a' = true -> le b b' = true ->
  le (mul a b) (mul a' b') = true /\
  nonneg (mul a b) = true /\ nonneg (mul a' b') = true.
Proof.
  intros Ha Ha' Hb Hb' Fa' Fb' Hla Hlb.
  pose proof (nonneg_finite_le a a' Ha Ha' Hla Fa') as Fa.
  pose proof (nonneg_finite_le b b' Hb Hb' Hlb Fb') as Fb.
  destruct (mul_mono_l a a' b Ha Ha' Hb Fa' Fb Hla) as (H1 & N1 & N2).
  destruct (mul_mono_l b b' a' Hb Hb' Ha' Fb' Fa' Hlb) as (H2 & N3 & N4).
  rewrite (mul_comm b a'), (mul_comm b' a') in *.
  repeat split; auto.
  destruct (isFinite (mul a' b')) eqn:F.
  - pose proof (nonneg_finite_le _ _ N3 N4 H2 F) as F2.
    pose proof (nonneg_finite_le _ _ N1 N2 H1 F2) as F1.
    apply le_val; auto. apply le_val in H1, H2; auto. lra.
  - destruct (nonneg_cases _ N4) as [[s E] | [(m & e & E & _) | E]];
      rewrite E in F |- *; try discriminate. now apply le_inf_r.
Qed.

(** [<=] is transitive on the non-negative numbers. *)
Lemma le_trans_nonneg (x y z : number) :
  nonneg x = true -> nonneg y = true -> nonneg z = true ->
  le x y = true -> le y z = true -> le x z = true.
Proof.
  intros Hx Hy Hz H1 H2.
  destruct (isFinite z) eqn:F.
  - pose proof (nonneg_finite_le _ _ Hy Hz H2 F) as Fy.
    pose proof (nonneg_finite_le _ _ Hx Hy H1 Fy) as Fx.
    apply le_val; auto. apply le_val in H1, H2; auto. lra.
  - destruct (nonneg_cases _ Hz) as [[s E] | [(m & e & E & _) | E]];
      rewrite E in F |- *; try discriminate. now apply le_inf_r.
Qed.

Lemma le_refl_nonneg (x : number) : nonneg x = true -> le x x = true.
Proof.
  intros Hx. destruct (nonneg_cases _ Hx) as [[s ->] | [(m & e & -> & B) | ->]];
    try reflexivity.
  apply le_val; auto. lra.
Qed.

(** The sum of a non-negative finite number and a positive one. *)
Lemma add_pos_rounds (x : number) (mb : positive) (eb : Z) :
  nonneg x = true -> isFinite x = true -> bounded prec emax mb eb = true ->
  rounds (val x + val (S754_finite false mb eb)) (add x (S754_finite false mb eb)).
Proof.
  intros Hx Fx Bb.
  destruct (nonneg_cases _ Hx) as [[s ->] | [(m & e & -> & B) | ->]];
    try discriminate.
  - cbn [val]. eapply rounds_ext; [| apply (rounds_exact mb eb Bb)].
    cbn [val signed]. ring.
  - apply add_rounds.
Qed.

Lemma add_mono_l (a a' b : number) :
  nonneg a = true -> nonneg a' = true -> nonneg b = true -> le a a' = true ->
  le (add a b) (add a' b) = true /\
  nonneg (add a b) = true /\ nonneg (add a' b) = true.
Proof.
  intros Ha Ha' Hb Hle.
  destruct (nonneg_cases _ Hb) as [[sb ->] | [(mb & eb & -> & Bb) | ->]].
  - assert (Hz : forall x, nonneg x = true ->
              (exists s s', x = S754_zero s /\ add x (S754_zero sb) = S754_zero s') \/
              ((forall s, x <> S754_zero s) /\ add x (S754_zero sb) = x)).
    { intros x Hx.
      destruct (nonneg_cases _ Hx) as [[s ->] | [(m & e & -> & B) | ->]].
      - left. exists s. destruct s, sb; eexists; split; reflexivity.
      - right. split; [discriminate | reflexivity].
      - right. split; [discriminate | reflexivity]. }
    destruct (Hz a Ha) as [(s1 & s1' & -> & ->) | [Na ->]];
      destruct (Hz a' Ha') as [(s2 & s2' & -> & ->) | [Na' ->]].
    + repeat split.
    + repeat split; auto.
    + exfalso. destruct (nonneg_cases _ Ha) as [[s E] | [(m & e & E & B) | E]];
        rewrite E in *; try discriminate. now apply (Na s).
    + repeat split; auto.
  - destruct (isFinite a') eqn:Fa'.
    + pose proof (nonneg_finite_le a a' Ha Ha' Hle Fa') as Fa.
      pose proof (add_pos_rounds a mb eb Ha Fa Bb) as R1.
      pose proof (add_pos_rounds a' mb eb Ha' Fa' Bb) as R2.
      repeat split; try (eapply rounds_nonneg; eauto).
      eapply rounds_mono; eauto. apply le_val in Hle; auto. lra.
    + assert (a' = S754_infinity false) as ->.
      { destruct (nonneg_cases _ Ha') as [[s E] | [(m & e & E & B) | E]];
          rewrite E in *; auto; discriminate. }
      assert (Na : nonneg (add a (S754_finite false mb eb)) = true).
      { destruct (nonneg_cases _ Ha) as [[s ->] | [(m & e & -> & B) | ->]];
          try reflexivity.
        - exact Hb.
        - eapply rounds_nonneg. apply add_rounds. }
      repeat split; auto. now apply le_inf_r.
  - assert (Hi : forall x, nonneg x = true ->
              add x (S754_infinity false) = S754_infinity false).
    { intros x Hx.
      destruct (nonneg_cases _ Hx) as [[s ->] | [(m & e & -> & B) | ->]]; reflexivity. }
    rewrite !Hi by auto. repeat split.
Qed.

(** The sum of non-negative numbers grows with both. *)
Lemma add_mono (a a' b b' : number) :
  nonneg a = true -> nonneg a' = true -> nonneg b = true -> nonneg b' = true ->
  le a a' = true -> le b b' = true ->
  le (add a b) (add a' b') = true /\
  nonneg (add a b) = true /\ nonneg (add a' b') = true.
Proof.
  intros Ha Ha' Hb Hb' Hla Hlb.
  destruct (add_mono_l a a' b Ha Ha' Hb Hla) as (H1 & N1 & N2).
  destruct (add_mono_l b b' a' Hb Hb' Ha' Hlb) as (H2 & N3 & N4).
  rewrite (add_comm b a'), (add_comm b' a') in *.
  repeat split; auto. apply (le_trans_nonneg _ (add a' b) _); auto.
Qed.

(** A sum is at least its first term. *)
Lemma add_ge_l (a b : number) :
  nonneg a = true -> nonneg b = true -> le a (add a b) = true.
Proof.
  intros Ha Hb.
  destruct (add_mono_l (S754_zero false) b a eq_refl Hb Ha) as (H & N1 & N2).
  - now apply le_zero_l.
  - rewrite (add_comm b a) in *.
    apply (le_trans_nonneg _ (add (S754_zero false) a) _); auto.
    destruct (nonneg_cases _ Ha) as [[s ->] | [(m & e & -> & B) | ->]].
    + destruct s; reflexivity.
    + cbn [add SFadd]. now apply le_refl_nonneg.
    + reflexivity.
Qed.

(** Rounding to 2 decimals keeps the order. *)
Lemma round2_mono (x y : number) :
  nonneg x = true -> nonneg y = true -> le x y = true ->
  le (Pricing.round2 x) (Pricing.round2 y) = true /\
  nonneg (Pricing.round2 x) = true /\ nonneg (Pricing.round2 y) = true.
Proof.
  intros Hx Hy Hle. unfold Pricing.round2.
  destruct (mul_100_mono _ _ Hx Hy Hle) as (H1 & N1 & N1').
  destruct (Math_round_mono _ _ N1 N1' H1) as (H2 & N2 & N2').
  exact (div_100_mono _ _ N2 N2' H2).
Qed.

End Order.

Section Complement.
Local Open Scope Q_scope.

(** [1 - g] for a positive [g <= 1]: zero at 1, the rounded difference
    below. *)
Lemma sub_one_rounds (mg : positive) (eg : Z) :
  bounded prec emax mg eg = true ->
  val (S754_finite false mg eg) <= 1 ->
  (val (S754_finite false mg eg) == 1 /\
   sub (of_Z 1) (S754_finite false mg eg) = S754_zero false) \/
  (val (S754_finite false mg eg) < 1 /\
   rounds (1 - val (S754_finite false mg eg)) (sub (of_Z 1) (S754_finite false mg eg))).
Proof.
  intros Hb Hv. cbn [val signed] in *.
  change (of_Z 1) with (S754_finite false 4503599627370496 (-52)).
  unfold sub, SFsub. cbn [cond_Zopp].
  set (ez := Z.min (-52) eg).
  rewrite !shl_align_val by (unfold ez; lia).
  set (D := (4503599627370496 * 2 ^ (-52 - ez) - Z.pos mg * 2 ^ (eg - ez))%Z).
  assert (HD : inject_Z D * bpow ez == 1 - inject_Z (Z.pos mg) * bpow eg).
  { unfold D. unfold Z.sub at 1. rewrite inject_Z_plus, inject_Z_opp, !inject_Z_mult.
    rewrite <- (bpow_Z (-52 - ez)), <- (bpow_Z (eg - ez)) by (unfold ez; lia).
    assert (E1 : bpow (-52 - ez) * bpow ez == bpow (-52)).
    { rewrite <- bpow_add. replace (-52 - ez + ez)%Z with (-52)%Z by lia. reflexivity. }
    assert (E2 : bpow (eg - ez) * bpow ez == bpow eg).
    { rewrite <- bpow_add. replace (eg - ez + ez)%Z with eg by lia. reflexivity. }
    assert (E3 : inject_Z 4503599627370496 * bpow (-52) == 1) by reflexivity.
    transitivity (inject_Z 4503599627370496 * (bpow (-52 - ez) * bpow ez)
                  - inject_Z (Z.pos mg) * (bpow (eg - ez) * bpow ez)); [ring |].
    rewrite E1, E2, E3. reflexivity. }
  pose proof (bpow_pos ez) as Pz.
  change (IntDef.Z.sub (4503599627370496 * 2 ^ (-52 - ez)) (Z.pos mg * 2 ^ (eg - ez))) with D.
  destruct D as [| z | z] eqn:ED.
  - left. split; [| reflexivity]. change (inject_Z 0) with 0 in HD. lra.
  - right. cbn [binary_normalize].
    assert (0 < inject_Z (Z.pos z) * bpow ez)
      by (apply Qmult_lt_0_compat; auto; reflexivity).
    split; [lra |].
    eapply rounds_ext; [exact HD | apply binary_round_rounds].
  - exfalso.
    assert (inject_Z (Z.neg z) * bpow ez < 0).
    { rewrite <- (Qmult_0_l (bpow ez)). apply Qmult_lt_compat_r; auto. reflexivity. }
    lra.
Qed.

(** [1 - g] decreases as [g] grows, for [0 <= g <= 1]. *)
Lemma sub_one_anti (g1 g2 : number) :
  nonneg g1 = true -> nonneg g2 = true -> le g1 g2 = true -> le g2 (of_Z 1) = true ->
  le (sub (of_Z 1) g2) (sub (of_Z 1) g1) = true.
Proof.
  intros H1 H2 Hle Hone.
  destruct (sub_one g2 H2 Hone) as (N2 & L2).
  assert (F2 : isFinite g2 = true)
    by (apply (nonneg_finite_le g2 (of_Z 1)); auto; reflexivity).
  pose proof (nonneg_finite_le g1 g2 H1 H2 Hle F2) as F1.
  assert (V2 : val g2 <= 1) by (rewrite <- one_val; apply le_val; auto).
  assert (V12 : val g1 <= val g2) by (apply le_val; auto).
  destruct (nonneg_cases _ H1) as [[s1 ->] | [(m1 & e1 & -> & B1) | ->]];
    [exact L2 | | discriminate].
  destruct (nonneg_cases _ H2) as [[s2 ->] | [(m2 & e2 & -> & B2) | ->]];
    [discriminate | | discriminate].
  destruct (sub_one_rounds m2 e2 B2 V2) as [[E2 ->] | [L R2]].
  - apply le_zero_l. apply sub_one; auto.
    apply (le_trans_nonneg _ (S754_finite false m2 e2) _); auto.
  - destruct (sub_one_rounds m1 e1 B1) as [[E1 _] | [_ R1]]; [lra | lra |].
    eapply rounds_mono; eauto. lra.
Qed.

End Complement.

Section Factor.

(** ** The discount factor, in order *)

Lemma le_0_nonneg (x : number) : nonneg x = true -> le (of_Z 0) x = true.
Proof. intros H. now apply (le_zero_l false). Qed.

(** What is above a non-negative number is not negative. *)
Lemma le_nonneg_r (x y : number) :
  nonneg x = true -> valid y = true -> le x y = true -> nonneg y = true.
Proof.
  intros Hx Vy Hle. apply nonneg_of_le; auto.
  destruct y as [s | s | | s m e]; try destruct s; try reflexivity; try discriminate;
    destruct (nonneg_cases _ Hx) as [[s' E] | [(m' & e' & E & _) | E]];
    rewrite E in Hle; discriminate.
Qed.

(** The discount factor [1 - d / 100] for [0 <= d <= 100]. *)
Lemma discount_factor (d : number) :
  valid d = true -> le (of_Z 0) d = true -> le d (of_Z 100) = true ->
  nonneg (div d (of_Z 100)) = true /\
  le (div d (of_Z 100)) (of_Z 1) = true /\
  nonneg (sub (of_Z 1) (div d (of_Z 100))) = true /\
  le (sub (of_Z 1) (div d (of_Z 100))) (of_Z 1) = true /\
  isFinite (sub (of_Z 1) (div d (of_Z 100))) = true.
Proof.
  intros Vd Hd0 Hd100.
  pose proof (nonneg_of_le _ Vd Hd0) as Nd.
  assert (N100 : nonneg (of_Z 100) = true) by reflexivity.
  destruct (div_100_mono d (of_Z 100) Nd N100 Hd100) as (Hg & Ng & _).
  change (div (of_Z 100) (of_Z 100)) with (of_Z 1) in Hg.
  destruct (sub_one _ Ng Hg) as (Nf & Hf).
  repeat split; auto.
  apply (nonneg_finite_le _ (of_Z 1)); auto; reflexivity.
Qed.

(** The factor [1 - d / 100] is never a negative zero. *)
Lemma discount_factor_zero (g : number) (s : bool) :
  nonneg g = true -> le g (of_Z 1) = true ->
  sub (of_Z 1) g = S754_zero s -> s = false.
Proof.
  intros Hg Hle.
  assert (Fg : isFinite g = true)
    by (apply (nonneg_finite_le g (of_Z 1)); auto; reflexivity).
  assert (V : (val g <= 1)%Q) by (rewrite <- one_val; apply le_val; auto).
  destruct (nonneg_cases _ Hg) as [[sg ->] | [(m & e & -> & B) | ->]];
    [discriminate | | discriminate].
  destruct (sub_one_rounds m e B V) as [[_ ->] | [_ (N & F & -> & _)]].
  - congruence.
  - destruct N as [| n | n]; cbn [pack]; try discriminate; [congruence |].
    destruct (Z.pos n <? 2 ^ 53)%Z;
      [destruct (F <=? 971)%Z | destruct (F + 1 <=? 971)%Z]; discriminate.
Qed.

End Factor.

Section Error.
Local Open Scope Q_scope.

(** ** The error of one rounding *)

(** A positive double has one representation. *)
Lemma val_inj (m1 m2 : positive) (e1 e2 : Z) :
  bounded prec emax m1 e1 = true -> bounded prec emax m2 e2 = true ->
  inject_Z (Z.pos m1) * bpow e1 == inject_Z (Z.pos m2) * bpow e2 ->
  m1 = m2 /\ e1 = e2.
Proof.
  intros H1 H2 E.
  destruct (Z.lt_trichotomy e1 e2) as [L | [L | L]].
  - pose proof (bounded_lt_exp _ _ _ _ H1 H2 L). lra.
  - subst e2. split; auto. pose proof (bpow_pos e1) as P.
    assert (Hm : inject_Z (Z.pos m1) == inject_Z (Z.pos m2)).
    { apply (Qmult_inj_r _ _ (bpow e1)); [lra | exact E]. }
    apply (proj1 (inject_Z_injective _ _)) in Hm. congruence.
  - pose proof (bounded_lt_exp _ _ _ _ H2 H1 L). lra.
Qed.

Lemma div_bounds (a b x p : Q) :
  0 < p -> a <= x / p -> x / p <= b -> a * p <= x /\ x <= b * p.
Proof.
  intros Hp Ha Hb.
  assert (E : x / p * p == x) by (field; lra).
  split.
  - rewrite <- E. apply Qmult_le_compat_r; lra.
  - rewrite <- E. apply Qmult_le_compat_r; lra.
Qed.

(** Rounding a value in the range of the normal doubles gives a finite
    double with a relative error of at most [2^-53]. *)
Lemma rounds_error (v : Q) (r : number) :
  rounds v r -> bpow (-1022) <= v -> v < bpow 1023 ->
  exists m e, r = S754_finite false m e /\ bounded prec emax m e = true /\
    val r - v <= v * bpow (-53) /\ v - val r <= v * bpow (-53).
Proof.
  intros Hr Hlo Hhi.
  destruct (rounds_cases _ _ Hr) as (N & F & Hg & Hn & C).
  assert (HF : bpow (F + 52) <= v).
  { destruct Hg as [[-> _] | [_ [H _]]]; auto. }
  destruct Hn as [[Hn1 Hn2] _].
  pose proof (bpow_pos F) as PF.
  destruct (div_bounds _ _ _ _ PF Hn1 Hn2) as [B1 B2].
  assert (E52 : bpow (F + 52) == bpow F * bpow 52) by apply bpow_add.
  assert (K52 : bpow 52 == 4503599627370496) by reflexivity.
  assert (K53 : bpow (-53) == 1 # 9007199254740992) by reflexivity.
  assert (Hh : bpow F * (1 # 2) <= v * bpow (-53)).
  { rewrite K53. rewrite E52, K52 in HF. lra. }
  assert (E1 : inject_Z N * bpow F - v <= v * bpow (-53)) by lra.
  assert (E2 : v - inject_Z N * bpow F <= v * bpow (-53)) by lra.
  destruct C as [[-> ->] | [(m & e & -> & Bm & Vm) | [-> Vi]]].
  - exfalso. change (inject_Z 0) with 0 in *.
    rewrite E52, K52 in HF. lra.
  - exists m, e. cbn [val signed]. rewrite Vm. auto.
  - exfalso.
    assert (bpow 1024 == 2 * bpow 1023) by (apply (bpow_succ 1023)).
    pose proof (bpow_pos 1023). rewrite K53 in E1. lra.
Qed.

(** The double of value [n], for a positive integer below [2^53]. *)
Lemma of_Z_unique (x : number) (n : Z) :
  nonneg x = true -> isFinite x = true -> (0 < n < 2 ^ 53)%Z ->
  val x == inject_Z n -> x = of_Z n.
Proof.
  intros Hx Fx Hn Hv.
  destruct (of_Z_val n Hn) as (m' & e' & Hm & Hb & Hv').
  destruct (nonneg_cases _ Hx) as [[s ->] | [(m & e & -> & B) | ->]];
    try discriminate.
  - exfalso. cbn [val] in Hv. assert (0 < inject_Z n) by (rewrite <- (Zlt_Qlt 0); lia).
    lra.
  - rewrite Hm in Hv' |- *. cbn [val signed] in Hv, Hv'.
    destruct (val_inj m m' e e' B Hb) as [-> ->]; [lra | reflexivity].
Qed.

(** [Math.round] of a number within one half of the integer [n]. *)
Lemma Math_round_near (y : number) (n : Z) :
  nonneg y = true -> isFinite y = true -> (0 < n < 2 ^ 53)%Z ->
  inject_Z n - (1 # 2) <= val y -> val y < inject_Z n + (1 # 2) ->
  Math_round y = of_Z n.
Proof.
  intros Hy Fy Hn H1 H2.
  destruct (Math_round_val y Hy Fy) as (N & F & V).
  apply of_Z_unique; auto.
  rewrite V, (Qfloor_unique (val y + (1 # 2)) n); [reflexivity | lra | lra].
Qed.

End Error.

Section Cents.
Local Open Scope Q_scope.

(** ** Whole numbers of cents *)

(** The double nearest to [n / 100]. *)
Lemma cents_value (n : Z) :
  (0 < n <= 10 ^ 15)%Z ->
  exists m e, decimal n 2 = S754_finite false m e /\ bounded prec emax m e = true /\
    val (decimal n 2) - inject_Z n * (1 # 100) <= inject_Z n * (1 # 100) * bpow (-53) /\
    inject_Z n * (1 # 100) - val (decimal n 2) <= inject_Z n * (1 # 100) * bpow (-53).
Proof.
  intros Hn.
  destruct (of_Z_val n) as (mn & en & Hm & Hb & Hv); [lia |].
  change (decimal n 2) with (div (of_Z n) (of_Z 100)). rewrite Hm in Hv |- *.
  change (of_Z 100) with (S754_finite false 7036874417766400 (-46)).
  assert (Hr : rounds (inject_Z n * (1 # 100))
                 (div (S754_finite false mn en) (S754_finite false 7036874417766400 (-46)))).
  { eapply rounds_ext; [| apply (div_rounds mn 7036874417766400 en (-46) Hb eq_refl)].
    cbn [val signed] in Hv. rewrite Hv.
    assert (inject_Z 7036874417766400 * bpow (-46) == 100) as -> by reflexivity.
    field. }
  assert (Hn1 : 1 <= inject_Z n) by (rewrite <- (Zle_Qle 1); lia).
  assert (Hn2 : inject_Z n <= 1000000000000000)
    by (change 1000000000000000 with (inject_Z (10 ^ 15)); rewrite <- Zle_Qle; lia).
  assert (L1 : bpow (-1022) <= bpow (-7)) by (apply bpow_le; lia).
  assert (L2 : bpow (-7) == 1 # 128) by reflexivity.
  assert (U1 : bpow 53 <= bpow 1023) by (apply bpow_le; lia).
  assert (U2 : bpow 53 == 9007199254740992) by reflexivity.
  apply rounds_error; auto; lra.
Qed.

(** Scaling [n / 100] back by 100 and rounding gives [n]. *)
Lemma cents_scaled (n : Z) :
  (0 < n <= 10 ^ 15)%Z -> Math_round (mul (decimal n 2) (of_Z 100)) = of_Z n.
Proof.
  intros Hn.
  destruct (cents_value n Hn) as (m & e & Hm & Hb & E1 & E2).
  rewrite Hm in *. cbn [val signed] in E1, E2.
  change (of_Z 100) with (S754_finite false 7036874417766400 (-46)).
  pose proof (mul_rounds m 7036874417766400 e (-46) Hb eq_refl) as Hr.
  assert (K100 : inject_Z 7036874417766400 * bpow (-46) == 100) by reflexivity.
  assert (K53 : bpow (-53) == 1 # 9007199254740992) by reflexivity.
  assert (Hn1 : 1 <= inject_Z n) by (rewrite <- (Zle_Qle 1); lia).
  assert (Hn2 : inject_Z n <= 1000000000000000)
    by (change 1000000000000000 with (inject_Z (10 ^ 15)); rewrite <- Zle_Qle; lia).
  assert (L1 : bpow (-1022) <= bpow (-7)) by (apply bpow_le; lia).
  assert (L2 : bpow (-7) == 1 # 128) by reflexivity.
  assert (U1 : bpow 53 <= bpow 1023) by (apply bpow_le; lia).
  assert (U2 : bpow 53 == 9007199254740992) by reflexivity.
  set (A := inject_Z (Z.pos m) * bpow e) in *.
  rewrite K53 in E1, E2.
  apply (rounds_ext _ (A * 100)) in Hr; [| now rewrite K100].
  destruct (rounds_error _ _ Hr) as (my & ey & Hy & By & F1 & F2); [lra | lra |].
  rewrite Hy in *. rewrite K53 in F1, F2.
  apply Math_round_near.
  - cbn [nonneg]. now rewrite By.
  - reflexivity.
  - lia.
  - lra.
  - lra.
Qed.

(** A whole number of cents is a fixed point of the rounding to 2
    decimals. *)
Lemma round2_cents_fix (n : Z) :
  (0 <= n <= 10 ^ 15)%Z -> Pricing.round2 (decimal n 2) = decimal n 2.
Proof.
  intros Hn. destruct (Z.eq_dec n 0) as [-> | Hne]; [reflexivity |].
  unfold Pricing.round2. rewrite cents_scaled by lia. reflexivity.
Qed.

Lemma nonneg_zero_val (x : number) :
  nonneg x = true -> isFinite x = true -> val x == 0 -> exists s, x = S754_zero s.
Proof.
  intros Hx Fx Hv.
  destruct (nonneg_cases _ Hx) as [[s ->] | [(m & e & -> & B) | ->]];
    [eauto | | discriminate].
  pose proof (val_pos m e). lra.
Qed.

(** The results of the rounding to 2 decimals, up to ten trillion:
    zero, or the double nearest to a whole number of cents. *)
Lemma round2_cases (x : number) :
  nonneg x = true -> le (Pricing.round2 x) (of_Z (10 ^ 13)) = true ->
  (exists s, Pricing.round2 x = S754_zero s) \/
  (exists n, (0 < n <= 10 ^ 15)%Z /\ Pricing.round2 x = decimal n 2).
Proof.
  intros Hx Hle. unfold Pricing.round2 in *.
  destruct (mul_100_mono x x Hx Hx) as (_ & Ny & _); [now apply le_refl_nonneg |].
  set (y := mul x (of_Z 100)) in *.
  destruct (Math_round_mono y y Ny Ny) as (_ & NR & _); [now apply le_refl_nonneg |].
  destruct (isFinite y) eqn:Fy.
  - destruct (Math_round_val y Ny Fy) as (_ & FR & VR).
    set (k := Qfloor (val y + (1 # 2))) in *.
    assert (Hk0 : (0 <= k)%Z).
    { assert (0 <= val (Math_round y)).
      { destruct (nonneg_cases _ NR) as [[s E] | [(m & e & E & B) | E]]; rewrite E.
        - cbn [val]. lra.
        - pose proof (val_pos m e). lra.
        - cbn [val]. lra. }
      rewrite VR in H. rewrite <- (Zle_Qle 0) in H. exact H. }
    destruct (Z.eq_dec k 0) as [K0 | K0].
    + left. rewrite K0 in VR.
      destruct (nonneg_zero_val _ NR FR VR) as [s ->]. exists s. destruct s; reflexivity.
    + destruct (Z.le_gt_cases k (10 ^ 15)) as [Kle | Kgt].
      * right. exists k. split; [lia |].
        rewrite (of_Z_unique (Math_round y) k); auto. lia.
      * exfalso.
        assert (L : le (of_Z (10 ^ 15 + 1)) (Math_round y) = true).
        { apply le_val; auto; try reflexivity.
          assert (val (of_Z (10 ^ 15 + 1)) == inject_Z (10 ^ 15 + 1)) as -> by reflexivity.
          rewrite VR.
          rewrite <- Zle_Qle. lia. }
        assert (N0 : nonneg (of_Z (10 ^ 15 + 1)) = true) by reflexivity.
        destruct (div_100_mono _ _ N0 NR L) as (L' & N1 & N2).
        assert (N3 : nonneg (of_Z (10 ^ 13)) = true) by reflexivity.
        pose proof (le_trans_nonneg _ _ _ N1 N2 N3 L' Hle) as C.
        vm_compute in C. discriminate.
  - exfalso.
    assert (y = S754_infinity false) as E.
    { destruct (nonneg_cases _ Ny) as [[s E] | [(m & e & E & B) | E]];
        rewrite E in Fy; auto; discriminate. }
    rewrite E in Hle. vm_compute in Hle. discriminate.
Qed.

(** Rounding to 2 decimals twice is rounding once. *)
Lemma round2_idem (x : number) :
  nonneg x = true -> le (Pricing.round2 x) (of_Z (10 ^ 13)) = true ->
  Pricing.round2 (Pricing.round2 x) = Pricing.round2 x.
Proof.
  intros Hx Hle.
  destruct (round2_cases x Hx Hle) as [[s ->] | (n & Hn & ->)].
  - destruct s; reflexivity.
  - apply round2_cents_fix. lia.
Qed.

End Cents.

(** * Decimal digits and [toFixed] *)

Section Digits.

Lemma digits_fuel_S (f : nat) (n : Z) :
  digits_fuel (S f) n =
  if n <? 10 then [digit n] else digits_fuel f (n / 10) ++ [digit (n mod 10)].
Proof. reflexivity. Qed.

Lemma digits_fuel_indep (f1 f2 : nat) (n : Z) :
  0 <= n -> n < 10 ^ Z.of_nat (S f1) -> n < 10 ^ Z.of_nat (S f2) ->
  digits_fuel (S f1) n = digits_fuel (S f2) n.
Proof.
  revert f2 n. induction f1 as [| f1 IH]; intros f2 n Hn H1 H2.
  - change (10 ^ Z.of_nat 1) with 10 in H1.
    rewrite !digits_fuel_S. destruct (Z.ltb_spec n 10); [reflexivity | lia].
  - rewrite (digits_fuel_S (S f1) n), (digits_fuel_S f2 n).
    destruct (Z.ltb_spec n 10) as [Hlt | Hge]; [reflexivity |].
    destruct f2 as [| f2]; [change (10 ^ Z.of_nat 1) with 10 in H2; lia |].
    rewrite (IH f2 (n / 10)); [reflexivity | | |].
    + apply Z.div_pos; lia.
    + apply Z.div_lt_upper_bound; [lia |].
      rewrite (Nat2Z.inj_succ (S f1)), Z.pow_succ_r in H1 by lia. exact H1.
    + apply Z.div_lt_upper_bound; [lia |].
      rewrite (Nat2Z.inj_succ (S f2)), Z.pow_succ_r in H2 by lia. exact H2.
Qed.

(** [S (log2 n)] digits are enough for [n]. *)
Lemma digits_bound (n : Z) : 0 <= n -> n < 10 ^ Z.of_nat (S (Z.to_nat (Z.log2 n))).
Proof.
  intros Hn. rewrite Nat2Z.inj_succ, Z2Nat.id by apply Z.log2_nonneg.
  destruct (Z.eq_dec n 0) as [-> | Hne]; [reflexivity |].
  destruct (Z.log2_spec n) as [_ H]; [lia |].
  assert (2 ^ Z.succ (Z.log2 n) <= 10 ^ Z.succ (Z.log2 n)); [| lia].
  apply Z.pow_le_mono_l. lia.
Qed.

Lemma digits_small (n : Z) : 0 <= n < 10 -> digits n = [digit n].
Proof.
  intros Hn. unfold digits. rewrite digits_fuel_S.
  destruct (Z.ltb_spec n 10); [reflexivity | lia].
Qed.

(** The last digit of [n] is [n mod 10], the digits before it are
    those of [n / 10]. *)
Lemma digits_step (n : Z) :
  10 <= n -> digits n = digits (n / 10) ++ [digit (n mod 10)].
Proof.
  intros Hn.
  assert (H10 : 0 <= n / 10) by (apply Z.div_pos; lia).
  pose proof (digits_bound n ltac:(lia)) as B.
  pose proof (digits_bound (n / 10) H10) as B'.
  unfold digits. set (k := Z.to_nat (Z.log2 n)) in *.
  assert (Hk : (1 <= k)%nat).
  { unfold k. assert (1 <= Z.log2 n); [| lia].
    apply Z.log2_le_pow2; lia. }
  destruct k as [| k]; [lia |].
  rewrite (digits_fuel_S (S k) n). destruct (Z.ltb_spec n 10); [lia |].
  rewrite (digits_fuel_indep k (Z.to_nat (Z.log2 (n / 10))) (n / 10)); auto.
  apply Z.div_lt_upper_bound; [lia |].
  rewrite (Nat2Z.inj_succ (S k)), Z.pow_succ_r in B by lia. exact B.
Qed.

Lemma digits_nonempty (n : Z) : 0 <= n -> (1 <= List.length (digits n))%nat.
Proof.
  intros Hn. destruct (Z.lt_ge_cases n 10).
  - rewrite digits_small by lia. cbn. lia.
  - rewrite digits_step by lia. rewrite length_app. cbn. lia.
Qed.

(** With two digits after the point: the digits of [n / 100], the
    point, and the two digits of [n mod 100]. *)
Lemma fixed_digits_split (n : Z) :
  0 <= n ->
  fixed_digits n 2
  = digits (n / 100) ++ "."%char :: [digit (n / 10 mod 10); digit (n mod 10)].
Proof.
  intros Hn. unfold fixed_digits.
  assert (E : (if n =? 0 then ["0"%char] else digits n) = digits n).
  { destruct (Z.eqb_spec n 0) as [-> | _]; reflexivity. }
  rewrite E. cbn [Nat.eqb].
  destruct (Z.lt_ge_cases n 10) as [H10 | H10].
  - rewrite digits_small by lia. cbn [List.length Nat.leb Nat.sub Nat.add repeat app firstn skipn].
    rewrite (Z.div_small n 100), (Z.div_small n 10), (Z.mod_small n 10) by lia.
    reflexivity.
  - rewrite (digits_step n) by lia.
    destruct (Z.lt_ge_cases n 100) as [H100 | H100].
    + assert (0 <= n / 10 < 10).
      { split; [apply Z.div_pos; lia | apply Z.div_lt_upper_bound; lia]. }
      rewrite (digits_small (n / 10)) by lia.
      cbn [List.length Nat.leb Nat.sub Nat.add repeat app firstn skipn].
      rewrite (Z.div_small n 100), (Z.mod_small (n / 10) 10) by lia. reflexivity.
    + assert (10 <= n / 10) by (apply Z.div_le_lower_bound; lia).
      rewrite (digits_step (n / 10)) by lia.
      rewrite Z.div_div by lia. change (10 * 10) with 100.
      pose proof (digits_nonempty (n / 100) ltac:(apply Z.div_pos; lia)) as L.
      set (A := digits (n / 100)) in *.
      rewrite <- app_assoc. cbn [app].
      set (B := [digit ((n / 10) mod 10); digit (n mod 10)]).
      assert (Hlen : List.length (A ++ B) = (List.length A + 2)%nat)
        by (rewrite length_app; reflexivity).
      assert (Hleb : Nat.leb (List.length (A ++ B)) 2 = false)
        by (apply Nat.leb_gt; lia).
      cbv zeta. rewrite Hleb, Hlen.
      replace (List.length A + 2 - 2)%nat with (List.length A + 0)%nat by lia.
      rewrite firstn_app_2, skipn_app.
      cbn [firstn]. rewrite app_nil_r.
      rewrite skipn_all2 by lia.
      replace (List.length A + 0 - List.length A)%nat with 0%nat by lia.
      reflexivity.
Qed.

End Digits.

Section ToFixedValue.
Local Open Scope Q_scope.

(** The value of a double as a fraction with a power of two below. *)
Lemma val_fraction (m : positive) (e : Z) :
  (0 < 2 ^ Z.max (- e) 0)%Z /\
  inject_Z (Z.pos m) * bpow e * inject_Z (2 ^ Z.max (- e) 0)
  == inject_Z (Z.pos m * 2 ^ Z.max e 0).
Proof.
  split; [apply Z.pow_pos_nonneg; lia |].
  rewrite inject_Z_mult, <- !bpow_Z by lia.
  rewrite <- !Qmult_assoc, <- !bpow_add.
  destruct (Z.le_gt_cases 0 e).
  - now rewrite (Z.max_r (- e) 0), (Z.max_l e 0), Z.add_0_r by lia.
  - rewrite (Z.max_l (- e) 0), (Z.max_r e 0) by lia.
    now replace (e + - e)%Z with 0%Z by lia.
Qed.

(** [toFixed(2)] on a finite number below [10^21]: the cents [n]
    nearest to the value, the larger on a tie, printed after the
    sign. *)
Lemma toFixed_finite (ts : number -> string) (s : bool) (m : positive) (e : Z) :
  inject_Z (Z.pos m) * bpow e < inject_Z (10 ^ 21) ->
  exists n : Z,
    (0 <= n)%Z /\
    toFixed ts (S754_finite s m e) 2
    = ((if s then "-" else "") ++ string_of_list_ascii (fixed_digits n 2))%string /\
    inject_Z n <= inject_Z (Z.pos m) * bpow e * 100 + (1 # 2) /\
    inject_Z (Z.pos m) * bpow e * 100 + (1 # 2) < inject_Z n + 1.
Proof.
  intros Hv. destruct (val_fraction m e) as [Hd Hf].
  set (v := inject_Z (Z.pos m) * bpow e) in *.
  unfold toFixed.
  set (num := (Z.pos m * 2 ^ Z.max e 0)%Z) in *.
  set (den := (2 ^ Z.max (- e) 0)%Z) in *.
  assert (HD : 0 < inject_Z den) by (rewrite <- (Zlt_Qlt 0); exact Hd).
  assert (Hnum : (0 < num)%Z).
  { unfold num. apply Z.mul_pos_pos; [lia | apply Z.pow_pos_nonneg; lia]. }
  destruct (Z.leb_spec (10 ^ 21 * den) num) as [Hbig | Hsmall].
  - exfalso. rewrite Zle_Qle, inject_Z_mult, <- Hf in Hbig.
    assert (v * inject_Z den < inject_Z (10 ^ 21) * inject_Z den)
      by (apply Qmult_lt_compat_r; auto).
    lra.
  - change (10 ^ Z.of_nat 2)%Z with 100%Z.
    set (n := ((2 * num * 100 + den) / (2 * den))%Z).
    exists n.
    pose proof (Z.mul_div_le (2 * num * 100 + den) (2 * den) ltac:(lia)) as L.
    pose proof (Z.mul_succ_div_gt (2 * num * 100 + den) (2 * den) ltac:(lia)) as U.
    fold n in L, U.
    assert (Hn0 : (0 <= n)%Z) by (apply Z.div_pos; lia).
    split; [exact Hn0 |]. split; [reflexivity |].
    rewrite Zle_Qle in L. rewrite Zlt_Qlt in U.
    unfold Z.succ in U.
    rewrite !inject_Z_mult, !inject_Z_plus, !inject_Z_mult, <- Hf in L, U.
    change (inject_Z 2) with 2 in L, U. change (inject_Z 100) with 100 in L, U.
    change (inject_Z 1) with 1 in U.
    set (D := inject_Z den) in *. set (N := inject_Z n) in *.
    assert (EN : inject_Z (n + 1) == N + 1)
      by (unfold N; rewrite inject_Z_plus; reflexivity).
    rewrite EN in U.
    split.
    + apply (Qmult_le_r _ _ (2 * D)); [lra |].
      apply (Qle_trans _ (2 * (v * D) * 100 + D)); [lra |].
      apply Qle_lteq. right. ring.
    + apply (Qmult_lt_r _ _ (2 * D)); [lra |].
      apply (Qlt_le_trans _ (2 * D * (N + 1))); [| apply Qle_lteq; right; ring].
      apply (Qle_lt_trans _ (2 * (v * D) * 100 + D)); [| exact U].
      apply Qle_lteq. right. ring.
Qed.

End ToFixedValue.

Section Sign.

(** ** The sign of a rounded result *)

(** Rounding does not look at the sign. *)
Lemma round_aux_neg (M E : Z) (l : location) (m : positive) (e : Z) :
  binary_round_aux prec emax false M E l = S754_finite false m e ->
  binary_round_aux prec emax true M E l = S754_finite true m e.
Proof.
  unfold binary_round_aux.
  destruct (shr_fexp prec emax M E l) as [mrs' e'].
  destruct (shr_fexp prec emax _ e' loc_Exact) as [mrs'' e''].
  destruct (shr_m mrs'') as [| p | p]; try discriminate.
  destruct (e'' <=? emax - prec); try discriminate.
  intros H. injection H as -> ->. reflexivity.
Qed.

Lemma of_Z_neg (n : Z) (m : positive) (e : Z) :
  0 < n -> of_Z n = S754_finite false m e -> of_Z (- n) = S754_finite true m e.
Proof.
  intros Hn. destruct n as [| p | p]; try lia.
  unfold of_Z. cbn [Z.opp binary_normalize]. unfold binary_round.
  destruct (shl_align p 0 _) as [mz ez]. apply round_aux_neg.
Qed.

Lemma div_neg (mx my m : positive) (ex ey e : Z) :
  div (S754_finite false mx ex) (S754_finite false my ey) = S754_finite false m e ->
  div (S754_finite true mx ex) (S754_finite false my ey) = S754_finite true m e.
Proof.
  unfold div, SFdiv. cbn [xorb].
  destruct (SFdiv_core_binary prec emax (Z.pos mx) ex (Z.pos my) ey) as [[mz ez] lz].
  apply round_aux_neg.
Qed.

(** The double nearest to [- n / 100] is the opposite of the one
    nearest to [n / 100]. *)
Lemma decimal_neg (n : Z) (m : positive) (e : Z) :
  0 < n < 2 ^ 53 -> decimal n 2 = S754_finite false m e ->
  decimal (- n) 2 = S754_finite true m e.
Proof.
  intros Hn. change (decimal n 2) with (div (of_Z n) (of_Z 100)).
  change (decimal (- n) 2) with (div (of_Z (- n)) (of_Z 100)).
  destruct (of_Z_val n Hn) as (mn & en & Hm & _ & _).
  rewrite (of_Z_neg n mn en) by (auto; lia). rewrite Hm.
  change (of_Z 100) with (S754_finite false 7036874417766400 (-46)).
  apply div_neg.
Qed.

End Sign.

Section Regular.
Local Open Scope Q_scope.

(** ** Operations on regular numbers, with their error *)

Lemma regular_nonneg (x : number) :
  regular x -> nonneg x = true /\ isFinite x = true /\ 0 <= val x.
Proof.
  intros [-> | (m & e & -> & B & H)].
  - repeat split. cbn [val]. lra.
  - cbn [nonneg isFinite negb andb]. repeat split; auto.
    pose proof (bpow_pos (-1022)). lra.
Qed.

Lemma regular_cases (x : number) :
  regular x -> (x = S754_zero false /\ val x == 0) \/ bpow (-1022) <= val x.
Proof.
  intros [-> | (m & e & -> & B & H)]; [left; split; reflexivity | now right].
Qed.

Lemma min_normal_val :
  inject_Z (Z.pos 4503599627370496) * bpow (-1074) == bpow (-1022).
Proof.
  assert (inject_Z (Z.pos 4503599627370496) == bpow 52) as -> by reflexivity.
  rewrite <- bpow_add. reflexivity.
Qed.

(** Rounding a value in the range of the normal doubles gives a
    regular number, with a relative error of at most [2^-53]. *)
Lemma rounds_regular (v : Q) (r : number) :
  rounds v r -> bpow (-1022) <= v -> v < bpow 1023 ->
  regular r /\ val r - v <= v * bpow (-53) /\ v - val r <= v * bpow (-53).
Proof.
  intros Hr Hlo Hhi.
  destruct (rounds_error v r Hr Hlo Hhi) as (m & e & -> & B & E1 & E2).
  split; [| split; assumption].
  right. exists m, e. split; [reflexivity |]. split; [exact B |].
  assert (Hmin : rounds (inject_Z (Z.pos 4503599627370496) * bpow (-1074))
                        (S754_finite false 4503599627370496 (-1074)))
    by (apply rounds_exact; reflexivity).
  assert (L : le (S754_finite false 4503599627370496 (-1074)) (S754_finite false m e)
              = true).
  { eapply rounds_mono; [exact Hmin | exact Hr |]. rewrite min_normal_val. exact Hlo. }
  apply le_pos_val in L; auto. cbn [val signed]. rewrite <- min_normal_val. exact L.
Qed.

Lemma mul_regular (x y : number) :
  regular x -> regular y ->
  val x * val y < bpow 1023 ->
  val x * val y == 0 \/ bpow (-1022) <= val x * val y ->
  regular (mul x y) /\
  val (mul x y) - val x * val y <= val x * val y * bpow (-53) /\
  val x * val y - val (mul x y) <= val x * val y * bpow (-53).
Proof.
  intros Hx Hy Hhi Hlo.
  destruct Hx as [-> | (mx & ex & -> & Bx & Lx)].
  - assert (mul (S754_zero false) y = S754_zero false) as ->
      by (destruct Hy as [-> | (my & ey & -> & _)]; reflexivity).
    cbn [val]. split; [now left |]. split; lra.
  - destruct Hy as [-> | (my & ey & -> & By & Ly)].
    + change (mul (S754_finite false mx ex) (S754_zero false)) with (S754_zero false).
      cbn [val]. split; [now left |]. split; lra.
    + pose proof (mul_rounds mx my ex ey Bx By) as Hr.
      cbn [val signed] in *.
      destruct Hlo as [Hz | Hlo].
      * exfalso. pose proof (bpow_pos (-1022)).
        assert (0 < inject_Z (Z.pos mx) * bpow ex * (inject_Z (Z.pos my) * bpow ey))
          by (apply Qmult_lt_0_compat; lra).
        lra.
      * exact (rounds_regular _ _ Hr Hlo Hhi).
Qed.

Lemma add_regular (x y : number) :
  regular x -> regular y ->
  val x + val y < bpow 1023 ->
  regular (add x y) /\
  val (add x y) - (val x + val y) <= (val x + val y) * bpow (-53) /\
  (val x + val y) - val (add x y) <= (val x + val y) * bpow (-53).
Proof.
  intros Hx Hy Hhi.
  assert (K53 : bpow (-53) == 1 # 9007199254740992) by reflexivity.
  pose proof (bpow_pos (-1022)) as P.
  destruct Hx as [-> | (mx & ex & -> & Bx & Lx)].
  - destruct Hy as [-> | (my & ey & -> & By & Ly)].
    + change (add (S754_zero false) (S754_zero false)) with (S754_zero false).
      cbn [val]. split; [now left |]. split; lra.
    + change (add (S754_zero false) (S754_finite false my ey))
        with (S754_finite false my ey).
      split; [right; eauto |]. cbn [val signed] in *. rewrite K53. split; lra.
  - destruct Hy as [-> | (my & ey & -> & By & Ly)].
    + change (add (S754_finite false mx ex) (S754_zero false))
        with (S754_finite false mx ex).
      split; [right; eauto |]. cbn [val signed] in *. rewrite K53. split; lra.
    + pose proof (add_rounds mx my ex ey) as Hr.
      apply rounds_regular; auto. lra.
Qed.

End Regular.

Section CentSums.
Local Open Scope Q_scope.

(** ** Totals of lines in whole cents *)

Lemma decimal_regular (n : Z) :
  (0 <= n <= 10 ^ 15)%Z ->
  regular (decimal n 2) /\
  val (decimal n 2) - inject_Z n * (1 # 100) <= inject_Z n * (1 # 100) * bpow (-53) /\
  inject_Z n * (1 # 100) - val (decimal n 2) <= inject_Z n * (1 # 100) * bpow (-53).
Proof.
  intros Hn. destruct (Z.eq_dec n 0) as [-> | Hne].
  - split; [now left |]. split; vm_compute; discriminate.
  - destruct (cents_value n ltac:(lia)) as (m & e & Hm & Hb & E1 & E2).
    split; [| split; assumption].
    right. exists m, e. split; [exact Hm |]. split; [exact Hb |].
    assert (K53 : bpow (-53) == 1 # 9007199254740992) by reflexivity.
    assert (Hn1 : 1 <= inject_Z n) by (rewrite <- (Zle_Qle 1); lia).
    assert (L1 : bpow (-1022) <= bpow (-7)) by (apply bpow_le; lia).
    assert (L2 : bpow (-7) == 1 # 128) by reflexivity.
    rewrite K53 in E2. lra.
Qed.

Lemma of_Z_regular (z : Z) :
  (0 <= z < 2 ^ 53)%Z -> regular (of_Z z) /\ val (of_Z z) == inject_Z z.
Proof.
  intros Hz. destruct (Z.eq_dec z 0) as [-> | Hne].
  - split; [now left | reflexivity].
  - destruct (of_Z_val z ltac:(lia)) as (m & e & Hm & Hb & Hv).
    split; [| exact Hv]. right. exists m, e. split; [exact Hm |]. split; [exact Hb |].
    rewrite Hv.
    assert (Hz1 : 1 <= inject_Z z) by (rewrite <- (Zle_Qle 1); lia).
    assert (L1 : bpow (-1022) <= bpow 0) by (apply bpow_le; lia).
    change (bpow 0) with 1 in L1. lra.
Qed.

(** The total of one line: the price in cents times the quantity, over
    100, with a relative error of at most [3 * 2^-53]. *)
Lemma cent_product (n z : Z) :
  (0 <= n <= 10 ^ 15)%Z -> (0 <= z < 2 ^ 53)%Z ->
  regular (mul (decimal n 2) (of_Z z)) /\
  val (mul (decimal n 2) (of_Z z)) - inject_Z (n * z) * (1 # 100)
  <= 3 * bpow (-53) * (inject_Z (n * z) * (1 # 100)) /\
  inject_Z (n * z) * (1 # 100) - val (mul (decimal n 2) (of_Z z))
  <= 3 * bpow (-53) * (inject_Z (n * z) * (1 # 100)).
Proof.
  intros Hn Hz.
  destruct (decimal_regular n Hn) as (Rp & P1 & P2).
  destruct (of_Z_regular z Hz) as (Rq & Vq).
  assert (K53 : bpow (-53) == 1 # 9007199254740992) by reflexivity.
  assert (Hn0 : 0 <= inject_Z n) by (rewrite <- (Zle_Qle 0); lia).
  assert (Hn2 : inject_Z n <= 1000000000000000)
    by (change 1000000000000000 with (inject_Z (10 ^ 15)); rewrite <- Zle_Qle; lia).
  assert (Hz0 : 0 <= inject_Z z) by (rewrite <- (Zle_Qle 0); lia).
  assert (Hz2 : inject_Z z <= 9007199254740992)
    by (change 9007199254740992 with (inject_Z (2 ^ 53)); rewrite <- Zle_Qle; lia).
  set (p := val (decimal n 2)) in *. set (w := inject_Z (n * z) * (1 # 100)).
  assert (Ew : w == inject_Z n * (1 # 100) * inject_Z z)
    by (unfold w; rewrite inject_Z_mult; ring).
  rewrite K53 in P1, P2.
  assert (V1 : p * inject_Z z - w <= w * (1 # 9007199254740992)).
  { rewrite Ew.
    assert ((p - inject_Z n * (1 # 100)) * inject_Z z
            <= inject_Z n * (1 # 100) * (1 # 9007199254740992) * inject_Z z)
      by (apply Qmult_le_compat_r; lra).
    lra. }
  assert (V2 : w - p * inject_Z z <= w * (1 # 9007199254740992)).
  { rewrite Ew.
    assert ((inject_Z n * (1 # 100) - p) * inject_Z z
            <= inject_Z n * (1 # 100) * (1 # 9007199254740992) * inject_Z z)
      by (apply Qmult_le_compat_r; lra).
    lra. }
  assert (W0 : 0 <= w).
  { unfold w. assert (0 <= inject_Z (n * z)) by (rewrite <- (Zle_Qle 0); nia). lra. }
  assert (Wmax : w <= 10000000000000 * 9007199254740992).
  { rewrite Ew.
    assert (inject_Z n * (1 # 100) * inject_Z z <= 10000000000000 * inject_Z z)
      by (apply Qmult_le_compat_r; lra).
    lra. }
  assert (U1 : bpow 98 <= bpow 1023) by (apply bpow_le; lia).
  assert (U2 : bpow 98 == 316912650057057350374175801344) by reflexivity.
  destruct (mul_regular (decimal n 2) (of_Z z) Rp Rq) as (R & E1 & E2).
  - fold p. rewrite Vq. lra.
  - fold p. rewrite Vq.
    destruct (Z.eq_dec (n * z) 0) as [E0 | Hne].
    + left. assert (w == 0) by (unfold w; rewrite E0; reflexivity). lra.
    + right.
      assert (1 <= inject_Z (n * z)) by (rewrite <- (Zle_Qle 1); nia).
      assert (L1 : bpow (-1022) <= bpow (-8)) by (apply bpow_le; lia).
      assert (L2 : bpow (-8) == 1 # 256) by reflexivity.
      unfold w in *. lra.
  - fold p in E1, E2. rewrite Vq, K53 in E1, E2.
    split; [exact R |]. rewrite K53. fold w. split; lra.
Qed.

End CentSums.

Section CentTotals.
Import Pricing.
Local Open Scope Q_scope.

Lemma cent_total_nonneg (l : list (Z * Z)) :
  Forall cent_ok l -> (0 <= cent_total l)%Z.
Proof.
  induction 1 as [| nz l [Hn Hz] _ IH]; cbn [cent_total fold_right]; [lia |].
  fold (cent_total l). nia.
Qed.

Lemma cent_total_perm (l l' : list (Z * Z)) :
  Permutation l l' -> cent_total l = cent_total l'.
Proof. unfold cent_total. induction 1; simpl; lia. Qed.

(** The running sum stays within [j * B] of the exact one after [j]
    lines, [B] being six roundings of the total. *)
Lemma fold_cents (W B : Q) :
  0 <= W -> W < bpow 60 -> 6 * bpow (-53) * W <= B ->
  forall (l : list (Z * Z)) (s : number) (W0 J : Q),
    Forall cent_ok l -> regular s -> 0 <= W0 -> 0 <= J ->
    W0 + inject_Z (cent_total l) * (1 # 100) == W ->
    val s - W0 <= J * B -> W0 - val s <= J * B ->
    (J + inject_Z (Z.of_nat (List.length l))) * B <= W ->
    regular (fold_left (fun sum item => add sum (mul (price item) (quantity item)))
               (map cent_line l) s) /\
    val (fold_left (fun sum item => add sum (mul (price item) (quantity item)))
           (map cent_line l) s) - W
    <= (J + inject_Z (Z.of_nat (List.length l))) * B /\
    W - val (fold_left (fun sum item => add sum (mul (price item) (quantity item)))
               (map cent_line l) s)
    <= (J + inject_Z (Z.of_nat (List.length l))) * B.
Proof.
  intros HW0 HWmax HB.
  assert (K53 : bpow (-53) == 1 # 9007199254740992) by reflexivity.
  assert (K60 : bpow 60 == 1152921504606846976) by reflexivity.
  assert (U1 : bpow 62 <= bpow 1023) by (apply bpow_le; lia).
  assert (U2 : bpow 62 == 4611686018427387904) by reflexivity.
  rewrite K53 in HB. rewrite K60 in HWmax.
  assert (HB0 : 0 <= B) by lra.
  induction l as [| [n z] l IH]; intros s W0 J Hl Rs HW00 HJ HW E1 E2 HJB.
  - cbn [map fold_left List.length Z.of_nat cent_total fold_right] in *.
    change (inject_Z 0) with 0 in *.
    split; [exact Rs |]. split; lra.
  - inversion Hl as [| ? ? [Hn Hz] Hl']; subst. cbn [fst snd] in Hn, Hz.
    cbn [map fold_left].
    change (mul (price (cent_line (n, z))) (quantity (cent_line (n, z))))
      with (mul (decimal n 2) (of_Z z)).
    change (cent_total ((n, z) :: l)) with (n * z + cent_total l)%Z in HW.
    rewrite inject_Z_plus in HW.
    pose proof (cent_total_nonneg l Hl') as Hrest.
    assert (Hrest' : 0 <= inject_Z (cent_total l)) by (rewrite <- (Zle_Qle 0); exact Hrest).
    assert (Hlen : inject_Z (Z.of_nat (List.length ((n, z) :: l)))
                   == inject_Z (Z.of_nat (List.length l)) + 1).
    { cbn [List.length]. rewrite Nat2Z.inj_succ. unfold Z.succ.
      rewrite inject_Z_plus. reflexivity. }
    assert (HL0 : 0 <= inject_Z (Z.of_nat (List.length l)))
      by (rewrite <- (Zle_Qle 0); lia).
    rewrite Hlen in HJB |- *.
    destruct (cent_product n z Hn Hz) as (Rt & T1 & T2).
    set (t := mul (decimal n 2) (of_Z z)) in *.
    set (w := inject_Z (n * z) * (1 # 100)) in *.
    rewrite K53 in T1, T2.
    assert (Hw0 : 0 <= w).
    { unfold w. assert (0 <= inject_Z (n * z)) by (rewrite <- (Zle_Qle 0); nia). lra. }
    assert (Ew : w == inject_Z (n * z) * (1 # 100)) by reflexivity.
    clearbody w.
    assert (HLB : 0 <= inject_Z (Z.of_nat (List.length l)) * B)
      by (apply Qmult_le_0_compat; auto).
    assert (HJB0 : 0 <= J * B) by (apply Qmult_le_0_compat; auto).
    destruct (regular_nonneg s Rs) as (_ & _ & Vs0).
    destruct (regular_nonneg t Rt) as (_ & _ & Vt0).
    destruct (add_regular s t Rs Rt) as (Rs' & A1 & A2); [lra |].
    rewrite K53 in A1, A2.
    assert (EJ : (J + 1 + inject_Z (Z.of_nat (List.length l))) * B
                 == (J + (inject_Z (Z.of_nat (List.length l)) + 1)) * B) by ring.
    destruct (IH (add s t) (W0 + w) (J + 1)) as (R & F1 & F2); auto; try lra.
    rewrite EJ in F1, F2. auto.
Qed.

(** The total of lines in whole cents is exact to the cent. *)
Lemma calculateTotal_cent_lines (l : list (Z * Z)) :
  Forall cent_ok l ->
  ((Z.of_nat (List.length l) + 2) * cent_total l <= 2 ^ 49)%Z ->
  calculateTotal (map cent_line l) = decimal (cent_total l) 2.
Proof.
  intros Hl Hk.
  pose proof (cent_total_nonneg l Hl) as HT0.
  set (T := cent_total l) in *. set (k := Z.of_nat (List.length l)) in *.
  assert (Hk0 : (0 <= k)%Z) by (unfold k; lia).
  assert (HT49 : (T <= 2 ^ 49)%Z) by nia.
  assert (K53 : bpow (-53) == 1 # 9007199254740992) by reflexivity.
  set (W := inject_Z T * (1 # 100)).
  set (B := 6 * bpow (-53) * W).
  assert (QT0 : 0 <= inject_Z T) by (rewrite <- (Zle_Qle 0); exact HT0).
  assert (QT49 : inject_Z T <= 562949953421312)
    by (change 562949953421312 with (inject_Z (2 ^ 49)); rewrite <- Zle_Qle; exact HT49).
  assert (Qk0 : 0 <= inject_Z k) by (rewrite <- (Zle_Qle 0); exact Hk0).
  assert (QkT : inject_Z k * inject_Z T + 2 * inject_Z T <= 562949953421312).
  { change 562949953421312 with (inject_Z (2 ^ 49)). change 2 with (inject_Z 2) at 1.
    rewrite <- !inject_Z_mult, <- inject_Z_plus, <- Zle_Qle. lia. }
  assert (QkT0 : 0 <= inject_Z k * inject_Z T) by (apply Qmult_le_0_compat; auto).
  assert (QkT1 : inject_Z k * inject_Z T <= 562949953421312 * inject_Z T).
  { destruct (Z.eq_dec T 0) as [E0 | Hne].
    - rewrite E0. change (inject_Z 0) with 0. lra.
    - apply Qmult_le_compat_r; auto.
      change 562949953421312 with (inject_Z (2 ^ 49)). rewrite <- Zle_Qle. nia. }
  assert (K60 : bpow 60 == 1152921504606846976) by reflexivity.
  assert (EkB : inject_Z k * B
                == (6 # 900719925474099200) * (inject_Z k * inject_Z T)).
  { unfold B, W. rewrite K53. ring. }
  destruct (fold_cents W B) with (l := l) (s := of_Z 0) (W0 := 0) (J := 0)
    as (RS & S1 & S2); auto.
  - unfold W. lra.
  - unfold W. rewrite K60. lra.
  - unfold B. lra.
  - now left.
  - lra.
  - lra.
  - fold T. unfold W. lra.
  - cbn [val of_Z]. change (val (of_Z 0)) with 0. lra.
  - change (val (of_Z 0)) with 0. lra.
  - fold k. rewrite Qplus_0_l, EkB. unfold W. lra.
  - fold k in S1, S2. rewrite Qplus_0_l, EkB in S1, S2.
    unfold calculateTotal.
    set (S := fold_left _ _ (of_Z 0)) in *.
    destruct (Z.eq_dec T 0) as [E0 | Hne].
    + assert (VS : val S == 0).
      { unfold W in S1, S2. rewrite E0 in *. change (inject_Z 0) with 0 in *.
        destruct (regular_nonneg S RS) as (_ & _ & V0). lra. }
      destruct (regular_cases S RS) as [[-> _] | H].
      * rewrite E0. reflexivity.
      * exfalso. pose proof (bpow_pos (-1022)). lra.
    + assert (QT1 : 1 <= inject_Z T) by (rewrite <- (Zle_Qle 1); lia).
      assert (Hy : Math_round (mul S (of_Z 100)) = of_Z T); [| now rewrite Hy].
      assert (R100 : regular (of_Z 100)).
      { right. exists 7036874417766400%positive, (-46)%Z. repeat split.
        vm_compute. discriminate. }
      assert (K100 : val (of_Z 100) == 100) by reflexivity.
      assert (U1 : bpow 62 <= bpow 1023) by (apply bpow_le; lia).
      assert (U2 : bpow 62 == 4611686018427387904) by reflexivity.
      assert (L1 : bpow (-1022) <= bpow (-8)) by (apply bpow_le; lia).
      assert (L2 : bpow (-8) == 1 # 256) by reflexivity.
      unfold W in S1, S2.
      destruct (mul_regular S (of_Z 100) RS R100) as (Ry & Y1 & Y2).
      * rewrite K100. lra.
      * right. rewrite K100. lra.
      * rewrite K100, K53 in Y1, Y2.
        destruct (regular_nonneg _ Ry) as (Ny & Fy & _).
        apply Math_round_near; auto; [lia | lra | lra].
Qed.

(** So it is the same in any order of the lines. *)
Lemma cent_lines_perm (l : list (Z * Z)) (items : list PricedLine) :
  Forall cent_ok l ->
  ((Z.of_nat (List.length l) + 2) * cent_total l <= 2 ^ 49)%Z ->
  Permutation (map cent_line l) items ->
  calculateTotal items = decimal (cent_total l) 2.
Proof.
  intros Hl Hk Hperm.
  apply Permutation_sym, Permutation_map_inv in Hperm as (l2 & -> & Hp).
  assert (Hl2 : Forall cent_ok l2) by (eapply Permutation_Forall; eauto).
  pose proof (cent_total_perm _ _ Hp) as Ht.
  pose proof (Permutation_length Hp) as Hlen.
  rewrite calculateTotal_cent_lines; auto; [now rewrite Ht |].
  rewrite <- Hlen, <- Ht. exact Hk.
Qed.

End CentTotals.

Section AbsoluteError.
Local Open Scope Q_scope.

(** ** The error of one rounding, subnormal results included *)

Lemma clean_cases (x : number) :
  clean x = true ->
  x = S754_zero false \/
  exists m e, x = S754_finite false m e /\ bounded prec emax m e = true.
Proof.
  destruct x as [s | s | | s m e]; try discriminate; destruct s; try discriminate.
  - now left.
  - intros H. right. eauto.
Qed.

Lemma clean_nonneg (x : number) :
  clean x = true -> nonneg x = true /\ isFinite x = true /\ 0 <= val x.
Proof.
  intros H. destruct (clean_cases x H) as [-> | (m & e & -> & B)].
  - repeat split. cbn [val]. lra.
  - cbn [nonneg isFinite negb andb]. repeat split; auto.
    pose proof (val_pos m e). lra.
Qed.


(** Rounding a value below [2^1023]: the error is at most [2^-53] of
    the value, or half the spacing of the subnormals. *)
Lemma rounds_error0 (v : Q) (r : number) :
  rounds v r -> 0 <= v -> v < bpow 1023 ->
  clean r = true /\
  val r - v <= v * bpow (-53) + bpow (-1075) /\
  v - val r <= v * bpow (-53) + bpow (-1075).
Proof.
  intros Hr H0 Hhi.
  destruct (rounds_cases _ _ Hr) as (N & F & Hg & Hn & C).
  destruct Hn as [[Hn1 Hn2] _].
  pose proof (bpow_pos F) as PF.
  destruct (div_bounds _ _ _ _ PF Hn1 Hn2) as [B1 B2].
  assert (K53 : bpow (-53) == 1 # 9007199254740992) by reflexivity.
  pose proof (bpow_pos (-1075)) as Peta.
  assert (Hh : bpow F * (1 # 2) <= v * bpow (-53) + bpow (-1075)).
  { destruct Hg as [[-> _] | [_ [HF _]]].
    - assert (bpow (-1074) == 2 * bpow (-1075)) by (apply (bpow_succ (-1075))).
      rewrite K53. lra.
    - assert (E52 : bpow (F + 52) == bpow F * bpow 52) by apply bpow_add.
      assert (K52 : bpow 52 == 4503599627370496) by reflexivity.
      rewrite E52, K52 in HF. rewrite K53. lra. }
  assert (E1 : inject_Z N * bpow F - v <= v * bpow (-53) + bpow (-1075)) by lra.
  assert (E2 : v - inject_Z N * bpow F <= v * bpow (-53) + bpow (-1075)) by lra.
  destruct C as [[-> ->] | [(m & e & -> & Bm & Vm) | [-> Vi]]].
  - split; [reflexivity |]. cbn [val]. change (inject_Z 0) with 0 in *. split; lra.
  - split; [exact Bm |]. cbn [val signed]. rewrite Vm. auto.
  - exfalso.
    assert (bpow 1024 == 2 * bpow 1023) by (apply (bpow_succ 1023)).
    assert (L1 : bpow (-1075) <= bpow (-1)) by (apply bpow_le; lia).
    assert (L2 : bpow 1 <= bpow 1023) by (apply bpow_le; lia).
    change (bpow (-1)) with (1 # 2) in L1. change (bpow 1) with 2 in L2.
    rewrite K53 in E1. lra.
Qed.

Lemma mul_error0 (x y : number) :
  clean x = true -> clean y = true -> val x * val y < bpow 1023 ->
  clean (mul x y) = true /\
  val (mul x y) - val x * val y <= val x * val y * bpow (-53) + bpow (-1075) /\
  val x * val y - val (mul x y) <= val x * val y * bpow (-53) + bpow (-1075).
Proof.
  intros Hx Hy Hhi. pose proof (bpow_pos (-1075)) as Peta.
  destruct (clean_cases x Hx) as [-> | (mx & ex & -> & Bx)].
  - assert (mul (S754_zero false) y = S754_zero false) as ->
      by (destruct (clean_cases y Hy) as [-> | (my & ey & -> & _)]; reflexivity).
    cbn [val]. split; [reflexivity |]. split; lra.
  - destruct (clean_cases y Hy) as [-> | (my & ey & -> & By)].
    + change (mul (S754_finite false mx ex) (S754_zero false)) with (S754_zero false).
      cbn [val]. split; [reflexivity |]. split; lra.
    + apply rounds_error0; auto.
      * now apply mul_rounds.
      * pose proof (val_pos mx ex). pose proof (val_pos my ey).
        apply Qlt_le_weak, Qmult_lt_0_compat; auto.
Qed.

Lemma add_error0 (x y : number) :
  clean x = true -> clean y = true -> val x + val y < bpow 1023 ->
  clean (add x y) = true /\
  val (add x y) - (val x + val y) <= (val x + val y) * bpow (-53) + bpow (-1075) /\
  (val x + val y) - val (add x y) <= (val x + val y) * bpow (-53) + bpow (-1075).
Proof.
  intros Hx Hy Hhi. pose proof (bpow_pos (-1075)) as Peta.
  assert (K53 : bpow (-53) == 1 # 9007199254740992) by reflexivity.
  destruct (clean_cases x Hx) as [-> | (mx & ex & -> & Bx)];
    destruct (clean_cases y Hy) as [-> | (my & ey & -> & By)].
  - change (add (S754_zero false) (S754_zero false)) with (S754_zero false).
    cbn [val]. split; [reflexivity |]. split; lra.
  - change (add (S754_zero false) (S754_finite false my ey))
      with (S754_finite false my ey).
    pose proof (val_pos my ey). split; [exact By |]. cbn [val] in *. rewrite K53. split; lra.
  - change (add (S754_finite false mx ex) (S754_zero false))
      with (S754_finite false mx ex).
    pose proof (val_pos mx ex). split; [exact Bx |]. cbn [val] in *. rewrite K53. split; lra.
  - pose proof (val_pos mx ex). pose proof (val_pos my ey).
    apply rounds_error0; auto; [apply add_rounds | lra].
Qed.





End AbsoluteError.

Section Signed.
Local Open Scope Q_scope.

(** ** Amounts of either sign *)





Lemma val_with_sign (s : bool) (x : number) :
  clean x = true -> val (with_sign s x) == (if s then - val x else val x).
Proof.
  intros H. destruct (clean_cases x H) as [-> | (m & e & -> & _)]; destruct s;
    cbn [with_sign val signed]; try reflexivity.
  change (Z.neg m) with (- Z.pos m)%Z. rewrite inject_Z_opp. ring.
Qed.



(** The result of [Math.round] on a number that is not integral is the
    integer [n] with [n - 1/2 <= x < n + 1/2]: the nearest one, and on
    a tie the one above. *)
Lemma Math_round_nearest (s : bool) (m : positive) (e : Z) :
  isInteger (S754_finite s m e) = false ->
  exists n : Z,
    ((2 * n - 1) * 2 ^ (- e) <= 2 * signed s m < (2 * n + 1) * 2 ^ (- e))%Z /\
    Math_round (S754_finite s m e) = if (n =? 0)%Z then S754_zero s else of_Z n.
Proof.
  intros Hi. unfold Math_round. rewrite Hi.
  exists ((2 * signed s m + 2 ^ (- e)) / 2 ^ (1 - e))%Z. split; [| reflexivity].
  unfold isInteger in Hi. apply orb_false_iff in Hi as [He _].
  apply Z.leb_gt in He.
  assert (Hp : (0 < 2 ^ (- e))%Z) by (apply Z.pow_pos_nonneg; lia).
  replace (1 - e)%Z with (Z.succ (- e)) by lia. rewrite Z.pow_succ_r by lia.
  set (k := (2 ^ (- e))%Z) in *. set (x := (2 * signed s m + k)%Z).
  pose proof (Z.mul_div_le x (2 * k)) as H1.
  pose proof (Z.mul_succ_div_gt x (2 * k)) as H2.
  unfold x in *. nia.
Qed.

(** [Math.round] on a finite number of either sign, below [2^53] in
    size: the integer within one half of it, the upper one on a tie;
    a zero result keeps the sign. *)
Lemma Math_round_signed (s : bool) (m : positive) (e : Z) :
  bounded prec emax m e = true -> val (S754_finite false m e) < bpow 53 ->
  exists n : Z,
    inject_Z n - (1 # 2) <= val (S754_finite s m e) /\
    val (S754_finite s m e) < inject_Z n + (1 # 2) /\
    (Math_round (S754_finite s m e) = of_Z n \/
     (n = 0%Z /\ Math_round (S754_finite s m e) = S754_zero s)).
Proof.
  intros B Hlt.
  assert (Vs : val (S754_finite s m e)
               == (if s then - val (S754_finite false m e) else val (S754_finite false m e))).
  { apply (val_with_sign s (S754_finite false m e)). exact B. }
  pose proof (val_pos m e) as P.
  destruct (isInteger (S754_finite s m e)) eqn:Hi.
  - assert (Hi' : isInteger (S754_finite false m e) = true) by exact Hi.
    assert (Nx : nonneg (S754_finite false m e) = true) by exact B.
    destruct (Math_round_val _ Nx eq_refl) as (_ & _ & V).
    assert (R' : Math_round (S754_finite false m e) = S754_finite false m e)
      by (unfold Math_round; now rewrite Hi').
    assert (R : Math_round (S754_finite s m e) = S754_finite s m e)
      by (unfold Math_round; now rewrite Hi).
    rewrite R' in V. set (z := Qfloor (val (S754_finite false m e) + (1 # 2))) in *.
    assert (Hz : (0 < z < 2 ^ 53)%Z).
    { rewrite V in P, Hlt. change (bpow 53) with (inject_Z (2 ^ 53)) in Hlt.
      rewrite <- (Zlt_Qlt 0) in P. rewrite <- Zlt_Qlt in Hlt. lia. }
    pose proof (of_Z_unique _ z Nx eq_refl Hz V) as E.
    destruct s.
    + exists (- z)%Z. rewrite Vs, V, inject_Z_opp, R.
      split; [lra |]. split; [lra |]. left.
      symmetry. apply of_Z_neg; [lia | now symmetry].
    + exists z. rewrite V, R. split; [lra |]. split; [lra |]. now left.
  - destruct (Math_round_nearest s m e Hi) as (n & [H1 H2] & R).
    exists n.
    unfold isInteger in Hi. apply orb_false_iff in Hi as [He _].
    apply Z.leb_gt in He.
    set (k := (- e)%Z) in *. assert (Hk : (0 <= k)%Z) by (unfold k; lia).
    assert (PE : bpow k * bpow e == 1).
    { rewrite <- bpow_add. replace (k + e)%Z with 0%Z by (unfold k; lia). reflexivity. }
    pose proof (bpow_pos e) as Pe.
    assert (Q1 : inject_Z ((2 * n - 1) * 2 ^ k) == (2 * inject_Z n - 1) * bpow k).
    { rewrite inject_Z_mult, <- (bpow_Z k) by lia. unfold Z.sub.
      rewrite inject_Z_plus, inject_Z_mult. reflexivity. }
    assert (Q2 : inject_Z ((2 * n + 1) * 2 ^ k) == (2 * inject_Z n + 1) * bpow k).
    { rewrite inject_Z_mult, <- (bpow_Z k) by lia.
      rewrite inject_Z_plus, inject_Z_mult. reflexivity. }
    assert (Q3 : inject_Z (2 * signed s m) == 2 * inject_Z (signed s m)).
    { rewrite inject_Z_mult. reflexivity. }
    rewrite Zle_Qle, Q1, Q3 in H1. rewrite Zlt_Qlt, Q2, Q3 in H2.
    apply (fun h => Qmult_le_compat_r _ _ (bpow e) h (Qlt_le_weak _ _ Pe)) in H1.
    apply (fun h => Qmult_lt_compat_r _ _ (bpow e) Pe h) in H2.
    rewrite <- !Qmult_assoc, PE in H1, H2.
    cbn [val]. split; [lra |]. split; [lra |].
    rewrite R. destruct (Z.eqb_spec n 0) as [-> | Hn]; [right | left]; auto.
Qed.

Lemma round_half_away_near (q : Q) :
  q - (1 # 2) <= inject_Z (Pricing.round_half_away q) <= q + (1 # 2).
Proof.
  unfold Pricing.round_half_away. destruct (Qle_bool 0 q).
  - pose proof (Qfloor_le (q + (1 # 2))). pose proof (Qlt_floor (q + (1 # 2))) as L.
    rewrite inject_Z_plus in L. change (inject_Z 1) with 1 in L. split; lra.
  - pose proof (Qfloor_le (- q + (1 # 2))). pose proof (Qlt_floor (- q + (1 # 2))) as L.
    rewrite inject_Z_plus in L. change (inject_Z 1) with 1 in L.
    rewrite inject_Z_opp. split; lra.
Qed.


End Signed.

Section Totals.
Import Pricing.
Local Open Scope Q_scope.

(** ** Totals of lines of any prices *)

Lemma exact_total_nonneg (items : list PricedLine) :
  Forall (fun i => clean (price i) = true /\ clean (quantity i) = true) items ->
  0 <= exact_total items.
Proof.
  induction 1 as [| i l [Hp Hq] _ IH]; cbn [exact_total fold_right]; [lra |].
  fold (exact_total l).
  destruct (clean_nonneg _ Hp) as (_ & _ & Vp).
  destruct (clean_nonneg _ Hq) as (_ & _ & Vq).
  pose proof (Qmult_le_0_compat _ _ Vp Vq). lra.
Qed.

Lemma exact_total_perm (l l' : list PricedLine) :
  Permutation l l' -> exact_total l == exact_total l'.
Proof.
  induction 1 as [| x l l' _ IH | x y l | l l' l'' _ IH1 _ IH2].
  - reflexivity.
  - cbn [exact_total fold_right]. fold (exact_total l). fold (exact_total l').
    rewrite IH. reflexivity.
  - cbn [exact_total fold_right]. ring.
  - rewrite IH1. exact IH2.
Qed.

(** The running sum stays within [j * B] of the exact one after [j]
    lines, [B] being six roundings of the total. *)
Lemma fold_error (W B : Q) :
  0 <= W -> W < bpow 60 -> 6 * bpow (-53) * (W + 1) <= B ->
  forall (l : list PricedLine) (s : number) (W0 J : Q),
    Forall (fun i => clean (price i) = true /\ clean (quantity i) = true) l ->
    clean s = true -> 0 <= W0 -> 0 <= J ->
    W0 + exact_total l == W ->
    val s - W0 <= J * B -> W0 - val s <= J * B ->
    (J + inject_Z (Z.of_nat (List.length l))) * B <= W + 1 ->
    clean (fold_left (fun sum item => add sum (mul (price item) (quantity item))) l s)
    = true /\
    val (fold_left (fun sum item => add sum (mul (price item) (quantity item))) l s) - W
    <= (J + inject_Z (Z.of_nat (List.length l))) * B /\
    W - val (fold_left (fun sum item => add sum (mul (price item) (quantity item))) l s)
    <= (J + inject_Z (Z.of_nat (List.length l))) * B.
Proof.
  intros HW0 HWmax HB.
  assert (K53 : bpow (-53) == 1 # 9007199254740992) by reflexivity.
  assert (K60 : bpow 60 == 1152921504606846976) by reflexivity.
  assert (U1 : bpow 62 <= bpow 1023) by (apply bpow_le; lia).
  assert (U2 : bpow 62 == 4611686018427387904) by reflexivity.
  pose proof (bpow_pos (-1075)) as Peta.
  assert (Eta : bpow (-1075) <= 1 # 9007199254740992).
  { rewrite <- K53. apply bpow_le. lia. }
  rewrite K53 in HB. rewrite K60 in HWmax.
  assert (HB0 : 0 <= B) by lra.
  induction l as [| i l IH]; intros s W0 J Hl Cs HW00 HJ HW E1 E2 HJB.
  - cbn [fold_left List.length Z.of_nat exact_total fold_right] in *.
    change (inject_Z 0) with 0 in *.
    split; [exact Cs |]. split; lra.
  - inversion Hl as [| ? ? [Hp Hq] Hl']; subst.
    cbn [fold_left].
    cbn [exact_total fold_right] in HW. fold (exact_total l) in HW.
    pose proof (exact_total_nonneg l Hl') as Hrest.
    assert (Hlen : inject_Z (Z.of_nat (List.length (i :: l)))
                   == inject_Z (Z.of_nat (List.length l)) + 1).
    { cbn [List.length]. rewrite Nat2Z.inj_succ. unfold Z.succ.
      rewrite inject_Z_plus. reflexivity. }
    assert (HL0 : 0 <= inject_Z (Z.of_nat (List.length l)))
      by (rewrite <- (Zle_Qle 0); lia).
    rewrite Hlen in HJB |- *.
    destruct (clean_nonneg _ Hp) as (_ & _ & Vp).
    destruct (clean_nonneg _ Hq) as (_ & _ & Vq).
    pose proof (Qmult_le_0_compat _ _ Vp Vq) as Hw0.
    set (w := val (price i) * val (quantity i)) in *.
    destruct (mul_error0 (price i) (quantity i) Hp Hq) as (Ct & T1 & T2);
      [fold w; lra |].
    fold w in T1, T2.
    set (t := mul (price i) (quantity i)) in *.
    rewrite K53 in T1, T2. clearbody w.
    assert (HLB : 0 <= inject_Z (Z.of_nat (List.length l)) * B)
      by (apply Qmult_le_0_compat; auto).
    assert (HJB0 : 0 <= J * B) by (apply Qmult_le_0_compat; auto).
    destruct (clean_nonneg s Cs) as (_ & _ & Vs0).
    destruct (clean_nonneg t Ct) as (_ & _ & Vt0).
    destruct (add_error0 s t Cs Ct) as (Cs' & A1 & A2); [lra |].
    rewrite K53 in A1, A2.
    assert (EJ : (J + 1 + inject_Z (Z.of_nat (List.length l))) * B
                 == (J + (inject_Z (Z.of_nat (List.length l)) + 1)) * B) by ring.
    destruct (IH (add s t) (W0 + w) (J + 1)) as (R & F1 & F2); auto; try lra.
    rewrite EJ in F1, F2. auto.
Qed.

(** The total of at most [2^20] lines with non-negative finite prices
    and quantities, up to ten trillion in all: the double nearest to a
    whole number [n] of cents, where [n] is what [Math.round] makes of
    the scaled double sum. *)
Lemma total_cents (items : list PricedLine) :
  Forall (fun i => clean (price i) = true /\ clean (quantity i) = true) items ->
  exact_total items <= inject_Z (10 ^ 13) ->
  (Z.of_nat (List.length items) <= 2 ^ 20)%Z ->
  exists (n : Z) (v : Q),
    calculateTotal items = decimal n 2 /\
    inject_Z n - (1 # 2) <= v /\ v < inject_Z n + (1 # 2) /\
    v - 100 * exact_total items
    <= (inject_Z (Z.of_nat (List.length items)) + 1) * (exact_total items + 1)
       * bpow (-43) /\
    100 * exact_total items - v
    <= (inject_Z (Z.of_nat (List.length items)) + 1) * (exact_total items + 1)
       * bpow (-43).
Proof.
  intros Hl HW Hk.
  pose proof (exact_total_nonneg items Hl) as HW0.
  set (W := exact_total items) in *. set (k := Z.of_nat (List.length items)) in *.
  assert (Hk0 : (0 <= k)%Z) by (unfold k; lia).
  assert (K53 : bpow (-53) == 1 # 9007199254740992) by reflexivity.
  assert (K43 : bpow (-43) == 1 # 8796093022208) by reflexivity.
  assert (K60 : bpow 60 == 1152921504606846976) by reflexivity.
  change (inject_Z (10 ^ 13)) with 10000000000000 in HW.
  set (B := 6 * bpow (-53) * (W + 1)).
  assert (Qk0 : 0 <= inject_Z k) by (rewrite <- (Zle_Qle 0); exact Hk0).
  assert (Qk20 : inject_Z k <= 1048576)
    by (change 1048576 with (inject_Z (2 ^ 20)); rewrite <- Zle_Qle; exact Hk).
  assert (QkW0 : 0 <= inject_Z k * W) by (apply Qmult_le_0_compat; auto).
  assert (QkW1 : inject_Z k * W <= 1048576 * W) by (apply Qmult_le_compat_r; auto).
  assert (EkB : inject_Z k * B
                == (6 # 9007199254740992) * (inject_Z k * W + inject_Z k)).
  { unfold B. rewrite K53. ring. }
  pose proof (bpow_pos (-1075)) as Peta.
  assert (Eta : bpow (-1075) <= 1 # 9007199254740992).
  { rewrite <- K53. apply bpow_le. lia. }
  destruct (fold_error W B) with (l := items) (s := of_Z 0) (W0 := 0) (J := 0)
    as (CS & S1 & S2); auto.
  - rewrite K60. lra.
  - unfold B. lra.
  - lra.
  - lra.
  - fold W. lra.
  - change (val (of_Z 0)) with 0. lra.
  - change (val (of_Z 0)) with 0. lra.
  - fold k. rewrite Qplus_0_l, EkB. lra.
  - fold k in S1, S2. rewrite Qplus_0_l, EkB in S1, S2.
    unfold calculateTotal.
    set (S := fold_left _ _ (of_Z 0)) in *.
    destruct (clean_nonneg S CS) as (_ & _ & VS0).
    assert (K100 : val (of_Z 100) == 100) by reflexivity.
    assert (U1 : bpow 62 <= bpow 1023) by (apply bpow_le; lia).
    assert (U2 : bpow 62 == 4611686018427387904) by reflexivity.
    destruct (mul_error0 S (of_Z 100) CS eq_refl) as (Cy & Y1 & Y2);
      [rewrite K100; lra |].
    rewrite K100, K53 in Y1, Y2.
    set (y := mul S (of_Z 100)) in *.
    destruct (clean_cases y Cy) as [Ey | (m & e & Ey & By)].
    + exists 0%Z, (val y). rewrite Ey in *. cbn [val] in *.
      change (inject_Z 0) with 0.
      split; [reflexivity |]. split; [lra |]. split; [lra |]. rewrite K43. split; lra.
    + rewrite Ey in *.
      destruct (Math_round_signed false m e By) as (n & N1 & N2 & R).
      { assert (bpow 53 == 9007199254740992) as -> by reflexivity. lra. }
      exists n, (val (S754_finite false m e)).
      split; [| split; [exact N1 | split; [exact N2 | rewrite K43; split; lra]]].
      destruct R as [-> | [-> ->]]; reflexivity.
Qed.

End Totals.

(** * The properties of the specification *)

(** C1. A cart with discount 10 and one line of unit price 80 and
    quantity 1 renders subtotal 80, discountedTotal 72, tax 7.2 and
    total 79.2, the total being discountedTotal + tax rounded to 2
    decimals. *)
Theorem useCart_discount_scenario (i n img : string) :
  let line := Cart.mkItem (Cart.mkProduct i n (of_Z 80) img) (of_Z 1) in
  exists v,
    Cart.useCart (Some (of_Z 10)) [line] = Return v /\
    Cart.items v = [line] /\
    Cart.subtotal v = of_Z 80 /\
    Cart.discountedTotal v = of_Z 72 /\
    Cart.tax v = decimal 72 1 /\
    Cart.total v = decimal 792 1 /\
    Cart.total v = Pricing.round2 (add (Cart.discountedTotal v) (Cart.tax v)).
Proof.
  intros line. eexists. split; [reflexivity |].
  cbn [Cart.items Cart.subtotal Cart.discountedTotal Cart.tax Cart.total].
  repeat split; vm_compute; reflexivity.
Qed.

(** Comparisons against zero. *)
Lemma gt_0_not_le (q : number) : gt q (of_Z 0) = true -> le q (of_Z 0) = false.
Proof. destruct q as [s | s | | s m e]; try destruct s; cbv; congruence. Qed.

Lemma le_0_not_lt (d : number) : le (of_Z 0) d = true -> lt d (of_Z 0) = false.
Proof. destruct d as [s | s | | s m e]; try destruct s; cbv; congruence. Qed.

Lemma le_not_gt (x y : number) : le x y = true -> gt x y = false.
Proof.
  unfold le, gt, SFleb, SFltb.
  destruct x as [sx | sx | | sx mx ex], y as [sy | sy | | sy my ey];
    try destruct sx; try destruct sy; simpl; try congruence.
  - destruct (Z.compare_spec ex ey), (Z.compare_spec ey ex); try lia; try congruence.
    replace (Pos.compare_cont Eq my mx) with (CompOpp (Pos.compare_cont Eq mx my))
      by (rewrite Pos.compare_cont_antisym; reflexivity).
    destruct (Pos.compare_cont Eq mx my); simpl; congruence.
  - destruct (Z.compare_spec ex ey), (Z.compare_spec ey ex); try lia; try congruence.
    replace (Pos.compare_cont Eq my mx) with (CompOpp (Pos.compare_cont Eq mx my))
      by (rewrite Pos.compare_cont_antisym; reflexivity).
    destruct (Pos.compare_cont Eq mx my); simpl; congruence.
Qed.

(** C4. calculateDiscount throws exactly when discountPercent < 0 or
    discountPercent > 100, and then with its one error; for a
    discountPercent between 0 and 100 it returns a number. *)
Theorem calculateDiscount_throws_iff (price discountPercent : number) :
  ((exists e, Pricing.calculateDiscount price discountPercent = Throw e) <->
   (lt discountPercent (of_Z 0) = true \/ gt discountPercent (of_Z 100) = true))
  /\
  (forall e, Pricing.calculateDiscount price discountPercent = Throw e ->
             e = Error "Discount must be between 0 and 100")
  /\
  (le (of_Z 0) discountPercent = true /\ le discountPercent (of_Z 100) = true ->
   exists v, Pricing.calculateDiscount price discountPercent = Return v).
Proof.
  unfold Pricing.calculateDiscount.
  repeat split.
  - intros [e He].
    destruct (lt discountPercent (of_Z 0)); [now left |].
    destruct (gt discountPercent (of_Z 100)); [now right | discriminate].
  - intros H. eexists.
    destruct H as [-> | ->]; [| rewrite orb_true_r]; reflexivity.
  - intros e.
    destruct (lt discountPercent (of_Z 0) || gt discountPercent (of_Z 100));
      congruence.
  - intros [H0 H100].
    rewrite (le_0_not_lt _ H0), (le_not_gt _ _ H100). eexists. reflexivity.
Qed.

(** ** The cart reducers *)

Section CartLists.
Import Cart.

Lemma find_id_some (pid : string) (l : list CartItem) :
  In pid (ids l) ->
  exists i, find (fun i => String.eqb (id (product i)) pid) l = Some i.
Proof.
  induction l as [| x l IH]; simpl; [tauto |].
  intros [H | H].
  - subst. rewrite String.eqb_refl. eauto.
  - destruct (String.eqb (id (product x)) pid); eauto.
Qed.

Lemma find_id_none (pid : string) (l : list CartItem) :
  ~ In pid (ids l) ->
  find (fun i => String.eqb (id (product i)) pid) l = None.
Proof.
  induction l as [| x l IH]; simpl; [tauto |].
  intros H. destruct (String.eqb_spec (id (product x)) pid) as [E | E].
  - tauto.
  - apply IH. tauto.
Qed.

Lemma map_absent (pid : string) (f : CartItem -> CartItem) (l : list CartItem) :
  ~ In pid (ids l) ->
  map (fun i => if String.eqb (id (product i)) pid then f i else i) l = l.
Proof.
  induction l as [| x l IH]; simpl; [reflexivity |].
  intros H. destruct (String.eqb_spec (id (product x)) pid) as [E | E]; [tauto |].
  f_equal. apply IH. tauto.
Qed.

Lemma ids_map_same (pid : string) (f : number -> number) (l : list CartItem) :
  ids (map (fun i => if String.eqb (id (product i)) pid
                     then mkItem (product i) (f (quantity i)) else i) l) = ids l.
Proof.
  unfold ids. rewrite map_map. apply map_ext.
  intros i. destruct (String.eqb (id (product i)) pid); reflexivity.
Qed.

Lemma others_map_same (pid : string) (f : number -> number) (l : list CartItem) :
  others pid (map (fun i => if String.eqb (id (product i)) pid
                            then mkItem (product i) (f (quantity i)) else i) l)
  = others pid l.
Proof.
  unfold others. induction l as [| x l IH]; simpl; [reflexivity |].
  destruct (String.eqb (id (product x)) pid) eqn:E; simpl; rewrite E; simpl.
  - exact IH.
  - f_equal. exact IH.
Qed.

Lemma others_idem (pid : string) (l : list CartItem) :
  others pid (others pid l) = others pid l.
Proof.
  unfold others. induction l as [| x l IH]; simpl; [reflexivity |].
  destruct (String.eqb (id (product x)) pid) eqn:E; simpl; [| rewrite E; simpl; f_equal]; exact IH.
Qed.

End CartLists.

(** C7, as the code has it.  addItem: a product already in the cart has
    the quantity of its line replaced by quantity + 1 as the double
    addition gives it, with no line added and the order of the lines
    kept; a new product gets a line of quantity 1 at the end, after
    the lines there were.  The double addition is quantity + 1 rounded
    to the nearest double, and exactly quantity + 1 for every integer
    quantity from 0 to 2^53 - 1.  Adding the same product twice to the
    empty cart gives one line of quantity 2. *)
Theorem addItem_spec (p : Cart.Product) (prev : list Cart.CartItem) :
  (In (Cart.id p) (Cart.ids prev) ->
     List.length (Cart.addItem p prev) = List.length prev /\
     Cart.ids (Cart.addItem p prev) = Cart.ids prev /\
     forall k i, nth_error prev k = Some i ->
       nth_error (Cart.addItem p prev) k =
       Some (if String.eqb (Cart.id (Cart.product i)) (Cart.id p)
             then Cart.mkItem (Cart.product i) (add (Cart.quantity i) (of_Z 1))
             else i))
  /\
  (~ In (Cart.id p) (Cart.ids prev) ->
     Cart.addItem p prev = prev ++ [Cart.mkItem p (of_Z 1)])
  /\
  Cart.addItem p (Cart.addItem p []) = [Cart.mkItem p (of_Z 2)]
  /\
  (forall n, 0 <= n < 2 ^ 53 ->
     add (of_Z n) (of_Z 1) = of_Z (n + 1) /\
     (val (add (of_Z n) (of_Z 1)) == inject_Z n + 1)%Q)
  /\
  (forall m e, bounded prec emax m e = true ->
     rounds (val (S754_finite false m e) + 1)%Q (add (S754_finite false m e) (of_Z 1))).
Proof.
  split; [| split; [| split; [| split]]].
  - intros H. unfold Cart.addItem.
    destruct (find_id_some _ _ H) as [j ->]. split; [| split].
    + apply length_map.
    + apply (ids_map_same (Cart.id p) (fun q => add q (of_Z 1))).
    + intros k i Hk. rewrite nth_error_map, Hk. reflexivity.
  - intros H. unfold Cart.addItem. now rewrite find_id_none.
  - change (Cart.addItem p []) with [Cart.mkItem p (of_Z 1)].
    unfold Cart.addItem. cbn [find map Cart.product Cart.quantity].
    rewrite String.eqb_refl. reflexivity.
  - intros n Hn.
    assert (E : add (of_Z n) (of_Z 1) = of_Z (n + 1)).
    { destruct (Z.eq_dec n (2 ^ 53 - 1)) as [-> | Hne]; [reflexivity |].
      apply (dyadic_add n 1 0); lia. }
    split; [exact E |]. rewrite E.
    destruct (Z.eq_dec n (2 ^ 53 - 1)) as [-> | Hne]; [reflexivity |].
    destruct (of_Z_val (n + 1)) as (m & e & _ & _ & ->); [lia |].
    rewrite inject_Z_plus. reflexivity.
  - intros m e Hb.
    apply (rounds_ext (val (S754_finite false m e) + val (of_Z 1))%Q).
    + now rewrite one_val.
    + apply (add_rounds m 4503599627370496 e (-52)).
Qed.

(** C7, as the specification words it, fails where quantity + 1 is not
    a double: a line of quantity 2^53, which updateQuantity can set,
    keeps its quantity when the product is added again. *)
Lemma addItem_at_2_53 :
  Cart.run [Cart.AddItem Cart.headphones;
            Cart.UpdateQuantity "1" (of_Z (2 ^ 53));
            Cart.AddItem Cart.headphones]
  = [Cart.mkItem Cart.headphones (of_Z (2 ^ 53))] /\
  (val (of_Z (2 ^ 53)) == inject_Z (2 ^ 53))%Q /\
  Cart.addItem Cart.headphones [Cart.mkItem Cart.headphones (of_Z (2 ^ 53))]
  = [Cart.mkItem Cart.headphones (of_Z (2 ^ 53))] /\
  eq (add (of_Z (2 ^ 53)) (of_Z 1)) (of_Z (2 ^ 53)) = true.
Proof. repeat split; vm_compute; reflexivity. Qed.

(** C6. updateQuantity: a quantity <= 0 removes the line, as removeItem
    does; a quantity > 0 replaces the quantity of the line of the
    product by exactly that quantity; with a quantity > 0 and no line
    for the product the cart is unchanged. *)
Theorem updateQuantity_spec (productId : string) (quantity : number)
  (prev : list Cart.CartItem) :
  (le quantity (of_Z 0) = true ->
     Cart.updateQuantity productId quantity prev = Cart.removeItem productId prev)
  /\
  (gt quantity (of_Z 0) = true ->
     List.length (Cart.updateQuantity productId quantity prev) = List.length prev /\
     forall k i, nth_error prev k = Some i ->
       nth_error (Cart.updateQuantity productId quantity prev) k =
       Some (if String.eqb (Cart.id (Cart.product i)) productId
             then Cart.mkItem (Cart.product i) quantity
             else i))
  /\
  (gt quantity (of_Z 0) = true -> ~ In productId (Cart.ids prev) ->
     Cart.updateQuantity productId quantity prev = prev).
Proof.
  unfold Cart.updateQuantity, Cart.removeItem. split; [| split].
  - intros ->. reflexivity.
  - intros H. rewrite (gt_0_not_le _ H). split.
    + apply length_map.
    + intros k i Hk. rewrite nth_error_map, Hk. reflexivity.
  - intros Hq Hin. rewrite (gt_0_not_le _ Hq). now apply map_absent.
Qed.

(** C10. updateQuantity with a quantity > 0 and removeItem leave the
    line items of every other product as they were, in the same
    order. *)
Theorem other_lines_unchanged (productId : string) (quantity : number)
  (prev : list Cart.CartItem) :
  (gt quantity (of_Z 0) = true ->
     Cart.others productId (Cart.updateQuantity productId quantity prev)
     = Cart.others productId prev)
  /\
  Cart.others productId (Cart.removeItem productId prev)
  = Cart.others productId prev
  /\
  (forall i, In i prev -> Cart.id (Cart.product i) <> productId ->
     In i (Cart.removeItem productId prev) /\
     (gt quantity (of_Z 0) = true ->
      In i (Cart.updateQuantity productId quantity prev))).
Proof.
  split; [| split].
  - intros H. unfold Cart.updateQuantity. rewrite (gt_0_not_le _ H).
    apply (others_map_same productId (fun _ => quantity)).
  - apply others_idem.
  - intros i Hi Hne. split.
    + unfold Cart.removeItem. apply filter_In. split; auto.
      now destruct (String.eqb_spec (Cart.id (Cart.product i)) productId).
    + intros Hq. unfold Cart.updateQuantity. rewrite (gt_0_not_le _ Hq).
      apply in_map_iff. exists i. split; auto.
      now destruct (String.eqb_spec (Cart.id (Cart.product i)) productId).
Qed.

(** ** The cart invariant *)

Section Invariant.
Import Cart.

Lemma NoDup_ids_filter (f : CartItem -> bool) (l : list CartItem) :
  NoDup (ids l) -> NoDup (ids (filter f l)).
Proof.
  unfold ids. induction l as [| x l IH]; simpl; intros H; [constructor |].
  inversion H as [| ? ? Hx Hl]; subst.
  destruct (f x); simpl; auto. constructor; auto.
  intros Hin. apply Hx. apply in_map_iff in Hin as (y & Hy & Hin).
  apply in_map_iff. exists y. split; auto. apply filter_In in Hin. tauto.
Qed.

Lemma find_none_not_in (pid : string) (l : list CartItem) :
  find (fun i => String.eqb (id (product i)) pid) l = None -> ~ In pid (ids l).
Proof.
  intros H Hin. destruct (find_id_some _ _ Hin) as [i Hi]. congruence.
Qed.

Lemma apply_whole (l : list CartItem) (c : call) :
  (forall productId q, c = UpdateQuantity productId q ->
     valid q = true /\ isInteger q = true) ->
  whole_cart l -> whole_cart (apply l c).
Proof.
  intros Hc [Hnd Hq]. destruct c as [p | pid | pid q |]; cbn [apply].
  - unfold addItem.
    destruct (find (fun i => String.eqb (id (product i)) (id p)) l) eqn:Hf.
    + split.
      * rewrite (ids_map_same (id p) (fun q => add q (of_Z 1))). exact Hnd.
      * intros i Hi. apply in_map_iff in Hi as (j & <- & Hj).
        destruct (Hq j Hj) as (m & e & Hm & Hb & Hw).
        destruct (String.eqb (id (product j)) (id p)); [| eauto].
        cbn [quantity]. rewrite Hm in Hw |- *.
        apply andb_prop in Hw as [Hi _].
        destruct (add_one_whole m e Hb Hi) as (m' & e' & -> & Hb' & Hi' & Hle').
        exists m', e'. repeat split; auto.
        unfold whole_quantity. now rewrite Hi', Hle'.
    + split.
      * unfold ids. rewrite map_app. simpl.
        apply Permutation_NoDup with (l := id p :: map (fun i => id (product i)) l).
        -- apply Permutation_cons_append.
        -- constructor; auto. now apply find_none_not_in.
      * intros i Hi. apply in_app_or in Hi as [Hi | [<- | []]]; [now apply Hq |].
        exists 4503599627370496%positive, (-52)%Z. repeat split.
  - split.
    + now apply NoDup_ids_filter.
    + intros i Hi. apply filter_In in Hi as [Hi _]. now apply Hq.
  - destruct (Hc pid q eq_refl) as [Hv Hi].
    unfold updateQuantity. destruct (le q (of_Z 0)) eqn:Hle.
    + split.
      * now apply NoDup_ids_filter.
      * intros i Hi'. apply filter_In in Hi' as [Hi' _]. now apply Hq.
    + destruct (whole_of_positive q Hv Hi Hle) as (m & e & -> & Hb & H1).
      split.
      * rewrite (ids_map_same pid (fun _ => S754_finite false m e)). exact Hnd.
      * intros i Hi'. apply in_map_iff in Hi' as (j & <- & Hj).
        destruct (String.eqb (id (product j)) pid); [| now apply Hq].
        exists m, e. cbn [quantity]. repeat split; auto.
        unfold whole_quantity. now rewrite Hi, H1.
  - split; [constructor | intros i []].
Qed.

Lemma run_whole (calls : list call) (l : list CartItem) :
  integer_calls calls -> whole_cart l -> whole_cart (fold_left apply calls l).
Proof.
  revert l. induction calls as [| c calls IH]; intros l Hc Hl; simpl; auto.
  apply IH.
  - intros pid q Hin. apply (Hc pid q). now right.
  - apply apply_whole; auto. intros pid q ->. apply (Hc pid q). now left.
Qed.

Lemma run_NoDup (calls : list call) (l : list CartItem) :
  NoDup (ids l) -> NoDup (ids (fold_left apply calls l)).
Proof.
  revert l. induction calls as [| c calls IH]; intros l Hl; simpl; auto.
  apply IH. destruct c as [p | pid | pid q |]; simpl.
  - unfold addItem.
    destruct (find (fun i => String.eqb (id (product i)) (id p)) l) eqn:Hf.
    + rewrite (ids_map_same (id p) (fun q => add q (of_Z 1))). exact Hl.
    + unfold ids. rewrite map_app. simpl.
      apply Permutation_NoDup with (l := id p :: map (fun i => id (product i)) l).
      * apply Permutation_cons_append.
      * constructor; auto. now apply find_none_not_in.
  - now apply NoDup_ids_filter.
  - unfold updateQuantity. destruct (le q (of_Z 0)).
    + now apply NoDup_ids_filter.
    + rewrite (ids_map_same pid (fun _ => q)). exact Hl.
  - constructor.
Qed.

End Invariant.

(** C2, as the code has it.  From the empty cart, after any calls of
    addItem, removeItem, updateQuantity and clearCart, the cart has at
    most one line per product identifier; and when the quantities
    handed to updateQuantity are integers, every line has an integer
    quantity of at least 1. *)
Theorem cart_invariant (calls : list Cart.call) :
  NoDup (Cart.ids (Cart.run calls)) /\
  (Cart.integer_calls calls ->
   Forall (fun i => Cart.whole_quantity (Cart.quantity i) = true) (Cart.run calls)).
Proof.
  split.
  - apply run_NoDup. constructor.
  - intros Hc. apply Forall_forall. intros i Hi.
    destruct (run_whole calls [] Hc) as [_ Hq].
    + split; [constructor | intros j []].
    + destruct (Hq i Hi) as (m & e & _ & _ & Hw). exact Hw.
Qed.

Lemma cart_invariant_witness :
  Cart.integer_calls
    [Cart.AddItem Cart.headphones; Cart.AddItem Cart.headphones;
     Cart.UpdateQuantity "1" (of_Z 5); Cart.AddItem Cart.headphones] /\
  Forall (fun i => Cart.whole_quantity (Cart.quantity i) = true)
    (Cart.run [Cart.AddItem Cart.headphones; Cart.AddItem Cart.headphones;
               Cart.UpdateQuantity "1" (of_Z 5); Cart.AddItem Cart.headphones]).
Proof.
  assert (H : Cart.integer_calls
    [Cart.AddItem Cart.headphones; Cart.AddItem Cart.headphones;
     Cart.UpdateQuantity "1" (of_Z 5); Cart.AddItem Cart.headphones]).
  { intros pid q [H | [H | [H | [H | []]]]]; try discriminate.
    injection H as _ <-. split; reflexivity. }
  split; [exact H |].
  exact (proj2 (cart_invariant _) H).
Defined.

(** C2, as the specification words it, fails: updateQuantity stores any
    quantity > 0 as it is, so a line can hold one half. *)
Lemma cart_fractional_quantity :
  Cart.run [Cart.AddItem Cart.headphones; Cart.UpdateQuantity "1" (decimal 5 1)]
  = [Cart.mkItem Cart.headphones (decimal 5 1)] /\
  Cart.whole_quantity (decimal 5 1) = false /\
  isInteger (decimal 5 1) = false /\
  le (of_Z 1) (decimal 5 1) = false.
Proof. repeat split; vm_compute; reflexivity. Qed.

(** ** calculateDiscount *)





(** C5, as the code has it.  For a finite price >= 0 and a discount
    between 0 and 100, calculateDiscount(price, d) is at most price
    rounded to 2 decimals, calculateDiscount(price, 0); so it is at
    most price when price is a whole number of cents, one that
    rounding to 2 decimals leaves as it is. *)
Theorem calculateDiscount_le_round2 (price d : number) :
  valid price = true -> isFinite price = true -> le (of_Z 0) price = true ->
  valid d = true -> le (of_Z 0) d = true -> le d (of_Z 100) = true ->
  exists r,
    Pricing.calculateDiscount price d = Return r /\
    le r (Pricing.round2 price) = true /\
    Pricing.calculateDiscount price (of_Z 0) = Return (Pricing.round2 price) /\
    (Pricing.round2 price = price -> le r price = true).
Proof.
  intros Vp Fp Hp Vd Hd0 Hd100.
  destruct (discount_chain price d Vp Fp Hp Vd Hd0 Hd100) as [_ Hle].
  eexists. split; [| split; [exact Hle | split]].
  - unfold Pricing.calculateDiscount.
    rewrite (le_0_not_lt _ Hd0), (le_not_gt _ _ Hd100). reflexivity.
  - unfold Pricing.calculateDiscount, Pricing.round2.
    change (lt (of_Z 0) (of_Z 0) || gt (of_Z 0) (of_Z 100)) with false.
    change (sub (of_Z 1) (div (of_Z 0) (of_Z 100))) with (of_Z 1).
    cbv iota. now rewrite mul_one.
  - intros E. rewrite E in Hle. exact Hle.
Qed.

Lemma calculateDiscount_le_round2_witness :
  Pricing.round2 (decimal 4999 2) = decimal 4999 2 /\
  Pricing.calculateDiscount (decimal 4999 2) (of_Z 33) = Return (decimal 3349 2) /\
  le (decimal 3349 2) (decimal 4999 2) = true.
Proof.
  destruct (calculateDiscount_le_round2 (decimal 4999 2) (of_Z 33))
    as (r & Hr & _ & _ & Hle); try reflexivity.
  assert (E : Pricing.round2 (decimal 4999 2) = decimal 4999 2) by reflexivity.
  assert (Er : Pricing.calculateDiscount (decimal 4999 2) (of_Z 33)
               = Return (decimal 3349 2)) by reflexivity.
  split; [exact E | split; [exact Er |]].
  rewrite Er in Hr. injection Hr as <-. exact (Hle E).
Defined.

(** C5, as the specification words it, fails below the cent: 0.125 at
    discount 0 scales to 12.5, which rounds to 13, and 0.13 > 0.125. *)
Lemma calculateDiscount_exceeds_amount :
  le (of_Z 0) (decimal 125 3) = true /\
  le (of_Z 0) (of_Z 0) = true /\ le (of_Z 0) (of_Z 100) = true /\
  Pricing.calculateDiscount (decimal 125 3) (of_Z 0) = Return (decimal 13 2) /\
  le (decimal 13 2) (decimal 125 3) = false /\
  gt (decimal 13 2) (decimal 125 3) = true.
Proof. repeat split; vm_compute; reflexivity. Qed.

(** ** calculateTotal *)

(** C8, as the code has it.  calculateTotal adds price * quantity line
    by line from 0, in double arithmetic and in the order of the lines,
    and rounds the sum to 2 decimals once; it is 0 on the empty list.
    For at most 2^20 lines of finite prices and quantities that are
    not negative, with an exact total of at most ten trillion, the
    result is the double nearest to n / 100 for a whole number n of
    cents within 1/2 + eps of the exact total in cents, eps = (number
    of lines + 1) * (total + 1) * 2^-43 being the error of the double
    sum; this holds in any order of the lines.  The exact total in
    cents rounded to a whole number with a half away from zero is
    within 1/2 of it, and wherever the exact total in cents is at
    least eps away from a half, n is that number in every order of
    the lines, so the result does not depend on the order.  On lines
    whose prices are whole cents and whose quantities are integers,
    with (number of lines + 2) times the total in cents at most 2^49,
    the result is the exact total in every order. *)
Theorem calculateTotal_sum (items items' : list Pricing.PricedLine) :
  Forall (fun i => clean (Pricing.price i) = true /\
                   clean (Pricing.quantity i) = true) items ->
  (Pricing.exact_total items <= inject_Z (10 ^ 13))%Q ->
  Z.of_nat (List.length items) <= 2 ^ 20 ->
  Permutation items items' ->
  let total := Pricing.exact_total items in
  let eps :=
    ((inject_Z (Z.of_nat (List.length items)) + 1) * (total + 1) * bpow (-43))%Q in
  let c := Pricing.sumLineTotals_spec items in
  exists n n',
    Pricing.calculateTotal items = decimal n 2 /\
    Pricing.calculateTotal items' = decimal n' 2 /\
    (100 * total - eps - (1 # 2) <= inject_Z n <= 100 * total + eps + (1 # 2))%Q /\
    (100 * total - eps - (1 # 2) <= inject_Z n' <= 100 * total + eps + (1 # 2))%Q /\
    (100 * total - (1 # 2) <= inject_Z c <= 100 * total + (1 # 2))%Q /\
    ((inject_Z c - (1 # 2) + eps <= 100 * total /\
      100 * total + eps < inject_Z c + (1 # 2))%Q ->
     n = c /\ n' = c /\
     Pricing.calculateTotal items' = Pricing.calculateTotal items) /\
    (forall l,
       items = map Pricing.cent_line l ->
       Forall (fun nz => 0 <= fst nz <= 10 ^ 15 /\ 0 <= snd nz < 2 ^ 53) l ->
       (Z.of_nat (List.length l) + 2) * Pricing.cent_total l <= 2 ^ 49 ->
       Pricing.calculateTotal items = decimal (Pricing.cent_total l) 2 /\
       Pricing.calculateTotal items' = Pricing.calculateTotal items) /\
    Pricing.calculateTotal [] = of_Z 0.
Proof.
  intros Hl HW Hk Hp total eps c.
  assert (C : (100 * total - (1 # 2) <= inject_Z c <= 100 * total + (1 # 2))%Q)
    by apply round_half_away_near.
  clearbody c.
  assert (Hl' : Forall (fun i => clean (Pricing.price i) = true /\
                                 clean (Pricing.quantity i) = true) items')
    by (eapply Permutation_Forall; eauto).
  pose proof (exact_total_perm _ _ Hp) as Et.
  pose proof (Permutation_length Hp) as Hlen.
  assert (HW' : (Pricing.exact_total items' <= inject_Z (10 ^ 13))%Q)
    by (rewrite <- Et; exact HW).
  assert (Hk' : Z.of_nat (List.length items') <= 2 ^ 20) by (rewrite <- Hlen; exact Hk).
  destruct (total_cents items Hl HW Hk) as (n & v & R & N1 & N2 & E1 & E2).
  destruct (total_cents items' Hl' HW' Hk') as (n' & v' & R' & N1' & N2' & E1' & E2').
  rewrite <- Hlen, <- Et in E1', E2'.
  fold total in E1, E2, E1', E2'. fold eps in E1, E2, E1', E2'.
  clearbody total eps.
  exists n, n'.
  split; [exact R |]. split; [exact R' |].
  split; [split; lra |]. split; [split; lra |]. split; [exact C |].
  split; [| split; [| reflexivity]].
  - intros [A1 A2].
    assert (L1 : (inject_Z n < inject_Z c + inject_Z 1)%Q)
      by (change (inject_Z 1) with 1%Q; lra).
    assert (L2 : (inject_Z c < inject_Z n + inject_Z 1)%Q)
      by (change (inject_Z 1) with 1%Q; lra).
    assert (L1' : (inject_Z n' < inject_Z c + inject_Z 1)%Q)
      by (change (inject_Z 1) with 1%Q; lra).
    assert (L2' : (inject_Z c < inject_Z n' + inject_Z 1)%Q)
      by (change (inject_Z 1) with 1%Q; lra).
    rewrite <- inject_Z_plus, <- Zlt_Qlt in L1, L2, L1', L2'.
    assert (En : n = c) by lia. assert (En' : n' = c) by lia.
    split; [exact En |]. split; [exact En' |].
    rewrite R, R', En, En'. reflexivity.
  - intros l El Hc Hb.
    assert (T : Pricing.calculateTotal items = decimal (Pricing.cent_total l) 2)
      by (rewrite El; apply calculateTotal_cent_lines; auto).
    split; [exact T |]. rewrite T.
    apply (cent_lines_perm l); auto. rewrite <- El. exact Hp.
Qed.

Lemma calculateTotal_sum_witness :
  Pricing.sumLineTotals_spec
    [Pricing.mkLine (decimal 4999 2) (of_Z 2); Pricing.mkLine (decimal 7999 2) (of_Z 1);
     Pricing.mkLine (decimal 12999 2) (of_Z 3)] = 56994 /\
  Pricing.calculateTotal
    [Pricing.mkLine (decimal 12999 2) (of_Z 3); Pricing.mkLine (decimal 4999 2) (of_Z 2);
     Pricing.mkLine (decimal 7999 2) (of_Z 1)]
  = decimal 56994 2.
Proof.
  set (items := [Pricing.mkLine (decimal 4999 2) (of_Z 2);
                 Pricing.mkLine (decimal 7999 2) (of_Z 1);
                 Pricing.mkLine (decimal 12999 2) (of_Z 3)]).
  set (items' := [Pricing.mkLine (decimal 12999 2) (of_Z 3);
                  Pricing.mkLine (decimal 4999 2) (of_Z 2);
                  Pricing.mkLine (decimal 7999 2) (of_Z 1)]).
  assert (Ec : Pricing.sumLineTotals_spec items = 56994) by (vm_compute; reflexivity).
  split; [exact Ec |].
  assert (Hl : Forall (fun i => clean (Pricing.price i) = true /\
                                clean (Pricing.quantity i) = true) items)
    by (repeat constructor).
  assert (HW : (Pricing.exact_total items <= inject_Z (10 ^ 13))%Q)
    by (vm_compute; discriminate).
  assert (Hk : Z.of_nat (List.length items) <= 2 ^ 20) by (cbn; lia).
  assert (Hp : Permutation items items').
  { unfold items, items'.
    apply (perm_trans (perm_skip _ (perm_swap _ _ _))), perm_swap. }
  pose proof (calculateTotal_sum items items' Hl HW Hk Hp) as H.
  cbv zeta in H. rewrite Ec in H.
  destruct H as (n & n' & _ & R' & _ & _ & _ & Hn & _).
  destruct Hn as (_ & En' & _).
  { split; [vm_compute; discriminate | vm_compute; reflexivity]. }
  rewrite R', En'. reflexivity.
Defined.

(** C8, as the specification words it, fails: the double sum depends on the
    order.  0.001 + 0.004 + 0.03 is below 0.035 and rounds to 0.03;
    0.001 + 0.03 + 0.004 is 0.035 and rounds to 0.04. *)
Lemma calculateTotal_order_dependent :
  Permutation
    [Pricing.mkLine (decimal 1 3) (of_Z 1); Pricing.mkLine (decimal 4 3) (of_Z 1);
     Pricing.mkLine (decimal 3 2) (of_Z 1)]
    [Pricing.mkLine (decimal 1 3) (of_Z 1); Pricing.mkLine (decimal 3 2) (of_Z 1);
     Pricing.mkLine (decimal 4 3) (of_Z 1)] /\
  Pricing.calculateTotal
    [Pricing.mkLine (decimal 1 3) (of_Z 1); Pricing.mkLine (decimal 4 3) (of_Z 1);
     Pricing.mkLine (decimal 3 2) (of_Z 1)] = decimal 3 2 /\
  Pricing.calculateTotal
    [Pricing.mkLine (decimal 1 3) (of_Z 1); Pricing.mkLine (decimal 3 2) (of_Z 1);
     Pricing.mkLine (decimal 4 3) (of_Z 1)] = decimal 4 2 /\
  eq (decimal 3 2) (decimal 4 2) = false.
Proof.
  split; [apply perm_skip, perm_swap |].
  repeat split; vm_compute; reflexivity.
Qed.


(** ** The catalog loader *)

Section LoaderRuns.
Import Loader.

(** The hook mounts in the loading state, one run of the effect in
    flight. *)
Lemma mount_loading :
  state mount = initial /\ effects mount = [mkEffect false false].
Proof. split; reflexivity. Qed.

(** loading -> ready on a fetch that resolves, loading -> failed on one
    that rejects, with the message of the rejection. *)
Lemma first_settle (o : outcome) :
  state (step mount (Settle 0 o)) =
  match o with
  | Resolve data => mkState data false None
  | Reject message => mkState [] false (Some message)
  end.
Proof. destruct o; reflexivity. Qed.

(** A new run of the effect sets [loading], and nothing else. *)
Lemma rerun_state (h : Hook) :
  state (step h Rerun) = mkState (products (state h)) true (error (state h)).
Proof. reflexivity. Qed.

Lemma step_one_run (h : Hook) (ev : event) :
  ev <> Rerun -> one_run h -> one_run (step h ev).
Proof.
  intros Hev (e & He & Hinit & Hst). destruct ev as [| k o |]; [congruence | |].
  - cbn [step]. rewrite He.
    destruct k as [| k]; cbn [nth_error].
    + destruct (settled e) eqn:Hs; [exists e; rewrite Hs; auto |].
      exists (mkEffect (cancelled e) true). cbn [effects state settle].
      split; [reflexivity |]. split; [discriminate |].
      rewrite (Hinit eq_refl). unfold handler.
      destruct o as [data | message], (cancelled e); cbn;
        unfold is_loading, is_ready, is_failed; cbn; auto.
      right; right. split; [reflexivity | split; [discriminate | reflexivity]].
    + exists e. destruct k; cbn [nth_error]; auto.
  - exists (mkEffect true (settled e)). cbn [step effects state].
    rewrite He. split; [reflexivity |]. auto.
Qed.

Lemma steps_one_run (evs : list event) (h : Hook) :
  single_run evs -> one_run h -> one_run (fold_left step evs h).
Proof.
  revert h. induction evs as [| ev evs IH]; intros h Hevs Hh; cbn [fold_left]; auto.
  apply IH.
  - intros Hin. apply Hevs. now right.
  - apply step_one_run; auto. intros ->. apply Hevs. now left.
Qed.

(** X23. With a single run of the effect (the api never changes) the
    hook is always in one of the three states: loading, ready, or
    failed. *)
Lemma single_run_three_states (evs : list event) :
  single_run evs ->
  is_loading (state (steps evs)) \/ is_ready (state (steps evs)) \/
  is_failed (state (steps evs)).
Proof.
  intros Hevs.
  destruct (steps_one_run evs mount Hevs) as (e & _ & _ & H); auto.
  exists (mkEffect false false). split; [reflexivity |].
  split; [reflexivity | now left].
Qed.

Lemma single_run_three_states_witness :
  is_loading (state (steps [Settle 0 (Resolve [Cart.headphones]); Unmount])) \/
  is_ready (state (steps [Settle 0 (Resolve [Cart.headphones]); Unmount])) \/
  is_failed (state (steps [Settle 0 (Resolve [Cart.headphones]); Unmount])).
Proof.
  apply single_run_three_states. intros [H | [H | []]]; discriminate.
Defined.

(** A promise that settles after the cleanup of its run changes
    nothing. *)
Lemma cancelled_settle (e : Effect) (o : outcome) (s : State) :
  cancelled e = true -> handler e o s = s.
Proof. intros H. destruct o; cbn; rewrite H; reflexivity. Qed.

End LoaderRuns.

(** C9 at the input where the code leaves the three states.  The first
    fetch rejects with "Network error"; the api changes and the effect
    runs again; the second fetch resolves with one product.  The hook
    ends with loading false, the new products, and the error of the
    first run: not loading, not ready, not failed. *)
Theorem useProducts_stale_error :
  Loader.state
    (Loader.steps [Loader.Settle 0 (Loader.Reject "Network error"); Loader.Rerun;
                   Loader.Settle 1 (Loader.Resolve [Cart.headphones])])
  = Loader.mkState [Cart.headphones] false (Some "Network error"%string)
  /\
  Loader.state
    (Loader.steps [Loader.Settle 0 (Loader.Reject "Network error"); Loader.Rerun])
  = Loader.mkState [] true (Some "Network error"%string)
  /\
  ~ Loader.is_loading (Loader.mkState [Cart.headphones] false (Some "Network error"%string))
  /\
  ~ Loader.is_ready (Loader.mkState [Cart.headphones] false (Some "Network error"%string))
  /\
  ~ Loader.is_failed (Loader.mkState [Cart.headphones] false (Some "Network error"%string)).
Proof.
  unfold Loader.is_loading, Loader.is_ready, Loader.is_failed; simpl.
  repeat split; try reflexivity; try discriminate.
  - intros [_ H]; discriminate.
  - intros (_ & _ & H); discriminate.
Qed.

(** * Further properties of the code *)

(** ** The cart reducers, composed *)

Section CartAlgebra.
Import Cart.

Lemma others_absent (pid : string) (l : list CartItem) :
  ~ In pid (ids l) -> others pid l = l.
Proof.
  unfold others. induction l as [| x l IH]; simpl; [reflexivity |].
  intros H. destruct (String.eqb_spec (id (product x)) pid) as [E | E]; [tauto |].
  simpl. f_equal. apply IH. tauto.
Qed.

Lemma ids_others (pid q : string) (l : list CartItem) :
  In pid (ids (others q l)) <-> pid <> q /\ In pid (ids l).
Proof.
  unfold ids, others. rewrite !in_map_iff. split.
  - intros (x & <- & Hx). apply filter_In in Hx as [Hx Hq]. split.
    + destruct (String.eqb_spec (id (product x)) q); [discriminate | auto].
    + eauto.
  - intros (Hne & x & <- & Hx). exists x. split; auto. apply filter_In. split; auto.
    destruct (String.eqb_spec (id (product x)) q); [tauto | reflexivity].
Qed.

Lemma others_comm (a b : string) (l : list CartItem) :
  others a (others b l) = others b (others a l).
Proof.
  unfold others. induction l as [| x l IH]; simpl; [reflexivity |].
  destruct (String.eqb (id (product x)) a) eqn:Ea,
           (String.eqb (id (product x)) b) eqn:Eb; simpl;
    rewrite ?Ea, ?Eb; simpl; rewrite ?IH; reflexivity.
Qed.

(** Replacing the quantity of the lines of [pid]. *)
Lemma set_twice (pid : string) (f g : CartItem -> number) (l : list CartItem) :
  map (fun i => if String.eqb (id (product i)) pid then mkItem (product i) (g i) else i)
    (map (fun i => if String.eqb (id (product i)) pid then mkItem (product i) (f i) else i) l)
  = map (fun i => if String.eqb (id (product i)) pid
                  then mkItem (product i) (g (mkItem (product i) (f i))) else i) l.
Proof.
  rewrite map_map. apply map_ext. intros i.
  destruct (String.eqb (id (product i)) pid) eqn:E; cbn [product]; rewrite E; reflexivity.
Qed.

Lemma set_comm (a b : string) (qa qb : number) (l : list CartItem) :
  a <> b ->
  map (fun i => if String.eqb (id (product i)) a then mkItem (product i) qa else i)
    (map (fun i => if String.eqb (id (product i)) b then mkItem (product i) qb else i) l)
  = map (fun i => if String.eqb (id (product i)) b then mkItem (product i) qb else i)
      (map (fun i => if String.eqb (id (product i)) a then mkItem (product i) qa else i) l).
Proof.
  intros Hab. rewrite !map_map. apply map_ext. intros i.
  destruct (String.eqb_spec (id (product i)) a) as [Ea | Ea],
           (String.eqb_spec (id (product i)) b) as [Eb | Eb];
    cbn [product]; try congruence.
  - destruct (String.eqb_spec (id (product i)) a), (String.eqb_spec (id (product i)) b);
      congruence.
  - destruct (String.eqb_spec (id (product i)) a), (String.eqb_spec (id (product i)) b);
      congruence.
  - destruct (String.eqb_spec (id (product i)) a), (String.eqb_spec (id (product i)) b);
      congruence.
Qed.

Lemma others_set (a b : string) (q : number) (l : list CartItem) :
  others a (map (fun i => if String.eqb (id (product i)) b
                          then mkItem (product i) q else i) l)
  = map (fun i => if String.eqb (id (product i)) b then mkItem (product i) q else i)
      (others a l).
Proof.
  unfold others. induction l as [| x l IH]; simpl; [reflexivity |].
  destruct (String.eqb (id (product x)) b) eqn:Eb; cbn [product];
    destruct (String.eqb (id (product x)) a) eqn:Ea; simpl; rewrite ?Eb, IH; reflexivity.
Qed.

Lemma length_others_NoDup (pid : string) (l : list CartItem) :
  NoDup (ids l) -> In pid (ids l) -> S (List.length (others pid l)) = List.length l.
Proof.
  unfold ids. induction l as [| x l IH]; simpl; [tauto |].
  intros Hnd Hin. inversion Hnd as [| ? ? Hx Hl]; subst.
  destruct (String.eqb_spec (id (product x)) pid) as [E | E]; simpl.
  - rewrite others_absent; [reflexivity |]. unfold ids. now rewrite <- E.
  - f_equal. apply IH; auto. destruct Hin; [contradiction | auto].
Qed.

Lemma addItem_absent (p : Product) (l : list CartItem) :
  ~ In (id p) (ids l) -> addItem p l = l ++ [mkItem p (of_Z 1)].
Proof. intros H. unfold addItem. now rewrite find_id_none. Qed.

Lemma addItem_present (p : Product) (l : list CartItem) :
  In (id p) (ids l) ->
  addItem p l =
  map (fun i => if String.eqb (id (product i)) (id p)
                then mkItem (product i) (add (quantity i) (of_Z 1)) else i) l.
Proof. intros H. unfold addItem. now destruct (find_id_some _ _ H) as [j ->]. Qed.

Lemma addItem_last (p : Product) (l : list CartItem) (q : number) :
  ~ In (id p) (ids l) ->
  addItem p (l ++ [mkItem p q]) = l ++ [mkItem p (add q (of_Z 1))].
Proof.
  intros H. rewrite addItem_present.
  - rewrite map_app, map_absent by auto. cbn [map product quantity].
    now rewrite String.eqb_refl.
  - unfold ids. rewrite map_app. apply in_or_app. right. now left.
Qed.

End CartAlgebra.

(** X1. removeItem undoes addItem: removing the product just added gives
    the cart without that product, the cart as it was when the product
    was new; and addItem leaves the lines of the other products as they
    were. *)
Theorem removeItem_addItem (p : Cart.Product) (prev : list Cart.CartItem) :
  Cart.removeItem (Cart.id p) (Cart.addItem p prev)
  = Cart.removeItem (Cart.id p) prev
  /\
  (~ In (Cart.id p) (Cart.ids prev) ->
   Cart.removeItem (Cart.id p) (Cart.addItem p prev) = prev)
  /\
  Cart.others (Cart.id p) (Cart.addItem p prev) = Cart.others (Cart.id p) prev.
Proof.
  assert (H : Cart.others (Cart.id p) (Cart.addItem p prev)
              = Cart.others (Cart.id p) prev).
  { destruct (in_dec string_dec (Cart.id p) (Cart.ids prev)) as [Hin | Hout].
    - rewrite addItem_present by auto.
      apply (others_map_same (Cart.id p) (fun q => add q (of_Z 1))).
    - rewrite addItem_absent by auto. unfold Cart.others.
      rewrite filter_app. cbn [filter Cart.product Cart.id].
      rewrite String.eqb_refl. cbn. apply app_nil_r. }
  split; [exact H | split; [| exact H]].
  intros Hout. change (Cart.removeItem (Cart.id p) (Cart.addItem p prev))
    with (Cart.others (Cart.id p) (Cart.addItem p prev)).
  rewrite H. now apply others_absent.
Qed.

(** X2. Which products a cart holds after each operation: addItem adds
    the product's id to those present, removeItem takes the id out,
    updateQuantity takes it out when the quantity is <= 0 and changes
    no id otherwise, clearCart leaves none. *)
Theorem ids_after (pid : string) (prev : list Cart.CartItem) :
  (forall p, In pid (Cart.ids (Cart.addItem p prev)) <->
             pid = Cart.id p \/ In pid (Cart.ids prev))
  /\
  (forall q, In pid (Cart.ids (Cart.removeItem q prev)) <->
             pid <> q /\ In pid (Cart.ids prev))
  /\
  (forall q n, In pid (Cart.ids (Cart.updateQuantity q n prev)) <->
               (pid <> q \/ le n (of_Z 0) = false) /\ In pid (Cart.ids prev))
  /\
  ~ In pid (Cart.ids (Cart.clearCart prev)).
Proof.
  split; [| split; [| split]].
  - intros p. destruct (in_dec string_dec (Cart.id p) (Cart.ids prev)) as [Hin | Hout].
    + rewrite addItem_present by auto.
      rewrite (ids_map_same (Cart.id p) (fun q => add q (of_Z 1))).
      split; [tauto | intros [-> | H]; auto].
    + rewrite addItem_absent by auto. unfold Cart.ids. rewrite map_app, in_app_iff.
      cbn. split; [intros [H | [H | []]]; auto | intros [-> | H]; auto].
  - intros q. apply ids_others.
  - intros q n. unfold Cart.updateQuantity. destruct (le n (of_Z 0)).
    + rewrite (ids_others pid q prev). split.
      * intros [H1 H2]. auto.
      * intros [[H | H] H2]; [auto | discriminate].
    + rewrite (ids_map_same q (fun _ => n)). split; [auto | tauto].
  - intros [].
Qed.

(** X3. removeItem of a product that is not in the cart changes
    nothing, removing twice is removing once, and in a cart with one
    line per product removing a product that is there takes exactly one
    line away. *)
Theorem removeItem_once (pid : string) (prev : list Cart.CartItem) :
  (~ In pid (Cart.ids prev) -> Cart.removeItem pid prev = prev)
  /\
  Cart.removeItem pid (Cart.removeItem pid prev) = Cart.removeItem pid prev
  /\
  (NoDup (Cart.ids prev) -> In pid (Cart.ids prev) ->
   S (List.length (Cart.removeItem pid prev)) = List.length prev).
Proof.
  split; [| split].
  - apply others_absent.
  - apply others_idem.
  - apply length_others_NoDup.
Qed.

(** X4. Two updateQuantity calls on the same product: the second one
    decides.  After a quantity that is not <= 0 the cart is the one the
    second call alone gives; after a quantity <= 0 the line is gone and
    stays gone. *)
Theorem updateQuantity_twice (pid : string) (q1 q2 : number)
  (prev : list Cart.CartItem) :
  (le q1 (of_Z 0) = false ->
   Cart.updateQuantity pid q2 (Cart.updateQuantity pid q1 prev)
   = Cart.updateQuantity pid q2 prev)
  /\
  (le q1 (of_Z 0) = true ->
   Cart.updateQuantity pid q2 (Cart.updateQuantity pid q1 prev)
   = Cart.removeItem pid prev).
Proof.
  split; intros H1.
  - unfold Cart.updateQuantity. rewrite H1. destruct (le q2 (of_Z 0)).
    + apply (others_map_same pid (fun _ => q1)).
    + apply (set_twice pid (fun _ => q1) (fun _ => q2)).
  - unfold Cart.updateQuantity at 2. rewrite H1.
    fold (Cart.others pid prev). unfold Cart.updateQuantity.
    destruct (le q2 (of_Z 0)).
    + apply others_idem.
    + apply map_absent. intros Hin. apply ids_others in Hin. tauto.
Qed.

(** X5. Operations on two different products do not interfere:
    updateQuantity and removeItem on product a commute with
    updateQuantity and removeItem on product b. *)
Theorem different_products_commute (a b : string) (qa qb : number)
  (prev : list Cart.CartItem) :
  a <> b ->
  Cart.updateQuantity a qa (Cart.updateQuantity b qb prev)
  = Cart.updateQuantity b qb (Cart.updateQuantity a qa prev)
  /\
  Cart.removeItem a (Cart.updateQuantity b qb prev)
  = Cart.updateQuantity b qb (Cart.removeItem a prev)
  /\
  Cart.removeItem a (Cart.removeItem b prev)
  = Cart.removeItem b (Cart.removeItem a prev).
Proof.
  intros Hab.
  assert (R : forall l, Cart.removeItem a (Cart.updateQuantity b qb l)
                        = Cart.updateQuantity b qb (Cart.removeItem a l)).
  { intros l. unfold Cart.updateQuantity. destruct (le qb (of_Z 0)).
    - apply others_comm.
    - apply others_set. }
  split; [| split].
  - destruct (le qa (of_Z 0)) eqn:Ha.
    + assert (U : forall l, Cart.updateQuantity a qa l = Cart.removeItem a l)
        by (intros l; unfold Cart.updateQuantity; now rewrite Ha).
      rewrite !U. apply R.
    + unfold Cart.updateQuantity. rewrite Ha. destruct (le qb (of_Z 0)).
      * symmetry. apply others_set.
      * now apply set_comm.
  - apply R.
  - apply others_comm.
Qed.

Lemma different_products_commute_witness :
  Cart.updateQuantity "1" (of_Z 3)
    (Cart.removeItem "2" [Cart.mkItem Cart.headphones (of_Z 1);
                          Cart.mkItem (Cart.mkProduct "2" "Keyboard" (of_Z 120) "keyboard")
                            (of_Z 1)])
  = [Cart.mkItem Cart.headphones (of_Z 3)].
Proof.
  rewrite <- (proj1 (proj2 (different_products_commute "2" "1" (of_Z 3) (of_Z 3) _
                             ltac:(discriminate)))).
  reflexivity.
Defined.

(** ** The runs of the catalog effect *)

Section LoaderInvariants.
Import Loader.

Lemma cleanup_snoc (l : list Effect) (e : Effect) :
  cleanup (l ++ [e]) = l ++ [mkEffect true (settled e)].
Proof.
  unfold cleanup. rewrite rev_app_distr. cbn [rev app].
  rewrite rev_involutive. reflexivity.
Qed.

Lemma settle_length (k : nat) (l : list Effect) :
  List.length (settle k l) = List.length l.
Proof.
  revert k. induction l as [| e l IH]; intros [| k]; cbn; auto.
Qed.

Lemma settle_snoc (k : nat) (l : list Effect) (e : Effect) :
  settle k (l ++ [e]) =
  if Nat.ltb k (List.length l) then settle k l ++ [e]
  else if Nat.eqb k (List.length l) then l ++ [mkEffect (cancelled e) true]
  else l ++ [e].
Proof.
  revert k. induction l as [| x l IH]; intros [| k]; cbn [settle app List.length];
    try reflexivity.
  - destruct k; reflexivity.
  - rewrite IH. change (Nat.ltb (S k) (S (List.length l))) with (Nat.ltb k (List.length l)).
    change (Nat.eqb (S k) (S (List.length l))) with (Nat.eqb k (List.length l)).
    destruct (Nat.ltb k (List.length l)); [reflexivity |].
    destruct (Nat.eqb k (List.length l)); reflexivity.
Qed.

Lemma settle_stale (k : nat) (l : list Effect) :
  Forall stale l -> Forall stale (settle k l).
Proof.
  intros H. revert k. induction H as [| e l He Hl IH]; intros [| k]; cbn [settle];
    constructor; auto.
Qed.

Lemma steps_snoc (evs : list event) (ev : event) :
  steps (evs ++ [ev]) = step (steps evs) ev.
Proof. unfold steps. now rewrite fold_left_app. Qed.

Lemma cleanup_stale (l : list Effect) : Forall stale l -> Forall stale (cleanup l).
Proof.
  destruct l as [| e l _] using rev_ind; [auto |].
  rewrite cleanup_snoc. intros H. apply Forall_app in H as [H _].
  apply Forall_app. split; auto. repeat constructor.
Qed.

(** A mounted hook: one run of the effect per (re)run, every run but
    the latest stale, and [loading] set while the promise of the latest
    run is pending. *)
Lemma hook_shape (evs : list event) :
  exists l e, effects (steps evs) = l ++ [e] /\ Forall stale l /\
    List.length l = reruns evs /\
    (settled e = false -> loading (state (steps evs)) = true).
Proof.
  induction evs as [| ev evs (l & e & Hl & Hs & Hn & Hp)] using rev_ind.
  - exists [], (mkEffect false false). repeat split; constructor.
  - rewrite steps_snoc. unfold reruns in *. rewrite filter_app, length_app, <- Hn.
    set (h := steps evs) in *.
    destruct ev as [| k o |]; cbn [step filter List.length].
    + exists (l ++ [mkEffect true (settled e)]), (mkEffect false false).
      cbn [runEffect effects state]. rewrite Hl, cleanup_snoc.
      split; [reflexivity |]. split; [| split; [now rewrite length_app | reflexivity]].
      apply Forall_app. split; auto. repeat constructor.
    + rewrite Nat.add_0_r.
      destruct (nth_error (effects h) k) as [x |] eqn:Hk; [| exists l, e; auto].
      destruct (settled x) eqn:Hx; [exists l, e; auto |].
      cbn [effects state]. rewrite Hl, settle_snoc. rewrite Hl in Hk.
      destruct (Nat.ltb_spec k (List.length l)) as [Hlt | Hge].
      * exists (settle k l), e. split; [reflexivity |].
        split; [now apply settle_stale |]. split; [apply settle_length |].
        intros He. rewrite cancelled_settle; auto.
        rewrite nth_error_app1 in Hk by auto.
        apply nth_error_In in Hk. rewrite Forall_forall in Hs. now apply Hs.
      * destruct (Nat.eqb_spec k (List.length l)) as [-> | Hne].
        -- exists l, (mkEffect (cancelled e) true). repeat split; auto. discriminate.
        -- assert (Hlen : (k < List.length (l ++ [e]))%nat)
             by (apply nth_error_Some; congruence).
           rewrite length_app in Hlen. cbn in Hlen. lia.
    + rewrite Nat.add_0_r. cbn [effects state]. rewrite Hl, cleanup_snoc.
      exists l, (mkEffect true (settled e)). repeat split; auto.
Qed.

Lemma nth_error_stale (l : list Effect) (k : nat) (x : Effect) :
  Forall stale l -> nth_error l k = Some x -> cancelled x = true.
Proof.
  intros H Hk. apply nth_error_In in Hk. rewrite Forall_forall in H. now apply H.
Qed.

(** A settling promise of a stale run leaves the state as it is. *)
Lemma step_stale (h : Hook) (k : nat) (o : outcome) :
  (forall x, nth_error (effects h) k = Some x -> cancelled x = true) ->
  state (step h (Settle k o)) = state h.
Proof.
  intros H. cbn [step]. destruct (nth_error (effects h) k) as [x |]; [| reflexivity].
  destruct (settled x); [reflexivity |]. cbn [state].
  apply cancelled_settle. now apply H.
Qed.

(** Once every run is stale, and no new run starts, the state stays. *)
Lemma all_stale_frozen (evs : list event) (h : Hook) :
  ~ In Rerun evs -> Forall stale (effects h) ->
  state (fold_left step evs h) = state h.
Proof.
  revert h. induction evs as [| ev evs IH]; intros h Hr Hs; cbn [fold_left]; auto.
  assert (Hev : ev <> Rerun) by (intros ->; apply Hr; now left).
  assert (Hr' : ~ In Rerun evs) by (intros Hin; apply Hr; now right).
  destruct ev as [| k o |]; [congruence | |].
  - rewrite IH; auto.
    + apply step_stale. intros x Hx. eapply nth_error_stale; eauto.
    + cbn [step]. destruct (nth_error (effects h) k) as [x |]; auto.
      destruct (settled x); auto. cbn [effects]. now apply settle_stale.
  - rewrite IH; auto. cbn [step effects]. now apply cleanup_stale.
Qed.

End LoaderInvariants.

(** X6. After the hook unmounts nothing updates its state any more:
    whatever promises settle afterwards, the state is the one at the
    unmount. *)
Theorem unmount_freezes_state (before after : list Loader.event) :
  ~ In Loader.Rerun after ->
  Loader.state (Loader.steps (before ++ Loader.Unmount :: after))
  = Loader.state (Loader.steps before).
Proof.
  intros Hr. unfold Loader.steps. rewrite fold_left_app. cbn [fold_left].
  fold (Loader.steps before).
  rewrite all_stale_frozen; auto.
  destruct (hook_shape before) as (l & e & Hl & Hs & _).
  cbn [Loader.step Loader.effects]. rewrite Hl, cleanup_snoc.
  apply Forall_app. split; auto. repeat constructor.
Qed.

Lemma unmount_freezes_state_witness :
  Loader.state
    (Loader.steps [Loader.Unmount; Loader.Settle 0 (Loader.Resolve [Cart.headphones])])
  = Loader.initial.
Proof.
  apply (unmount_freezes_state [] [Loader.Settle 0 (Loader.Resolve [Cart.headphones])]).
  intros [H | []]. discriminate.
Defined.

(** X7. The response of a run that a later run has superseded is
    discarded: when the promise of run k settles after the effect has
    run again more than k times, the state does not change. *)
Theorem superseded_run_ignored (evs : list Loader.event) (k : nat) (o : Loader.outcome) :
  (k < Loader.reruns evs)%nat ->
  Loader.state (Loader.steps (evs ++ [Loader.Settle k o]))
  = Loader.state (Loader.steps evs).
Proof.
  intros Hk. rewrite steps_snoc.
  destruct (hook_shape evs) as (l & e & Hl & Hs & Hn & _).
  apply step_stale. intros x Hx. rewrite Hl, nth_error_app1 in Hx by lia.
  eapply nth_error_stale; eauto.
Qed.

Lemma superseded_run_ignored_witness :
  Loader.state
    (Loader.steps [Loader.Rerun; Loader.Settle 0 (Loader.Reject "Network error")])
  = Loader.initial.
Proof.
  apply (superseded_run_ignored [Loader.Rerun] 0 (Loader.Reject "Network error")).
  cbn. lia.
Defined.

(** X8. The effect has run once at the mount and once more for each
    change of the api; and as long as the promise of the latest run is
    pending, loading is true. *)
Theorem loading_while_pending (evs : list Loader.event) :
  List.length (Loader.effects (Loader.steps evs)) = S (Loader.reruns evs)
  /\
  (forall e, Loader.latest (Loader.steps evs) = Some e -> Loader.settled e = false ->
             Loader.loading (Loader.state (Loader.steps evs)) = true).
Proof.
  destruct (hook_shape evs) as (l & e & Hl & Hs & Hn & Hp).
  split.
  - rewrite Hl, length_app, Hn. cbn. lia.
  - intros x Hx. unfold Loader.latest in Hx. rewrite Hl, length_app in Hx.
    cbn [List.length] in Hx.
    replace (pred (List.length l + 1)) with (List.length l) in Hx by lia.
    rewrite nth_error_app2, Nat.sub_diag in Hx by lia. cbn in Hx.
    injection Hx as <-. exact Hp.
Qed.

(** X9. An error, once set, is never cleared: no later event of the
    hook (a new run of the effect included) brings error back to
    null. *)
Theorem error_never_cleared (evs : list Loader.event) (h : Loader.Hook) (m : string) :
  Loader.error (Loader.state h) = Some m ->
  exists m', Loader.error (Loader.state (fold_left Loader.step evs h)) = Some m'.
Proof.
  revert h m. induction evs as [| ev evs IH]; intros h m Hh; cbn [fold_left]; eauto.
  assert (H : exists m', Loader.error (Loader.state (Loader.step h ev)) = Some m').
  { destruct ev as [| k o |]; cbn [Loader.step]; eauto.
    destruct (nth_error (Loader.effects h) k) as [x |]; eauto.
    destruct (Loader.settled x); eauto. cbn [Loader.state].
    destruct o as [data | message]; cbn [Loader.handler];
      destruct (negb (Loader.cancelled x)); eauto; cbn; eauto. }
  destruct H as [m' H]. eapply IH; eauto.
Qed.

Lemma error_never_cleared_witness :
  exists m',
    Loader.error
      (Loader.state
         (Loader.steps [Loader.Settle 0 (Loader.Reject "Network error"); Loader.Rerun;
                        Loader.Settle 1 (Loader.Resolve [Cart.headphones])]))
    = Some m'.
Proof.
  apply (error_never_cleared
           [Loader.Rerun; Loader.Settle 1 (Loader.Resolve [Cart.headphones])]
           (Loader.step Loader.mount (Loader.Settle 0 (Loader.Reject "Network error")))
           "Network error").
  reflexivity.
Defined.

(** ** Order properties of the pricing functions *)

Section PricingOrder.
Import Pricing.

Lemma calculateDiscount_in_range (price d : number) :
  le (of_Z 0) d = true -> le d (of_Z 100) = true ->
  calculateDiscount price d
  = Return (round2 (mul price (sub (of_Z 1) (div d (of_Z 100))))).
Proof.
  intros H0 H100. unfold calculateDiscount.
  now rewrite (le_0_not_lt _ H0), (le_not_gt _ _ H100).
Qed.

Lemma total_fold_mono (l l' : list PricedLine) (acc acc' : number) :
  Forall2 (fun i i' =>
             nonneg (price i) = true /\ nonneg (quantity i) = true /\
             nonneg (price i') = true /\ isFinite (price i') = true /\
             nonneg (quantity i') = true /\ isFinite (quantity i') = true /\
             le (price i) (price i') = true /\
             le (quantity i) (quantity i') = true) l l' ->
  nonneg acc = true -> nonneg acc' = true -> le acc acc' = true ->
  le (fold_left (fun sum item => add sum (mul (price item) (quantity item))) l acc)
     (fold_left (fun sum item => add sum (mul (price item) (quantity item))) l' acc')
  = true /\
  nonneg (fold_left (fun sum item => add sum (mul (price item) (quantity item))) l acc)
  = true /\
  nonneg (fold_left (fun sum item => add sum (mul (price item) (quantity item))) l' acc')
  = true.
Proof.
  intros H. revert acc acc'.
  induction H as [| i i' l l' (Np & Nq & Np' & Fp' & Nq' & Fq' & Lp & Lq) _ IH];
    intros acc acc' Ha Ha' Hle; cbn [fold_left]; [auto |].
  destruct (mul_mono (price i) (price i') (quantity i) (quantity i'))
    as (Lm & Nm & Nm'); auto.
  destruct (add_mono acc acc' _ _ Ha Ha' Nm Nm' Hle Lm) as (Ls & Ns & Ns').
  now apply IH.
Qed.

End PricingOrder.



(** X11. The tax grows with the amount and with the rate: for
    non-negative finite amounts and rates, a lower amount at a lower
    rate never gives a higher tax. *)
Theorem calculateTax_monotone (price price' rate rate' : number) :
  valid price = true -> le (of_Z 0) price = true ->
  valid price' = true -> isFinite price' = true ->
  valid rate = true -> le (of_Z 0) rate = true ->
  valid rate' = true -> isFinite rate' = true ->
  le price price' = true -> le rate rate' = true ->
  le (Pricing.calculateTax price (Some rate)) (Pricing.calculateTax price' (Some rate'))
  = true.
Proof.
  intros Vp Hp Vp' Fp' Vr Hr Vr' Fr' Lp Lr.
  pose proof (nonneg_of_le _ Vp Hp) as Np.
  pose proof (nonneg_of_le _ Vr Hr) as Nr.
  pose proof (le_nonneg_r price price' Np Vp' Lp) as Np'.
  pose proof (le_nonneg_r rate rate' Nr Vr' Lr) as Nr'.
  destruct (mul_mono price price' rate rate') as (L & N & N'); auto.
  exact (proj1 (round2_mono _ _ N N' L)).
Qed.

Lemma calculateTax_monotone_witness :
  le (Pricing.calculateTax (decimal 4999 2) (Some (decimal 1 1)))
     (Pricing.calculateTax (of_Z 72) (Some (decimal 25 2))) = true.
Proof.
  apply calculateTax_monotone; reflexivity.
Defined.

(** X12. A lower price or a higher discount never gives a higher
    discounted price: for non-negative finite prices and discounts
    between 0 and 100, calculateDiscount grows with the price and
    falls with the discount. *)
Theorem calculateDiscount_monotone (price price' d d' : number) :
  valid price = true -> le (of_Z 0) price = true ->
  valid price' = true -> isFinite price' = true ->
  valid d = true -> le d (of_Z 100) = true ->
  valid d' = true -> le (of_Z 0) d' = true ->
  le price price' = true -> le d' d = true ->
  exists r r',
    Pricing.calculateDiscount price d = Return r /\
    Pricing.calculateDiscount price' d' = Return r' /\
    le r r' = true.
Proof.
  intros Vp Hp Vp' Fp' Vd Hd Vd' Hd' Lp Ld.
  pose proof (nonneg_of_le _ Vp Hp) as Np.
  pose proof (nonneg_of_le _ Vd' Hd') as Nd'.
  pose proof (le_nonneg_r price price' Np Vp' Lp) as Np'.
  assert (N100 : nonneg (of_Z 100) = true) by reflexivity.
  pose proof (le_nonneg_r d' d Nd' Vd Ld) as Nd.
  assert (Hd0 : le (of_Z 0) d = true) by now apply le_0_nonneg.
  assert (Hd'100 : le d' (of_Z 100) = true)
    by (apply (le_trans_nonneg _ d _); auto).
  destruct (discount_factor d Vd Hd0 Hd) as (Ng & Lg & Nf & Lf & Ff).
  destruct (discount_factor d' Vd' Hd' Hd'100) as (Ng' & Lg' & Nf' & Lf' & Ff').
  destruct (div_100_mono d' d Nd' Nd Ld) as (Lgg & _ & _).
  pose proof (sub_one_anti _ _ Ng' Ng Lgg Lg) as La.
  destruct (mul_mono price price' _ _ Np Np' Nf Nf' Fp' Ff' Lp La) as (L & N & N').
  rewrite (calculateDiscount_in_range price d Hd0 Hd).
  rewrite (calculateDiscount_in_range price' d' Hd' Hd'100).
  do 2 eexists. split; [reflexivity | split; [reflexivity |]].
  exact (proj1 (round2_mono _ _ N N' L)).
Qed.

Lemma calculateDiscount_monotone_witness :
  exists r r',
    Pricing.calculateDiscount (decimal 4999 2) (of_Z 33) = Return r /\
    Pricing.calculateDiscount (of_Z 80) (of_Z 10) = Return r' /\
    le r r' = true.
Proof.
  apply calculateDiscount_monotone; reflexivity.
Defined.

(** X13. Over lines with non-negative finite prices and quantities the
    total is not negative, a further line never lowers it, and raising
    prices or quantities line by line never lowers it. *)
Theorem calculateTotal_monotone (items items' : list Pricing.PricedLine)
  (line : Pricing.PricedLine) :
  Forall2 (fun i i' =>
             nonneg (Pricing.price i) = true /\ nonneg (Pricing.quantity i) = true /\
             nonneg (Pricing.price i') = true /\ isFinite (Pricing.price i') = true /\
             nonneg (Pricing.quantity i') = true /\
             isFinite (Pricing.quantity i') = true /\
             le (Pricing.price i) (Pricing.price i') = true /\
             le (Pricing.quantity i) (Pricing.quantity i') = true) items items' ->
  nonneg (Pricing.price line) = true -> isFinite (Pricing.price line) = true ->
  nonneg (Pricing.quantity line) = true -> isFinite (Pricing.quantity line) = true ->
  le (of_Z 0) (Pricing.calculateTotal items) = true /\
  le (Pricing.calculateTotal items) (Pricing.calculateTotal items') = true /\
  le (Pricing.calculateTotal items') (Pricing.calculateTotal (items' ++ [line])) = true.
Proof.
  intros H Np Fp Nq Fq.
  destruct (total_fold_mono items items' (of_Z 0) (of_Z 0) H) as (L & N & N');
    try reflexivity.
  destruct (round2_mono _ _ N N' L) as (L2 & N2 & N2').
  split; [now apply le_0_nonneg | split; [exact L2 |]].
  unfold Pricing.calculateTotal. rewrite fold_left_app. cbn [fold_left].
  destruct (mul_mono (Pricing.price line) (Pricing.price line)
                     (Pricing.quantity line) (Pricing.quantity line))
    as (_ & Nm & _); auto using le_refl_nonneg.
  pose proof (add_ge_l _ _ N' Nm) as Lg.
  destruct (add_mono_l (S754_zero false) (mul (Pricing.price line) (Pricing.quantity line))
              _ eq_refl Nm N') as (_ & _ & Ns); [now apply le_zero_l |].
  rewrite add_comm in Ns.
  exact (proj1 (round2_mono _ _ N' Ns Lg)).
Qed.

Lemma calculateTotal_monotone_witness :
  le (of_Z 0) (Pricing.calculateTotal [Pricing.mkLine (of_Z 10) (of_Z 2)]) = true /\
  le (Pricing.calculateTotal [Pricing.mkLine (of_Z 10) (of_Z 2)])
     (Pricing.calculateTotal [Pricing.mkLine (of_Z 10) (of_Z 3)]) = true /\
  le (Pricing.calculateTotal [Pricing.mkLine (of_Z 10) (of_Z 3)])
     (Pricing.calculateTotal [Pricing.mkLine (of_Z 10) (of_Z 3);
                              Pricing.mkLine (decimal 55 1) (of_Z 3)]) = true.
Proof.
  apply (calculateTotal_monotone [Pricing.mkLine (of_Z 10) (of_Z 2)]
           [Pricing.mkLine (of_Z 10) (of_Z 3)] (Pricing.mkLine (decimal 55 1) (of_Z 3)));
    try reflexivity.
  repeat constructor.
Defined.

(** ** The derived totals of the cart *)

Section CartTotals.
Import Cart.

Lemma nonneg_valid (x : number) : nonneg x = true -> valid x = true.
Proof.
  intros H. destruct (nonneg_cases _ H) as [[s ->] | [(m & e & -> & B) | ->]];
    auto.
Qed.

(** The sum of the line totals of a cart with non-negative finite
    prices and quantities. *)
Lemma subtotal_fold_nonneg (l : list CartItem) (acc : number) :
  Forall (fun i => nonneg (price (product i)) = true /\
                   isFinite (price (product i)) = true /\
                   nonneg (quantity i) = true /\ isFinite (quantity i) = true) l ->
  nonneg acc = true ->
  nonneg (fold_left (fun sum item =>
                       add sum (mul (Pricing.price item) (Pricing.quantity item)))
            (map (fun i => Pricing.mkLine (price (product i)) (quantity i)) l) acc)
  = true.
Proof.
  intros H. revert acc. induction H as [| i l (Np & Fp & Nq & Fq) _ IH];
    intros acc Hacc; cbn [map fold_left Pricing.price Pricing.quantity]; auto.
  apply IH.
  destruct (mul_mono (price (product i)) (price (product i)) (quantity i) (quantity i))
    as (_ & Nm & _); auto using le_refl_nonneg.
  destruct (add_mono_l acc acc (mul (price (product i)) (quantity i)))
    as (_ & Ns & _); auto using le_refl_nonneg.
Qed.

(** The totals a render computes from the subtotal. *)
Lemma totals_order (sub d : number) :
  nonneg sub = true -> Pricing.round2 sub = sub -> le sub (of_Z (10 ^ 13)) = true ->
  valid d = true -> le (of_Z 0) d = true -> le d (of_Z 100) = true ->
  let dt := Pricing.round2 (mul sub (Js.sub (of_Z 1) (div d (of_Z 100)))) in
  let tax := Pricing.calculateTax dt None in
  nonneg dt = true /\ le dt sub = true /\
  nonneg tax = true /\ le tax dt = true /\
  le dt (Pricing.round2 (add dt tax)) = true.
Proof.
  intros Ns Hfix Hle Vd Hd0 Hd100 dt tax.
  assert (N13 : nonneg (of_Z (10 ^ 13)) = true) by reflexivity.
  assert (Fs : isFinite sub = true)
    by (apply (nonneg_finite_le sub (of_Z (10 ^ 13))); auto).
  destruct (discount_factor d Vd Hd0 Hd100) as (_ & _ & Nf & Lf & Ff).
  destruct (mul_fraction sub _ Ns Fs Nf Lf) as (Nx & Hx).
  destruct (round2_mono _ _ Nx Ns Hx) as (Ldt & Ndt & _).
  fold dt in Ldt, Ndt. rewrite Hfix in Ldt.
  assert (Ldt13 : le dt (of_Z (10 ^ 13)) = true)
    by (apply (le_trans_nonneg _ sub _); auto).
  assert (Fdt : isFinite dt = true)
    by (apply (nonneg_finite_le dt (of_Z (10 ^ 13))); auto).
  assert (Hdt : Pricing.round2 dt = dt) by (apply round2_idem; auto).
  destruct (mul_fraction dt (decimal 1 1) Ndt Fdt eq_refl eq_refl) as (Nt & Ht).
  destruct (round2_mono _ _ Nt Ndt Ht) as (Ltax & Ntax & _).
  change (Pricing.round2 (mul dt (decimal 1 1))) with tax in Ltax, Ntax.
  rewrite Hdt in Ltax.
  pose proof (add_ge_l dt tax Ndt Ntax) as Lsum.
  destruct (add_mono_l dt dt tax Ndt Ndt Ntax) as (_ & Nsum & _);
    [now apply le_refl_nonneg |].
  destruct (round2_mono _ _ Ndt Nsum Lsum) as (Ltot & _ & _).
  rewrite Hdt in Ltot. auto.
Qed.

Lemma count_fold (l : list (Product * Z)) (acc : Z) :
  Forall (fun pz => (0 <= snd pz)%Z) l -> (0 <= acc)%Z ->
  (acc + fold_right Z.add 0 (map snd l) < 2 ^ 53)%Z ->
  fold_left (fun sum i => add sum (quantity i))
            (map (fun pz => mkItem (fst pz) (of_Z (snd pz))) l) (of_Z acc)
  = of_Z (acc + fold_right Z.add 0 (map snd l)).
Proof.
  intros H. revert acc. induction H as [| [p z] l Hz Hl IH]; intros acc Hacc Hsum;
    cbn [map fold_left fold_right quantity fst snd] in *.
  - now rewrite Z.add_0_r.
  - assert (Hs : (0 <= fold_right Z.add 0 (map snd l))%Z).
    { clear - Hl. induction Hl as [| [q y] l Hy _ IH]; cbn in *; lia. }
    change (add (of_Z acc) (of_Z z)) with (add (dyadic acc 0) (dyadic z 0)).
    rewrite (dyadic_add acc z 0) by lia.
    change (dyadic (acc + z) 0) with (of_Z (acc + z)).
    rewrite IH by lia. f_equal. lia.
Qed.

End CartTotals.

(** X14. The render of useCart throws exactly when the discount is
    below 0 or above 100, whatever the cart holds, and then with the
    error of calculateDiscount; without a discount argument it never
    throws. *)
Theorem useCart_throws_iff (d : number) (items : list Cart.CartItem) :
  ((exists e, Cart.useCart (Some d) items = Throw e) <->
   (lt d (of_Z 0) = true \/ gt d (of_Z 100) = true))
  /\
  (forall e, Cart.useCart (Some d) items = Throw e ->
             e = Error "Discount must be between 0 and 100")
  /\
  (exists v, Cart.useCart None items = Return v /\ Cart.items v = items).
Proof.
  unfold Cart.useCart, Pricing.calculateDiscount. split; [| split].
  - destruct (lt d (of_Z 0)) eqn:H0; cbn [orb bind].
    + split; eauto.
    + destruct (gt d (of_Z 100)) eqn:H1; cbn [bind].
      * split; eauto.
      * split; [intros [e He]; discriminate | intros [H | H]; discriminate].
  - intros e. destruct (lt d (of_Z 0) || gt d (of_Z 100)); cbn [bind]; congruence.
  - change (lt (of_Z 0) (of_Z 0) || gt (of_Z 0) (of_Z 100)) with false.
    cbn [bind]. eexists. split; reflexivity.
Qed.

(** X15. The empty cart renders zero everywhere, for every discount
    between 0 and 100; so does the cart after clearCart, whatever the
    calls before. *)
Theorem useCart_empty (d : number) (calls : list Cart.call) :
  valid d = true -> le (of_Z 0) d = true -> le d (of_Z 100) = true ->
  Cart.run (calls ++ [Cart.ClearCart]) = [] /\
  Cart.useCart (Some d) []
  = Return (Cart.mkView [] (of_Z 0) (of_Z 0) (of_Z 0) (of_Z 0) (of_Z 0)).
Proof.
  intros Vd Hd0 Hd100. split.
  - unfold Cart.run. now rewrite fold_left_app.
  - unfold Cart.useCart. cbn [map].
    change (Pricing.calculateTotal []) with (of_Z 0).
    rewrite (calculateDiscount_in_range _ _ Hd0 Hd100). cbn [bind].
    destruct (discount_factor d Vd Hd0 Hd100) as (Ng & Lg & Nf & Lf & Ff).
    assert (E : mul (of_Z 0) (sub (of_Z 1) (div d (of_Z 100))) = of_Z 0).
    { destruct (nonneg_cases _ Nf) as [[s Es] | [(m & e & Es & B) | Es]];
        rewrite Es in *; try discriminate; try reflexivity.
      rewrite (discount_factor_zero _ s Ng Lg Es). reflexivity. }
    rewrite E. reflexivity.
Qed.

Lemma useCart_empty_witness :
  Cart.run ([Cart.AddItem Cart.headphones] ++ [Cart.ClearCart]) = [] /\
  Cart.useCart (Some (of_Z 10)) []
  = Return (Cart.mkView [] (of_Z 0) (of_Z 0) (of_Z 0) (of_Z 0) (of_Z 0)).
Proof.
  apply (useCart_empty (of_Z 10) [Cart.AddItem Cart.headphones]); reflexivity.
Defined.

(** X16. For a cart with non-negative finite prices and quantities
    and a subtotal up to ten trillion, at every discount between 0 and
    100: 0 <= discountedTotal <= subtotal, 0 <= tax <= discountedTotal
    and discountedTotal <= total. *)
Theorem useCart_totals_order (d : number) (items : list Cart.CartItem) (v : Cart.View) :
  valid d = true -> le (of_Z 0) d = true -> le d (of_Z 100) = true ->
  Forall (fun i => nonneg (Cart.price (Cart.product i)) = true /\
                   isFinite (Cart.price (Cart.product i)) = true /\
                   nonneg (Cart.quantity i) = true /\
                   isFinite (Cart.quantity i) = true) items ->
  Cart.useCart (Some d) items = Return v ->
  le (Cart.subtotal v) (of_Z (10 ^ 13)) = true ->
  le (of_Z 0) (Cart.discountedTotal v) = true /\
  le (Cart.discountedTotal v) (Cart.subtotal v) = true /\
  le (of_Z 0) (Cart.tax v) = true /\
  le (Cart.tax v) (Cart.discountedTotal v) = true /\
  le (Cart.discountedTotal v) (Cart.total v) = true.
Proof.
  intros Vd Hd0 Hd100 Hitems Hv Hle.
  unfold Cart.useCart in Hv.
  rewrite (calculateDiscount_in_range _ _ Hd0 Hd100) in Hv. cbn [bind] in Hv.
  injection Hv as <-. cbn [Cart.subtotal Cart.discountedTotal Cart.tax Cart.total] in *.
  pose proof (subtotal_fold_nonneg items (of_Z 0) Hitems eq_refl) as Ns.
  unfold Pricing.calculateTotal in *.
  set (s := fold_left _ _ (of_Z 0)) in *.
  change (div (Math_round (mul s (of_Z 100))) (of_Z 100)) with (Pricing.round2 s) in *.
  destruct (round2_mono s s Ns Ns) as (_ & Nsub & _); [now apply le_refl_nonneg |].
  pose proof (round2_idem s Ns Hle) as Hfix.
  destruct (totals_order _ d Nsub Hfix Hle Vd Hd0 Hd100) as (A & B & C & D & E).
  repeat split; auto using le_0_nonneg.
Qed.

Lemma useCart_totals_order_witness :
  exists v,
    Cart.useCart (Some (of_Z 10)) [Cart.mkItem Cart.headphones (of_Z 1)] = Return v /\
    le (of_Z 0) (Cart.discountedTotal v) = true /\
    le (Cart.discountedTotal v) (Cart.subtotal v) = true /\
    le (of_Z 0) (Cart.tax v) = true /\
    le (Cart.tax v) (Cart.discountedTotal v) = true /\
    le (Cart.discountedTotal v) (Cart.total v) = true.
Proof.
  eexists. split; [reflexivity |].
  apply (useCart_totals_order (of_Z 10) [Cart.mkItem Cart.headphones (of_Z 1)]);
    try reflexivity.
  repeat constructor.
Defined.

(** X17. Without a discount the discounted total is the subtotal: for
    a cart with non-negative finite prices and quantities and a
    subtotal up to ten trillion, useCart() renders discountedTotal
    equal to subtotal. *)
Theorem useCart_no_discount (items : list Cart.CartItem) :
  Forall (fun i => nonneg (Cart.price (Cart.product i)) = true /\
                   isFinite (Cart.price (Cart.product i)) = true /\
                   nonneg (Cart.quantity i) = true /\
                   isFinite (Cart.quantity i) = true) items ->
  exists v,
    Cart.useCart None items = Return v /\
    (le (Cart.subtotal v) (of_Z (10 ^ 13)) = true ->
     Cart.discountedTotal v = Cart.subtotal v).
Proof.
  intros Hitems. unfold Cart.useCart.
  rewrite (calculateDiscount_in_range _ (of_Z 0) eq_refl eq_refl). cbn [bind].
  eexists. split; [reflexivity |].
  cbn [Cart.subtotal Cart.discountedTotal].
  pose proof (subtotal_fold_nonneg items (of_Z 0) Hitems eq_refl) as Ns.
  unfold Pricing.calculateTotal.
  set (s := fold_left _ _ (of_Z 0)) in *.
  change (div (Math_round (mul s (of_Z 100))) (of_Z 100)) with (Pricing.round2 s).
  intros Hle.
  destruct (round2_mono s s Ns Ns) as (_ & Nsub & _); [now apply le_refl_nonneg |].
  change (sub (of_Z 1) (div (of_Z 0) (of_Z 100))) with (of_Z 1).
  rewrite mul_one by now apply nonneg_valid.
  now apply round2_idem.
Qed.

Lemma useCart_no_discount_witness :
  exists v,
    Cart.useCart None [Cart.mkItem Cart.headphones (of_Z 2)] = Return v /\
    (le (Cart.subtotal v) (of_Z (10 ^ 13)) = true ->
     Cart.discountedTotal v = Cart.subtotal v).
Proof.
  apply (useCart_no_discount [Cart.mkItem Cart.headphones (of_Z 2)]).
  repeat constructor.
Defined.

(** X18. itemCount is the exact number of units: for integer
    quantities >= 0 that add up to less than 2^53, every render of the
    cart has itemCount equal to their sum. *)
Theorem itemCount_exact (d : option number) (l : list (Cart.Product * Z)) (v : Cart.View) :
  Forall (fun pz => 0 <= snd pz) l ->
  fold_right Z.add 0 (map snd l) < 2 ^ 53 ->
  Cart.useCart d (map (fun pz => Cart.mkItem (fst pz) (of_Z (snd pz))) l) = Return v ->
  Cart.itemCount v = of_Z (fold_right Z.add 0 (map snd l)).
Proof.
  intros Hl Hsum Hv. unfold Cart.useCart in Hv.
  destruct (Pricing.calculateDiscount _ _) as [dt | e]; cbn [bind] in Hv;
    [| discriminate].
  injection Hv as <-. cbn [Cart.itemCount].
  exact (count_fold l 0 Hl (Z.le_refl 0) Hsum).
Qed.

Lemma itemCount_exact_witness :
  exists v,
    Cart.useCart None [Cart.mkItem Cart.headphones (of_Z 2);
                       Cart.mkItem (Cart.mkProduct "2" "Keyboard" (of_Z 120) "keyboard")
                         (of_Z 3)] = Return v /\
    Cart.itemCount v = of_Z 5.
Proof.
  eexists. split; [reflexivity |].
  apply (itemCount_exact None
           [(Cart.headphones, 2);
            (Cart.mkProduct "2" "Keyboard" (of_Z 120) "keyboard", 3)]).
  - repeat constructor; cbn; lia.
  - cbn. lia.
  - reflexivity.
Defined.

(** X19. Adding a new product k times, for 1 <= k < 2^53, leaves one
    line for it at the end of the cart, with quantity k. *)
Theorem addItem_repeat (p : Cart.Product) (prev : list Cart.CartItem) (k : nat) :
  ~ In (Cart.id p) (Cart.ids prev) ->
  (1 <= k)%nat -> Z.of_nat k < 2 ^ 53 ->
  Nat.iter k (Cart.addItem p) prev = prev ++ [Cart.mkItem p (of_Z (Z.of_nat k))].
Proof.
  intros Hp H1 Hk. induction k as [| k IH]; [lia |].
  destruct k as [| k].
  - cbn [Nat.iter nat_rect]. now apply addItem_absent.
  - change (Nat.iter (S (S k)) (Cart.addItem p) prev)
      with (Cart.addItem p (Nat.iter (S k) (Cart.addItem p) prev)).
    rewrite IH by lia. rewrite addItem_last by auto.
    change (add (of_Z (Z.of_nat (S k))) (of_Z 1))
      with (add (dyadic (Z.of_nat (S k)) 0) (dyadic 1 0)).
    rewrite (dyadic_add (Z.of_nat (S k)) 1 0) by lia.
    do 3 f_equal. change (dyadic ?a 0) with (of_Z a). f_equal. lia.
Qed.

Lemma addItem_repeat_witness :
  Nat.iter 3 (Cart.addItem Cart.headphones) []
  = [] ++ [Cart.mkItem Cart.headphones (of_Z 3)].
Proof.
  apply (addItem_repeat Cart.headphones [] 3).
  - intros [].
  - lia.
  - cbn. lia.
Defined.

Section Subtotal.
Import Cart.

(** Raising the quantity of the lines of one product by 1, in a cart
    of whole quantities and non-negative finite prices. *)
Lemma lines_raised (pid : string) (l : list CartItem) :
  (forall i, In i l ->
     nonneg (price (product i)) = true /\ isFinite (price (product i)) = true /\
     exists m e, quantity i = S754_finite false m e /\
                 bounded prec emax m e = true /\
                 whole_quantity (quantity i) = true) ->
  Forall2 (fun i i' =>
             nonneg (Pricing.price i) = true /\ nonneg (Pricing.quantity i) = true /\
             nonneg (Pricing.price i') = true /\ isFinite (Pricing.price i') = true /\
             nonneg (Pricing.quantity i') = true /\
             isFinite (Pricing.quantity i') = true /\
             le (Pricing.price i) (Pricing.price i') = true /\
             le (Pricing.quantity i) (Pricing.quantity i') = true)
    (map (fun i => Pricing.mkLine (price (product i)) (quantity i)) l)
    (map (fun i => Pricing.mkLine (price (product i)) (quantity i))
       (map (fun i => if String.eqb (id (product i)) pid
                      then mkItem (product i) (add (quantity i) (of_Z 1)) else i) l)).
Proof.
  induction l as [| i l IH]; intros H; cbn [map]; constructor.
  - destruct (H i (or_introl eq_refl)) as (Np & Fp & m & e & Hq & Hb & Hw).
    assert (Nq : nonneg (quantity i) = true) by (rewrite Hq; cbn; now rewrite Hb).
    assert (Fq : isFinite (quantity i) = true) by now rewrite Hq.
    destruct (String.eqb (id (product i)) pid);
      cbn [Pricing.price Pricing.quantity product quantity].
    + apply andb_prop in Hw as [Hi _]. rewrite Hq in Hi |- *.
      destruct (add_one_whole m e Hb Hi) as (m' & e' & E & Hb' & _ & _).
      assert (N' : nonneg (add (S754_finite false m e) (of_Z 1)) = true)
        by (rewrite E; cbn; now rewrite Hb').
      assert (F' : isFinite (add (S754_finite false m e) (of_Z 1)) = true)
        by now rewrite E.
      rewrite <- Hq in *.
      repeat split; auto using le_refl_nonneg.
      apply add_ge_l; auto.
    + repeat split; auto using le_refl_nonneg.
  - apply IH. intros j Hj. apply H. now right.
Qed.

End Subtotal.

(** X28. addItem never lowers the subtotal: in a cart with one line
    per product, whole quantities and non-negative finite prices,
    adding a product with a non-negative finite price gives a subtotal
    at least as large. *)
Theorem addItem_raises_subtotal (p : Cart.Product) (prev : list Cart.CartItem) :
  Cart.whole_cart prev ->
  Forall (fun i => nonneg (Cart.price (Cart.product i)) = true /\
                   isFinite (Cart.price (Cart.product i)) = true) prev ->
  nonneg (Cart.price p) = true -> isFinite (Cart.price p) = true ->
  le (Pricing.calculateTotal
        (map (fun i => Pricing.mkLine (Cart.price (Cart.product i)) (Cart.quantity i))
           prev))
     (Pricing.calculateTotal
        (map (fun i => Pricing.mkLine (Cart.price (Cart.product i)) (Cart.quantity i))
           (Cart.addItem p prev))) = true.
Proof.
  intros [_ Hq] Hp Np Fp. rewrite Forall_forall in Hp.
  assert (H : forall i, In i prev ->
            nonneg (Cart.price (Cart.product i)) = true /\
            isFinite (Cart.price (Cart.product i)) = true /\
            exists m e, Cart.quantity i = S754_finite false m e /\
                        bounded prec emax m e = true /\
                        Cart.whole_quantity (Cart.quantity i) = true).
  { intros i Hi. destruct (Hp i Hi) as [A B]. repeat split; auto. }
  destruct (in_dec string_dec (Cart.id p) (Cart.ids prev)) as [Hin | Hout].
  - rewrite addItem_present by exact Hin.
    destruct (total_fold_mono _ _ (of_Z 0) (of_Z 0) (lines_raised (Cart.id p) prev H))
      as (L & N & N'); try reflexivity.
    exact (proj1 (round2_mono _ _ N N' L)).
  - rewrite addItem_absent by exact Hout. rewrite map_app. cbn [map].
    unfold Pricing.calculateTotal. rewrite fold_left_app.
    cbn [fold_left Pricing.price Pricing.quantity Cart.product Cart.quantity].
    assert (Ns : nonneg (fold_left
                           (fun sum item =>
                              add sum (mul (Pricing.price item) (Pricing.quantity item)))
                           (map (fun i => Pricing.mkLine (Cart.price (Cart.product i))
                                            (Cart.quantity i)) prev) (of_Z 0)) = true).
    { apply subtotal_fold_nonneg; [| reflexivity].
      apply Forall_forall. intros i Hi.
      destruct (H i Hi) as (A & B & m & e & E & Hb & _).
      rewrite E. cbn [nonneg isFinite negb andb]. auto. }
    destruct (mul_mono (Cart.price p) (Cart.price p) (of_Z 1) (of_Z 1))
      as (_ & Nm & _); auto using le_refl_nonneg.
    pose proof (add_ge_l _ _ Ns Nm) as Lg.
    destruct (add_mono_l (S754_zero false) (mul (Cart.price p) (of_Z 1)) _ eq_refl Nm Ns)
      as (_ & _ & Nsum); [now apply le_zero_l |].
    rewrite add_comm in Nsum.
    exact (proj1 (round2_mono _ _ Ns Nsum Lg)).
Qed.

Lemma addItem_raises_subtotal_witness :
  le (Pricing.calculateTotal
        (map (fun i => Pricing.mkLine (Cart.price (Cart.product i)) (Cart.quantity i))
           [Cart.mkItem Cart.headphones (of_Z 1)]))
     (Pricing.calculateTotal
        (map (fun i => Pricing.mkLine (Cart.price (Cart.product i)) (Cart.quantity i))
           (Cart.addItem Cart.headphones [Cart.mkItem Cart.headphones (of_Z 1)]))) = true.
Proof.
  apply (addItem_raises_subtotal Cart.headphones [Cart.mkItem Cart.headphones (of_Z 1)]);
    try reflexivity.
  - split.
    + repeat constructor. intros [].
    + intros i [<- | []].
      exists 4503599627370496%positive, (-52)%Z. repeat split.
  - repeat constructor.
Defined.

(** ** formatCurrency *)

Section Format.
Local Open Scope Q_scope.

Lemma Qabs_val (s : bool) (m : positive) (e : Z) :
  Qabs (val (S754_finite s m e)) == inject_Z (Z.pos m) * bpow e.
Proof.
  cbn [val]. rewrite Qabs_Qmult.
  rewrite (Qabs_pos (bpow e)) by (apply Qlt_le_weak, bpow_pos).
  destruct s; reflexivity.
Qed.

Lemma eq_refl_finite (s : bool) (m : positive) (e : Z) :
  eq (S754_finite s m e) (S754_finite s m e) = true.
Proof.
  unfold eq, SFeqb, SFcompare.
  destruct s; rewrite Z.compare_refl, Pos.compare_cont_refl; reflexivity.
Qed.

(** A whole number of cents prints as it is. *)
Lemma format_cents (ts : number -> string) (n : Z) :
  (0 <= n <= 10 ^ 15)%Z ->
  Pricing.formatCurrency ts (decimal n 2)
  = ("$" ++ string_of_list_ascii
       (digits (n / 100) ++ "."%char :: [digit (n / 10 mod 10); digit (n mod 10)]))%string
  /\
  ((0 < n)%Z ->
   Pricing.formatCurrency ts (decimal (- n) 2)
   = ("$-" ++ string_of_list_ascii
        (digits (n / 100) ++ "."%char :: [digit (n / 10 mod 10); digit (n mod 10)]))%string).
Proof.
  intros Hn. destruct (Z.eq_dec n 0) as [-> | Hne]; [split; [reflexivity | lia] |].
  destruct (cents_value n ltac:(lia)) as (m & e & Hm & Hb & E1 & E2).
  assert (Hneg : decimal (- n) 2 = S754_finite true m e)
    by (apply decimal_neg; auto; lia).
  rewrite Hm in E1, E2. cbn [val signed] in E1, E2.
  assert (K53 : bpow (-53) == 1 # 9007199254740992) by reflexivity.
  assert (Hn1 : 1 <= inject_Z n) by (rewrite <- (Zle_Qle 1); lia).
  assert (Hn2 : inject_Z n <= 1000000000000000)
    by (change 1000000000000000 with (inject_Z (10 ^ 15)); rewrite <- Zle_Qle; lia).
  rewrite K53 in E1, E2.
  assert (Hv : inject_Z (Z.pos m) * bpow e < inject_Z (10 ^ 21)).
  { change (inject_Z (10 ^ 21)) with 1000000000000000000000. lra. }
  assert (H : forall s, toFixed ts (S754_finite s m e) 2
            = ((if s then "-" else "") ++ string_of_list_ascii (fixed_digits n 2))%string).
  { intros s. destruct (toFixed_finite ts s m e Hv) as (k & Hk & -> & L & U).
    assert (k = n) as ->; [| reflexivity].
    assert (A : inject_Z k < inject_Z (n + 1))
      by (rewrite inject_Z_plus; change (inject_Z 1) with 1; lra).
    assert (B : inject_Z n < inject_Z (k + 1))
      by (rewrite inject_Z_plus; change (inject_Z 1) with 1; lra).
    rewrite <- Zlt_Qlt in A, B. lia. }
  unfold Pricing.formatCurrency. rewrite Hm, Hneg, !H.
  rewrite fixed_digits_split by lia. split; reflexivity.
Qed.

End Format.

(** X20. formatCurrency prints a whole number of cents as it is: for
    0 <= n <= 10^15 the double nearest to n / 100 prints as a dollar
    sign, the digits of n / 100, a point and the two digits of
    n mod 100; the opposite amount prints the same with a minus sign
    after the dollar sign. *)
Theorem formatCurrency_cents (Number_toString : number -> string) (n : Z) :
  0 <= n <= 10 ^ 15 ->
  Pricing.formatCurrency Number_toString (decimal n 2)
  = ("$" ++ string_of_list_ascii
       (digits (n / 100) ++ "."%char :: [digit (n / 10 mod 10); digit (n mod 10)]))%string
  /\
  (0 < n ->
   Pricing.formatCurrency Number_toString (decimal (- n) 2)
   = ("$-" ++ string_of_list_ascii
        (digits (n / 100) ++ "."%char :: [digit (n / 10 mod 10); digit (n mod 10)]))%string).
Proof. apply format_cents. Qed.

Lemma formatCurrency_cents_witness :
  Pricing.formatCurrency (fun _ => EmptyString) (decimal 7999 2) = "$79.99"%string.
Proof.
  rewrite (proj1 (formatCurrency_cents (fun _ => EmptyString) 7999 ltac:(lia))).
  reflexivity.
Defined.

(** X21. formatCurrency on every finite amount below 10^21 in
    absolute value: a dollar sign, a minus sign when the amount is
    negative, the integer digits, a point and exactly two digits, those
    of the whole number of cents nearest to the amount (the larger one
    on a tie). *)
Theorem formatCurrency_shape (Number_toString : number -> string) (x : number) :
  isFinite x = true ->
  (Qabs (val x) < inject_Z (10 ^ 21))%Q ->
  exists n : Z,
    0 <= n /\
    (inject_Z n <= Qabs (val x) * 100 + (1 # 2))%Q /\
    (Qabs (val x) * 100 + (1 # 2) < inject_Z n + 1)%Q /\
    Pricing.formatCurrency Number_toString x
    = ("$" ++ (if negative x then "-" else "") ++
       string_of_list_ascii
         (digits (n / 100) ++ "."%char :: [digit (n / 10 mod 10); digit (n mod 10)]))%string.
Proof.
  intros Fx Hx. destruct x as [s | s | | s m e]; try discriminate.
  - exists 0. split; [lia |]. split; [vm_compute; discriminate |].
    split; [vm_compute; reflexivity |]. reflexivity.
  - rewrite Qabs_val in Hx.
    destruct (toFixed_finite Number_toString s m e Hx) as (n & Hn & E & L & U).
    exists n. split; [exact Hn |]. rewrite Qabs_val. split; [exact L |].
    split; [exact U |].
    unfold Pricing.formatCurrency. rewrite E, fixed_digits_split by exact Hn.
    reflexivity.
Qed.

Lemma formatCurrency_shape_witness :
  exists n : Z,
    0 <= n /\
    (inject_Z n <= Qabs (val (decimal (-125) 3)) * 100 + (1 # 2))%Q /\
    (Qabs (val (decimal (-125) 3)) * 100 + (1 # 2) < inject_Z n + 1)%Q /\
    Pricing.formatCurrency (fun _ => EmptyString) (decimal (-125) 3)
    = ("$" ++ (if negative (decimal (-125) 3) then "-" else "") ++
       string_of_list_ascii
         (digits (n / 100) ++ "."%char :: [digit (n / 10 mod 10); digit (n mod 10)]))%string.
Proof.
  apply (formatCurrency_shape (fun _ => EmptyString) (decimal (-125) 3)).
  - reflexivity.
  - vm_compute. reflexivity.
Defined.

(** X22. The subtotal is displayed to the cent: for lines with
    non-negative finite prices and quantities and a total up to ten
    trillion, calculateTotal is the double nearest to a whole number n
    of cents, and formatCurrency prints exactly n. *)
Theorem formatCurrency_calculateTotal (Number_toString : number -> string)
  (items : list Pricing.PricedLine) :
  Forall (fun i => nonneg (Pricing.price i) = true /\
                   isFinite (Pricing.price i) = true /\
                   nonneg (Pricing.quantity i) = true /\
                   isFinite (Pricing.quantity i) = true) items ->
  le (Pricing.calculateTotal items) (of_Z (10 ^ 13)) = true ->
  exists n : Z,
    0 <= n <= 10 ^ 15 /\
    eq (Pricing.calculateTotal items) (decimal n 2) = true /\
    Pricing.formatCurrency Number_toString (Pricing.calculateTotal items)
    = ("$" ++ string_of_list_ascii
         (digits (n / 100) ++ "."%char :: [digit (n / 10 mod 10); digit (n mod 10)]))%string.
Proof.
  intros Hitems Hle.
  assert (Ns : nonneg (fold_left (fun sum item =>
                                    add sum (mul (Pricing.price item) (Pricing.quantity item)))
                         items (of_Z 0)) = true).
  { apply (total_fold_mono items items (of_Z 0) (of_Z 0)); try reflexivity.
    clear Hle. induction Hitems as [| i l (Np & Fp & Nq & Fq) _ IH]; constructor; auto.
    repeat split; auto using le_refl_nonneg. }
  unfold Pricing.calculateTotal in *.
  set (s := fold_left _ _ (of_Z 0)) in *.
  change (div (Math_round (mul s (of_Z 100))) (of_Z 100)) with (Pricing.round2 s) in *.
  destruct (round2_cases s Ns Hle) as [[sg ->] | (n & Hn & ->)].
  - exists 0. split; [lia |]. destruct sg; split; reflexivity.
  - exists n. split; [lia |]. split.
    + destruct (cents_value n Hn) as (m & e & -> & _). apply eq_refl_finite.
    + apply format_cents. lia.
Qed.

Lemma formatCurrency_calculateTotal_witness :
  exists n : Z,
    0 <= n <= 10 ^ 15 /\
    eq (Pricing.calculateTotal
          [Pricing.mkLine (of_Z 10) (of_Z 2); Pricing.mkLine (decimal 55 1) (of_Z 3)])
       (decimal n 2) = true /\
    Pricing.formatCurrency (fun _ => EmptyString)
      (Pricing.calculateTotal
         [Pricing.mkLine (of_Z 10) (of_Z 2); Pricing.mkLine (decimal 55 1) (of_Z 3)])
    = ("$" ++ string_of_list_ascii
         (digits (n / 100) ++ "."%char :: [digit (n / 10 mod 10); digit (n mod 10)]))%string.
Proof.
  apply (formatCurrency_calculateTotal (fun _ => EmptyString)
           [Pricing.mkLine (of_Z 10) (of_Z 2); Pricing.mkLine (decimal 55 1) (of_Z 3)]).
  - repeat constructor.
  - reflexivity.
Defined.

(** ** Amounts in whole cents *)

Section WholeCents.

Lemma cents_nonneg (n : Z) :
  0 <= n <= 10 ^ 15 ->
  nonneg (decimal n 2) = true /\ isFinite (decimal n 2) = true /\
  valid (decimal n 2) = true.
Proof.
  intros Hn. destruct (Z.eq_dec n 0) as [-> | Hne]; [repeat split |].
  destruct (cents_value n ltac:(lia)) as (m & e & -> & Hb & _).
  cbn [nonneg isFinite negb andb]. repeat split; exact Hb.
Qed.

Lemma add_zero_l (x : number) :
  nonneg x = true -> isFinite x = true ->
  (forall s, x <> S754_zero s) \/ x = S754_zero false ->
  add (of_Z 0) x = x.
Proof.
  intros Hx Fx Hz.
  destruct (nonneg_cases _ Hx) as [[s ->] | [(m & e & -> & B) | ->]];
    try discriminate; try reflexivity.
  destruct Hz as [Hz | Hz]; [now destruct (Hz s) | now rewrite Hz].
Qed.

End WholeCents.

(** X24. An amount in whole cents n / 100, 0 <= n <= 10^15, passes
    unchanged through the pricing functions where nothing is taken or
    added: calculateDiscount at 0 percent, calculateTax at rate 1, and
    calculateTotal of the single line of quantity 1. *)
Theorem whole_cents_unchanged (n : Z) :
  0 <= n <= 10 ^ 15 ->
  Pricing.calculateDiscount (decimal n 2) (of_Z 0) = Return (decimal n 2) /\
  Pricing.calculateTax (decimal n 2) (Some (of_Z 1)) = decimal n 2 /\
  Pricing.calculateTotal [Pricing.mkLine (decimal n 2) (of_Z 1)] = decimal n 2.
Proof.
  intros Hn. destruct (cents_nonneg n Hn) as (Nn & Fn & Vn).
  pose proof (round2_cents_fix n Hn) as Hfix.
  split; [| split].
  - rewrite (calculateDiscount_in_range _ (of_Z 0) eq_refl eq_refl).
    change (sub (of_Z 1) (div (of_Z 0) (of_Z 100))) with (of_Z 1).
    now rewrite mul_one, Hfix.
  - unfold Pricing.calculateTax. rewrite mul_one by exact Vn. exact Hfix.
  - unfold Pricing.calculateTotal.
    cbn [fold_left Pricing.price Pricing.quantity].
    rewrite mul_one by exact Vn.
    rewrite add_zero_l; auto.
    destruct (Z.eq_dec n 0) as [-> | Hne]; [now right | left].
    destruct (cents_value n ltac:(lia)) as (m & e & -> & _). discriminate.
Qed.

Lemma whole_cents_unchanged_witness :
  Pricing.calculateDiscount (decimal 4999 2) (of_Z 0) = Return (decimal 4999 2) /\
  Pricing.calculateTax (decimal 4999 2) (Some (of_Z 1)) = decimal 4999 2 /\
  Pricing.calculateTotal [Pricing.mkLine (decimal 4999 2) (of_Z 1)] = decimal 4999 2.
Proof. apply (whole_cents_unchanged 4999). lia. Defined.

(** X25. A discount never raises an amount in whole cents: for
    0 <= n <= 10^15 and a discount between 0 and 100, the result of
    calculateDiscount(n / 100, d) is between 0 and n / 100. *)
Theorem calculateDiscount_le_cents (n : Z) (d : number) :
  0 <= n <= 10 ^ 15 ->
  valid d = true -> le (of_Z 0) d = true -> le d (of_Z 100) = true ->
  exists r,
    Pricing.calculateDiscount (decimal n 2) d = Return r /\
    le (of_Z 0) r = true /\ le r (decimal n 2) = true.
Proof.
  intros Hn Vd Hd0 Hd100. destruct (cents_nonneg n Hn) as (Nn & Fn & Vn).
  rewrite (calculateDiscount_in_range _ d Hd0 Hd100). eexists. split; [reflexivity |].
  destruct (discount_factor d Vd Hd0 Hd100) as (_ & _ & Nf & Lf & Ff).
  destruct (mul_fraction (decimal n 2) _ Nn Fn Nf Lf) as (Nx & Hx).
  destruct (round2_mono _ _ Nx Nn Hx) as (L & N & _).
  rewrite (round2_cents_fix n Hn) in L.
  split; [now apply le_0_nonneg | exact L].
Qed.

Lemma calculateDiscount_le_cents_witness :
  exists r,
    Pricing.calculateDiscount (decimal 4999 2) (of_Z 33) = Return r /\
    le (of_Z 0) r = true /\ le r (decimal 4999 2) = true.
Proof.
  apply (calculateDiscount_le_cents 4999 (of_Z 33)); try reflexivity. lia.
Defined.

(** X26. The cart keeps the product it stored first: addItem of a
    product whose id is already in the cart, and updateQuantity with a
    quantity that is not <= 0, leave the product of every line (its
    name, price and image) as it was. *)
Theorem stored_products_kept (p : Cart.Product) (productId : string) (quantity : number)
  (prev : list Cart.CartItem) :
  (In (Cart.id p) (Cart.ids prev) ->
   map Cart.product (Cart.addItem p prev) = map Cart.product prev)
  /\
  (le quantity (of_Z 0) = false ->
   map Cart.product (Cart.updateQuantity productId quantity prev)
   = map Cart.product prev).
Proof.
  split.
  - intros Hin. rewrite addItem_present by exact Hin.
    rewrite map_map. apply map_ext. intros i.
    destruct (String.eqb (Cart.id (Cart.product i)) (Cart.id p)); reflexivity.
  - intros Hq. unfold Cart.updateQuantity. rewrite Hq.
    rewrite map_map. apply map_ext. intros i.
    destruct (String.eqb (Cart.id (Cart.product i)) productId); reflexivity.
Qed.

